(** * Mirror and projection operators: a shallow embedding

    The geometry of [mesh_mirror_script.py] and of
    [2.8/projection_ops/proj_data.py], written as Rocq functions.

    Numbers.  Python floats are modelled by exact rationals [Q]; a float
    division whose divisor is zero raises [ZeroDivisionError] in Python and
    is modelled as such.  Rounding, overflow and NaN are outside the model.

    Effects.  The mirror operator mutates vertex positions, the per-vertex
    [SearchData] array and the [tag] flag of the mirror faces; these live in
    an explicit [State] threaded by a small state-and-exception monad. *)

From Stdlib Require Import QArith Qabs Qminmax Qpower Lqa Lia String.
From stdpp Require Import list.

Local Open Scope Q_scope.

(** ** Rationals as Python floats *)

Definition Qltb (x y : Q) : bool := negb (Qle_bool y x).
Definition Qgtb (x y : Q) : bool := Qltb y x.

(** ** Exceptions and outcomes *)

Inductive exn : Type := ZeroDivisionError | AttributeError | IndexError.

Inductive outcome (A : Type) : Type :=
| Ok (a : A)
| Raise (e : exn)
| OutOfFuel.
Arguments Ok {A} a.
Arguments Raise {A} e.
Arguments OutOfFuel {A}.

Definition obind {A B} (m : outcome A) (k : A -> outcome B) : outcome B :=
  match m with
  | Ok a => k a
  | Raise e => Raise e
  | OutOfFuel => OutOfFuel
  end.

Notation "'let?' x := e 'in' k" := (obind e (fun x => k))
  (at level 10, x name, e at level 100, k at level 200).

(** Python's [a / b] on floats. *)
Definition fdiv (a b : Q) : outcome Q :=
  if Qeq_bool b 0 then Raise ZeroDivisionError else Ok (a / b).

(** ** mathutils.Vector *)

Record Vector : Type := mkVector { vx : Q; vy : Q; vz : Q }.

Definition vadd (a b : Vector) : Vector :=
  mkVector (vx a + vx b) (vy a + vy b) (vz a + vz b).
Definition vsub (a b : Vector) : Vector :=
  mkVector (vx a - vx b) (vy a - vy b) (vz a - vz b).
(** [k * v] and [v * k] *)
Definition vscale (k : Q) (a : Vector) : Vector :=
  mkVector (k * vx a) (k * vy a) (k * vz a).
Definition vmul (a : Vector) (k : Q) : Vector :=
  mkVector (vx a * k) (vy a * k) (vz a * k).
Definition vneg (a : Vector) : Vector :=
  mkVector (- vx a) (- vy a) (- vz a).
Definition dot (a b : Vector) : Q :=
  vx a * vx b + vy a * vy b + vz a * vz b.
Definition cross (a b : Vector) : Vector :=
  mkVector (vy a * vz b - vz a * vy b)
           (vz a * vx b - vx a * vz b)
           (vx a * vy b - vy a * vx b).

(** Component-wise rational equality of vectors. *)
Definition veq (a b : Vector) : Prop :=
  vx a == vx b /\ vy a == vy b /\ vz a == vz b.

(** ** The mirror mesh *)

(** A vertex of the mirror mesh: position and normal. *)
Record MVert : Type := mkMVert { mco : Vector; mnormal : Vector }.

(** A (triangulated) face of the mirror mesh.  [fedges] lists, per edge of
    the face, the indices of the faces linked to that edge
    ([edge.link_faces]). *)
Record BMFace : Type := mkFace {
  findex : nat;
  fnormal : Vector;
  fv0 : MVert;
  fv1 : MVert;
  fv2 : MVert;
  fedges : list (list nat)
}.

(** ** Static settings of the mirror operator *)

Record MirrorStatics : Type := mkStatics {
  bias : Q;
  biasOne : Q;
  biasNeg : Q;
  smoothed : bool;
  cull : bool;
  closestOnly : bool;
  onlyIntersecting : bool
}.

Definition largeFloat : Q := 10000000.

(** ** MirrorData *)

Record MirrorData : Type := mkMirrorData {
  _mirrorTri : BMFace;
  _intersected : bool;
  _t : Q;
  _u : Q;
  _v : Q;
  _w : Q
}.

(** [MirrorData(mTri, False, t)]: the remaining fields take their
    defaults. *)
Definition MirrorData_default (mTri : BMFace) (i : bool) (t : Q) : MirrorData :=
  mkMirrorData mTri i t 0 0 0.

Definition calcSmoothMirrorVector (self : MirrorData) : outcome Vector :=
  let tri := _mirrorTri self in
  let norm := vadd (vadd (vmul (mnormal (fv0 tri)) (_u self))
                         (vmul (mnormal (fv1 tri)) (_v self)))
                   (vmul (mnormal (fv2 tri)) (_w self)) in
  let? q := fdiv (-2 * _t self) (dot (fnormal tri) norm) in
  Ok (vscale q norm).

Definition calcFlatMirrorVector (self : MirrorData) : Vector :=
  vscale (-2 * _t self) (fnormal (_mirrorTri self)).

(** ** MirrorMesh.triIntersection *)

Section TriIntersection.
Variable cfg : MirrorStatics.

Definition triIntersection (vertCo : Vector) (mTri : BMFace)
  : outcome (option MirrorData) :=
  let t := dot (fnormal mTri) (vsub vertCo (mco (fv0 mTri))) in
  if cull cfg && Qltb t 0 then Ok None else
  let? q0 := fdiv t (dot (fnormal mTri) (mnormal (fv0 mTri))) in
  let p0 := vadd (vscale q0 (mnormal (fv0 mTri))) (mco (fv0 mTri)) in
  let? q1 := fdiv t (dot (fnormal mTri) (mnormal (fv1 mTri))) in
  let p1 := vadd (vscale q1 (mnormal (fv1 mTri))) (mco (fv1 mTri)) in
  let? q2 := fdiv t (dot (fnormal mTri) (mnormal (fv2 mTri))) in
  let p2 := vadd (vscale q2 (mnormal (fv2 mTri))) (mco (fv2 mTri)) in
  let v0 := vsub p1 p0 in
  let v1 := vsub p2 p0 in
  let v2 := vsub vertCo p0 in
  let d00 := dot v0 v0 in
  let d01 := dot v0 v1 in
  let d11 := dot v1 v1 in
  let d20 := dot v2 v0 in
  let d21 := dot v2 v1 in
  let? invDenom := fdiv 1 (d00 * d11 - d01 * d01) in
  let v := (d11 * d20 - d01 * d21) * invDenom in
  let w := (d00 * d21 - d01 * d20) * invDenom in
  let u := 1 - v - w in
  Ok (Some (mkMirrorData mTri
              (Qgtb u (biasNeg cfg) && Qgtb v (biasNeg cfg) && Qgtb w (biasNeg cfg))
              t u v w)).
End TriIntersection.

(** ** SearchData *)

(** [_closeVert] holds the index of the closest mirrored neighbour, when
    one has been seen. *)
Record SearchData : Type := mkSearchData {
  _closeDistance : Q;
  _closeVert : option nat;
  _mirrorData : option MirrorData
}.

Definition SearchData_init : SearchData := mkSearchData largeFloat None None.

Definition mirrored (self : SearchData) : bool :=
  match _mirrorData self with Some _ => true | None => false end.
Definition notMirrored (self : SearchData) : bool :=
  match _mirrorData self with Some _ => false | None => true end.

Definition setMirror (self : SearchData) (mirrorData : MirrorData) : SearchData :=
  mkSearchData (_closeDistance self) (_closeVert self) (Some mirrorData).

Definition setClosestMirror (self : SearchData) (mirrorData : MirrorData)
  : SearchData :=
  match _mirrorData self with
  | None => setMirror self mirrorData
  | Some old =>
      if Qltb (_t mirrorData) (_t old) then setMirror self mirrorData else self
  end.

(** ** The mutable state of one [mirrorMesh] call *)

(** A vertex of the mesh being mirrored.  [link_edges] lists, per edge of
    the vertex, the index of [edge.other_vert(vert)]. *)
Record BMVert : Type := mkVert { co : Vector; link_edges : list nat }.

(** [mirrorLog] is a trace: the index of every vertex handed to
    [mirrorVert], most recent first. *)
Record State : Type := mkState {
  verts : list BMVert;
  searchData : list SearchData;
  tag : list bool;
  mirrorLog : list nat
}.

Definition M (A : Type) : Type := State -> outcome (A * State).

Definition ret {A} (a : A) : M A := fun st => Ok (a, st).
Definition bind {A B} (m : M A) (k : A -> M B) : M B :=
  fun st => match m st with
            | Ok (a, st') => k a st'
            | Raise e => Raise e
            | OutOfFuel => OutOfFuel
            end.
Definition lift {A} (o : outcome A) : M A :=
  fun st => match o with
            | Ok a => Ok (a, st)
            | Raise e => Raise e
            | OutOfFuel => OutOfFuel
            end.
Definition raise {A} (e : exn) : M A := fun _ => Raise e.

Notation "x <~ e ;; k" := (bind e (fun x => k))
  (at level 100, e at next level, k at level 200, right associativity).
Notation "e ;;; k" := (bind e (fun _ => k))
  (at level 100, k at level 200, right associativity).

(** [for x in l: body x] *)
Fixpoint for_each {A} (l : list A) (body : A -> M unit) : M unit :=
  match l with
  | [] => ret tt
  | x :: l' => body x ;;; for_each l' body
  end.

(** An attribute access on a value that may be [None]. *)
Definition attr {A} (o : option A) : M A :=
  match o with Some a => ret a | None => raise AttributeError end.

Definition get_vert (i : nat) : M BMVert :=
  fun st => match verts st !! i with
            | Some v => Ok (v, st)
            | None => Raise IndexError
            end.
Definition get_sd (i : nat) : M SearchData :=
  fun st => match searchData st !! i with
            | Some d => Ok (d, st)
            | None => Raise IndexError
            end.
Definition set_sd (i : nat) (d : SearchData) : M unit :=
  fun st => Ok (tt, mkState (verts st) (<[i:=d]> (searchData st))
                            (tag st) (mirrorLog st)).
Definition get_tag (i : nat) : M bool :=
  fun st => match tag st !! i with
            | Some b => Ok (b, st)
            | None => Raise IndexError
            end.
Definition set_tag (i : nat) (b : bool) : M unit :=
  fun st => match tag st !! i with
            | Some _ => Ok (tt, mkState (verts st) (searchData st)
                                        (<[i:=b]> (tag st)) (mirrorLog st))
            | None => Raise IndexError
            end.
(** [vert.co = c], recorded in the trace. *)
Definition set_co (i : nat) (c : Vector) : M unit :=
  fun st => match verts st !! i with
            | Some v => Ok (tt, mkState (<[i:=mkVert c (link_edges v)]> (verts st))
                                        (searchData st) (tag st)
                                        (i :: mirrorLog st))
            | None => Raise IndexError
            end.

(** ** The mirror engine *)

Section MirrorEngine.
Variable cfg : MirrorStatics.
(** [Vector.length] of mathutils (a square root, not rational). *)
Variable vlength : Vector -> Q.
(** [mirrorMesh.faces] *)
Variable faces : list BMFace.

Definition mirrorVert (i : nat) (mirrorData : MirrorData)
           (forceFlatMirror : bool) : M unit :=
  mVec <~ lift (if negb (smoothed cfg) || forceFlatMirror
                then Ok (calcFlatMirrorVector mirrorData)
                else calcSmoothMirrorVector mirrorData) ;;
  vert <~ get_vert i ;;
  set_co i (vadd (co vert) mVec).

Fixpoint queueConnectedVerts_edges (i : nat) (edges : list nat)
         (queue : list nat) : M (list nat) :=
  match edges with
  | [] => ret queue
  | connected :: edges' =>
      data <~ get_sd connected ;;
      if notMirrored data then
        vert <~ get_vert i ;;
        other <~ get_vert connected ;;
        let distance := vlength (vsub (co vert) (co other)) in
        (if Qltb distance (_closeDistance data)
         then set_sd connected
                (mkSearchData distance (Some i) (_mirrorData data))
         else ret tt) ;;;
        queueConnectedVerts_edges i edges' (queue ++ [connected])
      else queueConnectedVerts_edges i edges' queue
  end.

Definition queueConnectedVerts (i : nat) (queue : list nat) : M (list nat) :=
  vert <~ get_vert i ;;
  queueConnectedVerts_edges i (link_edges vert) queue.

(** [for otherFace in edge.link_faces] *)
Fixpoint queueConnectedFaces_link (link_faces : list nat)
         (queue tagList : list BMFace) : M (list BMFace * list BMFace) :=
  match link_faces with
  | [] => ret (queue, tagList)
  | j :: rest =>
      otherFace <~ lift (match faces !! j with
                         | Some f => Ok f
                         | None => Raise IndexError
                         end) ;;
      t <~ get_tag (findex otherFace) ;;
      if negb t then
        set_tag (findex otherFace) true ;;;
        queueConnectedFaces_link rest (queue ++ [otherFace])
                                 (tagList ++ [otherFace])
      else queueConnectedFaces_link rest queue tagList
  end.

(** [for edge in face.edges] *)
Fixpoint queueConnectedFaces_edges (edges : list (list nat))
         (queue tagList : list BMFace) : M (list BMFace * list BMFace) :=
  match edges with
  | [] => ret (queue, tagList)
  | edge :: rest =>
      qt <~ queueConnectedFaces_link edge queue tagList ;;
      queueConnectedFaces_edges rest (fst qt) (snd qt)
  end.

Definition queueConnectedFaces (face : BMFace) (queue tagList : list BMFace)
  : M (list BMFace * list BMFace) :=
  queueConnectedFaces_edges (fedges face) queue tagList.

(** The [while not faceQueue.empty()] loop of [findFirstTri]; it returns
    the list of tagged faces. *)
Fixpoint findFirstTri_loop (fuel : nat) (i : nat)
         (faceQueue taggedFaces : list BMFace) : M (list BMFace) :=
  match fuel with
  | O => fun _ => OutOfFuel
  | S fuel' =>
      match faceQueue with
      | [] => ret taggedFaces
      | face :: faceQueue' =>
          vert <~ get_vert i ;;
          mDat <~ lift (triIntersection cfg (co vert) face) ;;
          match mDat with
          | Some md =>
              if _intersected md then
                data <~ get_sd i ;;
                set_sd i (setMirror data md) ;;;
                ret taggedFaces
              else
                qt <~ queueConnectedFaces face faceQueue' taggedFaces ;;
                findFirstTri_loop fuel' i (fst qt) (snd qt)
          | None =>
              qt <~ queueConnectedFaces face faceQueue' taggedFaces ;;
              findFirstTri_loop fuel' i (fst qt) (snd qt)
          end
      end
  end.

Definition findFirstTri (fuel : nat) (i : nat) (lastMFace : BMFace) : M unit :=
  set_tag (findex lastMFace) true ;;;
  taggedFaces <~ findFirstTri_loop fuel i [lastMFace] [lastMFace] ;;
  for_each taggedFaces (fun f => set_tag (findex f) false).

Definition findClosestTri (i : nat) : M unit :=
  for_each faces (fun tri =>
    vert <~ get_vert i ;;
    mDat <~ lift (triIntersection cfg (co vert) tri) ;;
    match mDat with
    | Some md =>
        if _intersected md then
          data <~ get_sd i ;;
          set_sd i (setClosestMirror data md)
        else ret tt
    | None => ret tt
    end).

Definition findDistance (i : nat) (mTri : BMFace) : M unit :=
  vert <~ get_vert i ;;
  let t := dot (fnormal mTri) (vsub (co vert) (mco (fv0 mTri))) in
  let mDat := MirrorData_default mTri false t in
  data <~ get_sd i ;;
  set_sd i (setMirror data mDat).

(** The [while not vertQueue.empty()] loop of [mirrorConnected].
  [fallback] is the [elif not MirrorMesh.onlyIntersecting] branch (and the
  empty [else]), taken when no intersecting record was found. *)
Fixpoint mirrorConnected_loop (fuel : nat) (vertQueue : list nat)
       (intersectionTest : bool) : M unit :=
match fuel with
| O => fun _ => OutOfFuel
| S fuel' =>
    match vertQueue with
    | [] => ret tt
    | i :: vertQueue' =>
        data <~ get_sd i ;;
        if notMirrored data then
          closeVert <~ attr (_closeVert data) ;;
          cdata <~ get_sd closeVert ;;
          let lastMData := _mirrorData cdata in
          mData <~ (if intersectionTest then
                      last <~ attr lastMData ;;
                      findFirstTri fuel i (_mirrorTri last) ;;;
                      data' <~ get_sd i ;;
                      ret (_mirrorData data')
                    else ret None) ;;
          let fallback :=
            if negb (onlyIntersecting cfg) then
              last <~ attr lastMData ;;
              findDistance i (_mirrorTri last) ;;;
              data' <~ get_sd i ;;
              md' <~ attr (_mirrorData data') ;;
              mirrorVert i md' true ;;;
              q <~ queueConnectedVerts i vertQueue' ;;
              mirrorConnected_loop fuel' q intersectionTest
            else mirrorConnected_loop fuel' vertQueue' intersectionTest in
          match mData with
          | Some md =>
              if _intersected md then
                mirrorVert i md false ;;;
                q <~ queueConnectedVerts i vertQueue' ;;
                mirrorConnected_loop fuel' q intersectionTest
              else fallback
          | None => fallback
          end
        else mirrorConnected_loop fuel' vertQueue' intersectionTest
    end
end.

Definition mirrorConnected (fuel : nat) (initVertInd : nat)
           (intersectionTest : bool) : M unit :=
  q <~ queueConnectedVerts initVertInd [] ;;
  mirrorConnected_loop fuel q intersectionTest.

Definition mirrorNonIntersecting (fuel : nat) (nonMirrorCount : nat) : M unit :=
  if (0 <? nonMirrorCount)%nat then
    n <~ (fun st => Ok (length (searchData st), st)) ;;
    for_each (seq 0 n) (fun i =>
      data <~ get_sd i ;;
      if mirrored data then mirrorConnected fuel i false else ret tt)
  else ret tt.

(** [searchData = [SearchData() for i in range(len(mesh.verts))]] *)
Definition init_searchData : M unit :=
  fun st => Ok (tt, mkState (verts st)
                            (replicate (length (verts st)) SearchData_init)
                            (tag st) (mirrorLog st)).

(** The first loop of [mirrorMesh]. *)
Definition mirrorMesh_seed (fuel : nat) : M unit :=
  n <~ (fun st => Ok (length (searchData st), st)) ;;
  for_each (seq 0 n) (fun i =>
    data <~ get_sd i ;;
    if notMirrored data then
      findClosestTri i ;;;
      data' <~ get_sd i ;;
      match _mirrorData data' with
      | Some mData =>
          if _intersected mData then
            mirrorVert i mData false ;;;
            if negb (closestOnly cfg) then mirrorConnected fuel i true
            else ret tt
          else ret tt
      | None => ret tt
      end
    else ret tt).

(** The second loop of [mirrorMesh]. *)
Definition count_notMirrored (sd : list SearchData) : nat :=
  length (filter (fun d => notMirrored d = true) sd).

Definition mirrorMesh (fuel : nat) : M nat :=
  init_searchData ;;;
  mirrorMesh_seed fuel ;;;
  nonMirrorCount <~ (fun st => Ok (count_notMirrored (searchData st), st)) ;;
  (if closestOnly cfg && negb (onlyIntersecting cfg)
   then mirrorNonIntersecting fuel nonMirrorCount
   else ret tt) ;;;
  ret nonMirrorCount.
End MirrorEngine.

(** ** MirrorMesh.execute *)

(** What the operator reads from a scene object.  [bm_verts] and
    [bm_faces] are the result of [createBmesh(ob)] (vertices in world space,
    faces as vertex loops), [mirror_faces] the triangulated faces obtained
    when the object is used as the mirror, and [to_local] the action of the
    inverted world matrix on a position. *)
Record Object : Type := mkObject {
  ob_id : nat;
  ob_name : string;
  ob_is_mesh : bool;
  bm_verts : list BMVert;
  bm_faces : list (list nat);
  mirror_faces : list BMFace;
  to_local : Vector -> Vector
}.

(** The properties of the operator instance. *)
Record MirrorProps : Type := mkProps {
  mirrorSmooth : bool;
  cullBackfaces : bool;
  onlyIntersectingVert : bool;
  intersectClosest : bool;
  biasValue : Q
}.

(** The assignments at the head of [execute]; [self.bias] is not a property
    of the instance and resolves to the class attribute. *)
Definition set_statics (self : MirrorProps) (old : MirrorStatics) : MirrorStatics :=
  mkStatics (bias old) (1 + bias old) (- bias old)
            (mirrorSmooth self) (cullBackfaces self)
            (intersectClosest self) (onlyIntersectingVert self).

Inductive Report : Type :=
| ERROR_no_mesh_selected
| WARNING_not_intersecting (name : string) (nonMCount : nat)
| WARNING_no_mirror_created (name : string).

(** The object written by [createEmptyMeshCopy] and [mesh.to_mesh]. *)
Record MirrorOb : Type := mkMirrorOb {
  mo_name : string;
  mo_mesh_name : string;
  mo_verts : list Vector;
  mo_faces : list (list nat)
}.

(** [face.normal_flip()] reverses the winding of a face. *)
Definition normal_flip (face : list nat) : list nat := rev face.
Definition flipNormals (fs : list (list nat)) : list (list nat) :=
  map normal_flip fs.

Section Execute.
Variable cfg : MirrorStatics.
Variable vlength : Vector -> Q.

(** The body of the loop over the selected objects, for one mesh object
    other than the mirror.  [tags] is the tag state of the mirror mesh,
    which is shared by all objects of one run. *)
Definition execute_object (fuel : nat) (mMesh : list BMFace) (ob : Object)
           (tags : list bool)
  : outcome (option MirrorOb * list Report * list bool) :=
  let mesh := mkState (bm_verts ob) [] tags [] in
  let? r := mirrorMesh cfg vlength mMesh fuel mesh in
  let nonMCount := fst r in
  let st := snd r in
  if (nonMCount <? length (verts st))%nat then
    let mirrorOb :=
      mkMirrorOb (ob_name ob ++ "_Mirror") (ob_name ob ++ "_MirrorMesh")
                 (map (fun v => to_local ob (co v)) (verts st))
                 (flipNormals (bm_faces ob)) in
    Ok (Some mirrorOb,
        if negb (nonMCount =? 0)%nat
        then [WARNING_not_intersecting (ob_name ob) nonMCount] else [],
        tag st)
  else
    Ok (None, [WARNING_no_mirror_created (ob_name ob)], tag st).

Fixpoint execute_loop (fuel : nat) (ob_act : Object) (selected : list Object)
         (tags : list bool) : outcome (list MirrorOb * list Report) :=
  match selected with
  | [] => Ok ([], [])
  | ob :: rest =>
      if ob_is_mesh ob && negb (ob_id ob =? ob_id ob_act)%nat then
        let? r := execute_object fuel (mirror_faces ob_act) ob tags in
        let? r' := execute_loop fuel ob_act rest (snd r) in
        Ok (match fst (fst r) with
            | Some o => o :: fst r'
            | None => fst r'
            end, snd (fst r) ++ snd r')
      else execute_loop fuel ob_act rest tags
  end.
End Execute.

Inductive Status : Type := FINISHED | CANCELLED.

(** [execute]: the informational reports, which carry wall-clock time, are
    left out. *)
Definition execute (vlength : Vector -> Q) (fuel : nat) (self : MirrorProps)
           (old : MirrorStatics) (active : option Object)
           (selected : list Object)
  : outcome (Status * list MirrorOb * list Report) :=
  let cfg := set_statics self old in
  match active with
  | None => Ok (CANCELLED, [], [ERROR_no_mesh_selected])
  | Some ob_act =>
      if negb (ob_is_mesh ob_act)
      then Ok (CANCELLED, [], [ERROR_no_mesh_selected])
      else
        let mMesh := mirror_faces ob_act in
        let? r := execute_loop cfg vlength fuel ob_act selected
                               (replicate (length mMesh) false) in
        Ok (FINISHED, fst r, snd r)
  end.

(** * The projection operator, [proj_data.py] *)

(** ** 2D vectors (texture coordinates) and 3x3 matrices *)

Record Vector2 : Type := mkVector2 { ux : Q; uy : Q }.

Definition v2add (a b : Vector2) : Vector2 := mkVector2 (ux a + ux b) (uy a + uy b).
Definition v2sub (a b : Vector2) : Vector2 := mkVector2 (ux a - ux b) (uy a - uy b).
Definition v2div (a : Vector2) (k : Q) : Vector2 := mkVector2 (ux a / k) (uy a / k).
Definition v2eq (a b : Vector2) : Prop := ux a == ux b /\ uy a == uy b.

(** A matrix given by its columns, [m.col[0..2]]. *)
Record Matrix : Type := mkMatrix { col0 : Vector; col1 : Vector; col2 : Vector }.

Definition Identity : Matrix :=
  mkMatrix (mkVector 1 0 0) (mkVector 0 1 0) (mkVector 0 0 1).
(** [m @ v] *)
Definition mat_vec (m : Matrix) (v : Vector) : Vector :=
  vadd (vadd (vscale (vx v) (col0 m)) (vscale (vy v) (col1 m)))
       (vscale (vz v) (col2 m)).
(** [a @ b] *)
Definition mat_mul (a b : Matrix) : Matrix :=
  mkMatrix (mat_vec a (col0 b)) (mat_vec a (col1 b)) (mat_vec a (col2 b)).
Definition transposed (m : Matrix) : Matrix :=
  mkMatrix (mkVector (vx (col0 m)) (vx (col1 m)) (vx (col2 m)))
           (mkVector (vy (col0 m)) (vy (col1 m)) (vy (col2 m)))
           (mkVector (vz (col0 m)) (vz (col1 m)) (vz (col2 m))).

(** ** Setting *)

Inductive ProjType : Type := ZISUP | CAMERA | AXISALIGNED.

Module Setting.
Record t : Type := mk {
  bias : Q;
  smooth : bool;
  scalar : Vector;
  moveXY : Vector2;
  rotation : Q;
  depth : Q;
  proj_type : option ProjType;
  keepRelative : bool;
  partitions_per_face : Q
}.
End Setting.

(** ** Helpers imported from [funcs_math] and [funcs_tri] *)

(** Modelled from the spec: [funcs_math.clamp], which is not part of the
    sources at hand, "clamp[s] barycentric weights into [0,1]". *)
Definition clamp (x : Q) : Q := Qmax 0 (Qmin 1 x).

(** Modelled from the spec: [averageCo] and [averageNorm], which are not part
    of the sources at hand; the projected position is obtained "by
    barycentric-interpolating the target triangle's vertex positions" and the
    smooth normal is the "interpolated" normal of the triangle. *)
Definition averageCo_spec (face : BMFace) (uvw : Vector) : Vector :=
  vadd (vadd (vscale (vx uvw) (mco (fv0 face)))
             (vscale (vy uvw) (mco (fv1 face))))
       (vscale (vz uvw) (mco (fv2 face))).
Definition averageNorm_spec (face : BMFace) (uvw : Vector) : Vector :=
  vadd (vadd (vscale (vx uvw) (mnormal (fv0 face)))
             (vscale (vy uvw) (mnormal (fv1 face))))
       (vscale (vz uvw) (mnormal (fv2 face))).

(** ** zUpFindAxis *)

Section ZUp.
(** [funcs_math.sign] *)
Variable sign : Q -> Q.

Definition zUpFindAxis (meshAxis camAxis : Matrix) : Matrix :=
  let xDot := dot (col0 meshAxis) (col2 camAxis) in
  let yDot := dot (col1 meshAxis) (col2 camAxis) in
  let zDot := dot (col2 meshAxis) (col2 camAxis) in
  let ret01 :=
    if Qgtb (Qabs xDot) (Qmax (Qabs yDot) (Qabs zDot)) then
      (vmul (col2 meshAxis) (sign xDot), col1 meshAxis)
    else if Qgtb (Qabs yDot) (Qabs zDot) then
      (col0 meshAxis, vmul (col2 meshAxis) (sign yDot))
    else
      (vmul (col0 meshAxis) (- sign zDot), col1 meshAxis) in
  mkMatrix (fst ret01) (snd ret01) (cross (col0 meshAxis) (col1 meshAxis)).
End ZUp.

(** ** calcVertProjPoint and calcVertProjPointClamp *)

Section ProjPoint.
Variable cfg : Setting.t.
Variable averageCo : BMFace -> Vector -> Vector.
Variable averageNorm : BMFace -> Vector -> Vector.

Definition calcVertProjPoint (face : BMFace) (uvw : Vector) (depth : Q) : Vector :=
  let depth := depth + Setting.depth cfg in
  let co := averageCo face uvw in
  if Setting.smooth cfg then vadd co (vmul (averageNorm face uvw) depth)
  else vadd co (vmul (fnormal face) depth).

Definition calcVertProjPointClamp (face : BMFace) (uvw : Vector) (depth : Q)
  : Vector :=
  let depth := depth + Setting.depth cfg in
  let co := averageCo face uvw in
  if Setting.smooth cfg then
    let uvw := mkVector (clamp (vx uvw)) (vy uvw) (vz uvw) in
    let uvw := mkVector (vx uvw) (clamp (vy uvw)) (vz uvw) in
    let uvw := mkVector (vx uvw) (vy uvw) (clamp (vz uvw)) in
    vadd co (vmul (averageNorm face uvw) depth)
  else vadd co (vmul (fnormal face) depth).
End ProjPoint.

(** ** ProjectionData *)

Record ProjectionData : Type := mkProjectionData {
  target_ob : string;
  cameraRotInv : Matrix;
  cameraAxis : Matrix;
  cameraPos : Vector;
  ortho : bool
}.

Inductive ProjReport : Type :=
| WARNING_center_not_projected (meshName : string)
| WARNING_corner_not_projected (meshName : string)
| WARNING_target_area_zero (meshName : string).

(** What the projection reads from a scene object: its name and type, its
    location and the rotation and scale of [matrix_world.decompose()]. *)
Record ProjObject : Type := mkProjObject {
  po_name : string;
  po_is_mesh : bool;
  po_location : Vector;
  po_rot : Matrix;
  po_sca : Vector
}.

Section Projection.
Variable cfg : Setting.t.
Variable self : ProjectionData.

(** Types and operations of the host and of the modules [bound],
    [partition_grid], [funcs_tri], [funcs_blender] and [axis_align]. *)
Variable BMesh : Type.
Variable Bounds : Type.
(** [self.bvh.ray_cast(origin, direction, maxDist)], with the index of the
    hit resolved to the face [self.bmesh.faces[ind]]:
    location, normal, face, distance. *)
Variable bvh_ray_cast : Vector -> Vector -> Q -> option (Vector * Vector * BMFace * Q).
Variable pointInTriangle : Vector -> Vector -> Vector -> Vector -> bool * Q * Q * Q.
Variable normalized : Vector -> Vector.
Variable uv_Area : BMFace -> Q.
Variable averageTexCoord : BMFace -> Vector -> Vector2.
Variable findMinMax : BMesh -> Vector * Vector.
Variable From_Corners :
  Vector2 -> Vector2 -> Vector2 -> Vector2 -> Vector2 -> Vector -> Vector -> option Bounds.
Variable calcUVPoint : Bounds -> Vector -> Vector.
(** [self.uv_grid.trace_point_uv(uv)]: [None] when [intersect] is false. *)
Variable trace_point_uv : Vector2 -> option (Vector * BMFace).
(** [self.uv_grid.trace_close_uv(uv)]: distance, face (or [None]) and
    barycentric weights; the edge of the result is not used. *)
Variable trace_close_uv : Vector2 -> Q * option BMFace * Vector.
Variable averageCo : BMFace -> Vector -> Vector.
Variable averageNorm : BMFace -> Vector -> Vector.
Variable sign : Q -> Q.
Variable axisAlignRotationMatrix : Matrix -> Matrix.
Variable createBmesh : ProjObject -> Matrix -> Vector -> BMesh.

Definition getCameraAxis (target_co : Vector) : Vector :=
  if ortho self then vneg (col2 (cameraAxis self))
  else normalized (vsub target_co (cameraPos self)).

Definition ray_cast_target (origin : Vector) : option (BMFace * Q * Vector) :=
  match bvh_ray_cast origin (getCameraAxis origin) 10000 with
  | None => None
  | Some (loc, nor, face, dist) =>
      match pointInTriangle loc (mco (fv0 face)) (mco (fv1 face)) (mco (fv2 face)) with
      | (valid, u, v, w) =>
          if negb valid then None else Some (face, dist, mkVector u v w)
      end
  end.

(** [pow(0.5, x)] *)
Definition half_pow (x : nat) : Q := Qpower (1 # 2) (Z.of_nat x).

(** The body of the loop of [traceUVTarget] for one value of [x]:
    the position traced, and the result when the trace is accepted. *)
Definition trace_pos (corner centerPos : Vector) (x : nat) : Vector :=
  vadd (vmul (vsub corner centerPos) (half_pow x)) centerPos.

Definition trace_attempt (corner centerPos : Vector) (centerTex : Vector2)
           (x : nat) : option Vector2 :=
  let mult := half_pow x in
  match ray_cast_target (trace_pos corner centerPos x) with
  | Some (face, dist, uvw) =>
      if Qgtb (uv_Area face) 0 then
        let tex := averageTexCoord face uvw in
        Some (v2add (v2div (v2sub tex centerTex) mult) centerTex)
      else None
  | None => None
  end.

Fixpoint traceUVTarget_range (xs : list nat) (corner centerPos : Vector)
         (centerTex : Vector2) : option Vector2 :=
  match xs with
  | [] => None
  | x :: xs' =>
      match trace_attempt corner centerPos centerTex x with
      | Some r => Some r
      | None => traceUVTarget_range xs' corner centerPos centerTex
      end
  end.

Definition traceUVTarget (corner centerPos : Vector) (centerTex : Vector2)
  : option Vector2 :=
  traceUVTarget_range (seq 0 5) corner centerPos centerTex.

(** The loop of [calculateBounds] over the corners: the traced corners, or
    [None] at the first corner that cannot be traced. *)
Fixpoint trace_corners (corners : list Vector) (meshPos : Vector)
         (centerTex : Vector2) : option (list Vector2) :=
  match corners with
  | [] => Some []
  | c :: rest =>
      match traceUVTarget c meshPos centerTex with
      | None => None
      | Some uv =>
          match trace_corners rest meshPos centerTex with
          | None => None
          | Some uvs => Some (uv :: uvs)
          end
      end
  end.

Definition mesh_corners (vMin vMax : Vector) (alignedAxis : Matrix)
           (meshPos : Vector) : list Vector :=
  [ vadd (vadd (vscale (vx vMin) (col0 alignedAxis))
               (vscale (vy vMax) (col1 alignedAxis))) meshPos;
    vadd (vadd (vscale (vx vMax) (col0 alignedAxis))
               (vscale (vy vMax) (col1 alignedAxis))) meshPos;
    vadd (vadd (vscale (vx vMax) (col0 alignedAxis))
               (vscale (vy vMin) (col1 alignedAxis))) meshPos;
    vadd (vadd (vscale (vx vMin) (col0 alignedAxis))
               (vscale (vy vMin) (col1 alignedAxis))) meshPos ].

Definition calculateBounds (mesh : BMesh) (alignedAxis : Matrix)
           (meshPos : Vector) (meshName : string)
  : option Bounds * list ProjReport :=
  let '(vMin, vMax) := findMinMax mesh in
  let corners := mesh_corners vMin vMax alignedAxis meshPos in
  match ray_cast_target meshPos with
  | None => (None, [WARNING_center_not_projected meshName])
  | Some (cFace, dist, uvw) =>
      let centerTex := averageTexCoord cFace uvw in
      match trace_corners corners meshPos centerTex with
      | None => (None, [WARNING_corner_not_projected meshName])
      | Some [c0; c1; c2; c3] =>
          match From_Corners c0 c1 c2 c3 centerTex vMin vMax with
          | None => (None, [WARNING_target_area_zero meshName])
          | Some bound => (Some bound, [])
          end
      | Some _ => (None, [])
      end
  end.

Record SourceMeshData : Type := mkSourceMeshData {
  bmeshSource : BMesh;
  bounds : Bounds;
  smd_ob_name : string
}.

(** The orientation basis chosen by [createSourceBmesh]: the rotation
  applied to the mesh and the axes used for its bounds. *)
Definition source_orientation (object : ProjObject) : Matrix * Matrix :=
let meshRot := po_rot object in
match Setting.proj_type cfg with
| Some ZISUP => (Identity, zUpFindAxis sign meshRot (cameraAxis self))
| Some CAMERA => (mat_mul (cameraRotInv self) meshRot, cameraAxis self)
| _ =>
    let rot := axisAlignRotationMatrix (mat_mul (cameraRotInv self) meshRot) in
    (rot, mat_mul meshRot (transposed rot))
end.

Definition createSourceBmesh (object : ProjObject)
: option SourceMeshData * list ProjReport :=
let rot := fst (source_orientation object) in
let axis := snd (source_orientation object) in
let bmesh := createBmesh object rot (po_sca object) in
match calculateBounds bmesh axis (po_location object) (po_name object) with
| (None, reports) => (None, reports)
| (Some bounds, reports) =>
    (Some (mkSourceMeshData bmesh bounds (po_name object)), reports)
end.

Fixpoint generateSourceData (ob_list : list ProjObject)
  : list SourceMeshData * list ProjReport :=
  match ob_list with
  | [] => ([], [])
  | ob :: rest =>
      let '(meshList, reports) := generateSourceData rest in
      if po_is_mesh ob && negb (String.eqb (po_name ob) (target_ob self)) then
        match createSourceBmesh ob with
        | (Some data, r) => (data :: meshList, r ++ reports)
        | (None, r) => (meshList, r ++ reports)
        end
      else (meshList, reports)
  end.

(** [projectVert]: the new position of the vertex (if it is assigned), its
    selection flag and the pair returned. *)
Definition projectVert (vertSource_co : Vector) (bounds : Bounds)
  : option Vector * bool * (bool * bool) :=
  let uv := calcUVPoint bounds vertSource_co in
  match trace_point_uv (mkVector2 (vx uv) (vy uv)) with
  | Some (uvw, face) =>
      (Some (calcVertProjPoint cfg averageCo averageNorm face uvw
               (vz uv * vz (Setting.scalar cfg))),
       false, (true, true))
  | None =>
      match trace_close_uv (mkVector2 (vx uv) (vy uv)) with
      | (dist, None, uvw) => (None, true, (false, false))
      | (dist, Some face, uvw) =>
          (Some (calcVertProjPointClamp cfg averageCo averageNorm face uvw
                   (vz uv * vz (Setting.scalar cfg))),
           true, (true, false))
      end
  end.
End Projection.

(** ** projectMeshData *)

(** A vertex of the working mesh [meshData.bmesh]: position and selection
    flag. *)
Record PVert : Type := mkPVert { pco : Vector; pselect : bool }.

Inductive ProjectReport : Type :=
| WARNING_selected (meshName : string) (n : Z)
| WARNING_failed (meshName : string) (n : Z)
| WARNING_not_projected (meshName : string).

Section ProjectMesh.
Variable cfg : Setting.t.
Variable Bounds : Type.
Variable calcUVPoint : Bounds -> Vector -> Vector.
Variable trace_point_uv : Vector2 -> option (Vector * BMFace).
Variable trace_close_uv : Vector2 -> Q * option BMFace * Vector.
Variable averageCo : BMFace -> Vector -> Vector.
Variable averageNorm : BMFace -> Vector -> Vector.
(** The methods of [Bounds] that [projectMeshData] calls on its copy. *)
Variable ensureMeshRatio : Bounds -> Bounds.
Variable bmove : Bounds -> Vector2 -> Bounds.
Variable brotate : Bounds -> Q -> Bounds.
Variable bscale : Bounds -> Vector2 -> Bounds.

(** A [SourceMeshData] as [projectMeshData] reads it: the positions of
    [bmeshSource.verts], the vertices of the working copy [bmesh], the
    bounds and the name of the object. *)
Record MeshData : Type := mkMeshData {
  source_cos : list Vector;
  work_verts : list PVert;
  md_bounds : option Bounds;
  md_ob_name : string
}.

(** [bounds.copy()] followed by the transformations of the settings. *)
Definition transformed_bounds (b : Bounds) : Bounds :=
  let bounds := b in
  let bounds := if Setting.keepRelative cfg then ensureMeshRatio bounds else bounds in
  let bounds := bmove bounds (Setting.moveXY cfg) in
  let bounds := brotate bounds (Setting.rotation cfg) in
  bscale bounds (mkVector2 (vx (Setting.scalar cfg)) (vy (Setting.scalar cfg))).

(** What [projectVert] does to [vert]. *)
Definition projectVert_update (vert : PVert) (vertSource_co : Vector)
           (bounds : Bounds) : PVert * (bool * bool) :=
  match projectVert cfg Bounds calcUVPoint trace_point_uv trace_close_uv
                    averageCo averageNorm vertSource_co bounds with
  | (Some c, sel, r) => (mkPVert c sel, r)
  | (None, sel, r) => (mkPVert (pco vert) sel, r)
  end.

(** [for vert in bmesh.verts], with the counters [i], [count_success] and
    [count_partial]. *)
Fixpoint project_verts (bounds : Bounds) (verts : list PVert)
         (source : list Vector) (i : nat) (count_success count_partial : Z)
  : outcome (list PVert * Z * Z) :=
  match verts with
  | [] => Ok ([], count_success, count_partial)
  | vert :: rest =>
      match source !! i with
      | None => Raise IndexError
      | Some s =>
          let '(vert', (success, partial_success)) :=
            projectVert_update vert s bounds in
          let count_partial := (count_partial + Z.b2z partial_success)%Z in
          let count_success := (count_success + Z.b2z success)%Z in
          let? r := project_verts bounds rest source (S i)
                                  count_success count_partial in
          Ok (vert' :: fst (fst r), snd (fst r), snd r)
      end
  end.

(** The body of the loop over [self.meshList] for a mesh with bounds: the
    updated mesh data, the meshes assigned by [setNamedMesh] and the
    warnings. *)
Definition project_mesh (meshData : MeshData) (b : Bounds)
  : outcome (MeshData * list (string * list PVert) * list ProjectReport) :=
  let bounds := transformed_bounds b in
  let? r := project_verts bounds (work_verts meshData) (source_cos meshData)
                          0 0 0 in
  let bmesh := fst (fst r) in
  let count_success := snd (fst r) in
  let count_partial := snd r in
  let meshData' := mkMeshData (source_cos meshData) bmesh (md_bounds meshData)
                              (md_ob_name meshData) in
  if (0 <? count_success)%Z then
    let blen := Z.of_nat (length bmesh) in
    Ok (meshData', [(md_ob_name meshData, bmesh)],
        (if negb (blen - count_partial =? 0)%Z
         then [WARNING_selected (md_ob_name meshData) (blen - count_partial)]
         else []) ++
        (if negb (blen - count_success =? 0)%Z
         then [WARNING_failed (md_ob_name meshData) (blen - count_success)]
         else []))
  else
    Ok (meshData', [], [WARNING_not_projected (md_ob_name meshData)]).

(** [projectMeshData]: the value returned ([0] or [None]), the meshes
    assigned to objects, the warnings and [self.meshList] afterwards. *)
Fixpoint projectMeshData (meshList : list MeshData)
  : outcome (option Z * list (string * list PVert) * list ProjectReport
             * list MeshData) :=
  match meshList with
  | [] => Ok (None, [], [], [])
  | meshData :: rest =>
      match md_bounds meshData with
      | None => Ok (Some 0%Z, [], [], meshData :: rest)
      | Some b =>
          let? r := project_mesh meshData b in
          let? r' := projectMeshData rest in
          Ok (fst (fst (fst r')), snd (fst r) ++ snd (fst (fst r')),
              snd r ++ snd (fst r'), fst (fst r) :: snd r')
      end
  end.
End ProjectMesh.

(** * Quantities named for the statements *)

(** The signed distance [t] of [triIntersection] and [findDistance]. *)
Definition plane_t (vertCo : Vector) (mTri : BMFace) : Q :=
  dot (fnormal mTri) (vsub vertCo (mco (fv0 mTri))).

(** The divisor [mTri.normal.dot(v.normal)] of a corner. *)
Definition corner_dot (mTri : BMFace) (v : MVert) : Q :=
  dot (fnormal mTri) (mnormal v).

(** The point [t / mTri.normal.dot(v.normal) * v.normal + v.co]. *)
Definition offset_point (t : Q) (mTri : BMFace) (v : MVert) : Vector :=
  vadd (vscale (t / corner_dot mTri v) (mnormal v)) (mco v).

(** The divisor [d00 * d11 - d01 * d01] of [invDenom]. *)
Definition gram (p0 p1 p2 : Vector) : Q :=
  dot (vsub p1 p0) (vsub p1 p0) * dot (vsub p2 p0) (vsub p2 p0)
  - dot (vsub p1 p0) (vsub p2 p0) * dot (vsub p1 p0) (vsub p2 p0).

(** The weights [v], [w] and [u] of [triIntersection], from the offset
    points and the inverted divisor. *)
Definition bary_v (vertCo p0 p1 p2 : Vector) (invDenom : Q) : Q :=
  (dot (vsub p2 p0) (vsub p2 p0) * dot (vsub vertCo p0) (vsub p1 p0)
   - dot (vsub p1 p0) (vsub p2 p0) * dot (vsub vertCo p0) (vsub p2 p0))
  * invDenom.
Definition bary_w (vertCo p0 p1 p2 : Vector) (invDenom : Q) : Q :=
  (dot (vsub p1 p0) (vsub p1 p0) * dot (vsub vertCo p0) (vsub p2 p0)
   - dot (vsub p1 p0) (vsub p2 p0) * dot (vsub vertCo p0) (vsub p1 p0))
  * invDenom.
Definition bary_u (vertCo p0 p1 p2 : Vector) (invDenom : Q) : Q :=
  1 - bary_v vertCo p0 p1 p2 invDenom - bary_w vertCo p0 p1 p2 invDenom.

(** A face of zero area: the cross product of two of its sides vanishes. *)
Definition zero_area (mTri : BMFace) : Prop :=
  veq (cross (vsub (mco (fv1 mTri)) (mco (fv0 mTri)))
             (vsub (mco (fv2 mTri)) (mco (fv0 mTri))))
      (mkVector 0 0 0).

(** The "no intersection" results of [triIntersection]: [None], or a record
    that is not intersected. *)
Definition no_intersection (r : outcome (option MirrorData)) : Prop :=
  r = Ok None \/ exists md, r = Ok (Some md) /\ _intersected md = false.

(** [closest_of cfg co l cur]: [cur] is the record the seed search retains
    for a vertex at [co] after the faces [l], enumerated in order.  With no
    record, no face of [l] gives a valid intersection; a record [best] comes
    from the face at some position [k], is valid, has a distance no larger
    than that of any valid intersection, and strictly smaller than that of
    every valid intersection enumerated before [k]. *)
Definition closest_of (cfg : MirrorStatics) (co : Vector) (l : list BMFace)
           (cur : option MirrorData) : Prop :=
  match cur with
  | None =>
      forall tri md, tri ∈ l -> triIntersection cfg co tri = Ok (Some md) ->
                     _intersected md = false
  | Some best =>
      exists k tri,
        l !! k = Some tri /\
        triIntersection cfg co tri = Ok (Some best) /\
        _intersected best = true /\
        forall j tri' md',
          l !! j = Some tri' ->
          triIntersection cfg co tri' = Ok (Some md') ->
          _intersected md' = true ->
          _t best <= _t md' /\ ((j < k)%nat -> _t best < _t md')
  end.

(** The number of faces whose tag is [False]. *)
Fixpoint count_false (l : list bool) : nat :=
  match l with
  | [] => 0
  | b :: l' => (if b then 0 else 1) + count_false l'
  end.

(** Every face whose tag is [True] is in the list of tagged faces. *)
Definition tags_listed (tags : list bool) (tagList : list BMFace) : Prop :=
  forall k, tags !! k = Some true -> exists f, f ∈ tagList /\ findex f = k.

(** Which vertices have a record ([mirrored]), and how many edges each
    vertex has. *)
Definition flags (st : State) : list bool := mirrored <$> searchData st.
Definition degs (st : State) : list nat :=
  (fun v => length (link_edges v)) <$> verts st.

(** Flags only go from [False] to [True]. *)
Definition flags_mono (f f' : list bool) : Prop :=
  length f' = length f /\ forall i, f !! i = Some true -> f' !! i = Some true.

(** The edges of the vertices that have no record yet: a bound on what the
    queue of [mirrorConnected] can still receive. *)
Fixpoint potential (ds : list nat) (fs : list bool) : nat :=
  match ds, fs with
  | d :: ds', f :: fs' => (if f then 0 else d) + potential ds' fs'
  | _, _ => 0
  end.

(** The invariant of the engine between two steps: no face is tagged, no
    vertex occurs twice in the trace of [mirrorVert], and every vertex in
    the trace has a record. *)
Definition engine_inv (st : State) : Prop :=
  Forall (fun b => b = false) (tag st) /\
  NoDup (mirrorLog st) /\
  forall i, i ∈ mirrorLog st -> flags st !! i = Some true.

(** What a step of the engine may change. *)
Definition evolves (st st' : State) : Prop :=
  degs st' = degs st /\ tag st' = tag st /\ flags_mono (flags st) (flags st') /\
  exists l, mirrorLog st' = l ++ mirrorLog st.

(** What a search for vertex [i] may change: at most the record of [i],
    which it may set. *)
Definition search_step (i : nat) (st st' : State) : Prop :=
  verts st' = verts st /\ tag st' = tag st /\ mirrorLog st' = mirrorLog st /\
  (flags st' = flags st \/ flags st' = <[i:=true]> (flags st)).

(** [wp total m Q st]: the run of [m] from [st] satisfies [Q] when it
    returns.  A raised exception is accepted; running out of fuel is
    accepted only when [total] is false. *)
Definition wp {A} (total : bool) (m : M A) (Q : A -> State -> Prop) (st : State)
  : Prop :=
  match m st with
  | Ok (a, st') => Q a st'
  | Raise _ => True
  | OutOfFuel => total = false
  end.

(** The point with weights [u], [v], [w] over three points. *)
Definition bary_point (u v w : Q) (p0 p1 p2 : Vector) : Vector :=
  vadd (vadd (vscale u p0) (vscale v p1)) (vscale w p2).

(** The residual of the weighted combination of two sides. *)
Definition residual (x a b : Vector) (v w : Q) : Vector :=
  vsub x (vadd (vscale v a) (vscale w b)).

(** The records of the vertices. *)
Definition records (st : State) : list (option MirrorData) :=
  _mirrorData <$> searchData st.

(** The vector [mirrorVert] adds for a record: the engine forces the flat
    vector exactly for the records that are not intersected. *)
Definition mirror_vector (cfg : MirrorStatics) (md : MirrorData) : outcome Vector :=
  if negb (smoothed cfg) || negb (_intersected md)
  then Ok (calcFlatMirrorVector md)
  else calcSmoothMirrorVector md.

(** Where a record for a vertex at [c] comes from: its face is a face of the
    mirror mesh, and it is either the intersected result of [triIntersection]
    at [c], or the plane record of [findDistance], which needs
    [onlyIntersecting] to be off. *)
Definition record_of (cfg : MirrorStatics) (faces : list BMFace) (c : Vector)
           (md : MirrorData) : Prop :=
  _mirrorTri md ∈ faces /\
  if _intersected md
  then triIntersection cfg c (_mirrorTri md) = Ok (Some md)
  else onlyIntersecting cfg = false /\
       md = MirrorData_default (_mirrorTri md) false (plane_t c (_mirrorTri md)).

(** A vertex with record [md] has been moved once, by the mirror vector of
    the record. *)
Definition moved (cfg : MirrorStatics) (v : BMVert) (md : MirrorData)
           (v' : BMVert) : Prop :=
  exists mVec, mirror_vector cfg md = Ok mVec /\
               v' = mkVert (vadd (co v) mVec) (link_edges v).

(** The state of vertex [i] with respect to the vertices [vs0] at the start:
    without a record it is where it was; with a record it has been moved by
    it ([vertex_ok]) or is about to be ([vertex_pending]). *)
Definition vertex_ok (cfg : MirrorStatics) (faces : list BMFace)
           (vs0 : list BMVert) (st : State) (i : nat) : Prop :=
  match records st !! i with
  | Some None => verts st !! i = vs0 !! i
  | Some (Some md) =>
      exists v v', vs0 !! i = Some v /\ verts st !! i = Some v' /\
                   record_of cfg faces (co v) md /\ moved cfg v md v'
  | None => True
  end.

Definition vertex_pending (cfg : MirrorStatics) (faces : list BMFace)
           (vs0 : list BMVert) (st : State) (i : nat) (md : MirrorData) : Prop :=
  records st !! i = Some (Some md) /\
  exists v, vs0 !! i = Some v /\ verts st !! i = Some v /\
            record_of cfg faces (co v) md.

Definition mesh_inv (cfg : MirrorStatics) (faces : list BMFace)
           (vs0 : list BMVert) (st : State) : Prop :=
  length (records st) = length vs0 /\
  forall i, vertex_ok cfg faces vs0 st i.

Definition mesh_pending (cfg : MirrorStatics) (faces : list BMFace)
           (vs0 : list BMVert) (st : State) (i : nat) (md : MirrorData) : Prop :=
  length (records st) = length vs0 /\
  vertex_pending cfg faces vs0 st i md /\
  forall j, j <> i -> vertex_ok cfg faces vs0 st j.

(** What a search for vertex [i] may write: nothing, or an intersected
    record computed at the position of the vertex. *)
Definition found_at (cfg : MirrorStatics) (faces : list BMFace) (i : nat)
           (st st' : State) : Prop :=
  verts st' = verts st /\
  (records st' = records st \/
   exists v md,
     verts st !! i = Some v /\
     records st' = <[i:=Some md]> (records st) /\
     _intersected md = true /\ _mirrorTri md ∈ faces /\
     triIntersection cfg (co v) (_mirrorTri md) = Ok (Some md)).

(** The selected objects [execute] mirrors: the meshes other than the
    active object. *)
Definition eligible (ob_act ob : Object) : bool :=
  ob_is_mesh ob && negb (ob_id ob =? ob_id ob_act)%nat.

(** The number of elements of a list that satisfy a test. *)
Definition count_if {A} (f : A -> bool) (l : list A) : nat :=
  length (filter (fun x => f x = true) l).

(** The number of selected vertices of a working mesh. *)
Definition count_selected (vs : list PVert) : nat := count_if pselect vs.

Section ProjectMeshQuantities.
Variable cfg : Setting.t.
Variable Bounds : Type.
Variable calcUVPoint : Bounds -> Vector -> Vector.
Variable trace_point_uv : Vector2 -> option (Vector * BMFace).
Variable trace_close_uv : Vector2 -> Q * option BMFace * Vector.
Variable averageCo : BMFace -> Vector -> Vector.
Variable averageNorm : BMFace -> Vector -> Vector.

(** The two flags [projectVert] returns for a source position, and the
    position it assigns. *)
Definition vert_success (bounds : Bounds) (s : Vector) : bool :=
  fst (snd (projectVert cfg Bounds calcUVPoint trace_point_uv trace_close_uv
                        averageCo averageNorm s bounds)).
Definition vert_partial (bounds : Bounds) (s : Vector) : bool :=
  snd (snd (projectVert cfg Bounds calcUVPoint trace_point_uv trace_close_uv
                        averageCo averageNorm s bounds)).
Definition vert_target (bounds : Bounds) (s : Vector) : option Vector :=
  fst (fst (projectVert cfg Bounds calcUVPoint trace_point_uv trace_close_uv
                        averageCo averageNorm s bounds)).

(** The working mesh after the loop over its vertices: a vertex with a
    target is moved there, a vertex without one stays; a vertex is selected
    unless it was projected directly. *)
Definition projected_vert (bounds : Bounds) (v : PVert) (s : Vector) : PVert :=
  mkPVert (match vert_target bounds s with Some c => c | None => pco v end)
          (negb (vert_partial bounds s)).
Definition projected_verts (bounds : Bounds) (verts : list PVert)
           (source : list Vector) : list PVert :=
  zip_with (projected_vert bounds) verts source.
End ProjectMeshQuantities.

Definition v2scale (k : Q) (a : Vector2) : Vector2 := mkVector2 (k * ux a) (k * uy a).

(** The objects [generateSourceData] prepares: the meshes other than the
    target. *)
Definition is_source (self : ProjectionData) (ob : ProjObject) : bool :=
  po_is_mesh ob && negb (String.eqb (po_name ob) (target_ob self)).

(** What [queueConnectedVerts] does to the data of a neighbour at distance
    [distance] of vertex [i]: an unmirrored neighbour that is closer than
    its recorded distance takes [i] as its closest mirrored vertex. *)
Definition closer (i : nat) (distance : Q) (data : SearchData) : SearchData :=
  if notMirrored data && Qltb distance (_closeDistance data)
  then mkSearchData distance (Some i) (_mirrorData data)
  else data.

(** Whether vertex [c] has no record in [st]. *)
Definition unmirrored (st : State) (c : nat) : bool :=
  match searchData st !! c with
  | Some data => notMirrored data
  | None => false
  end.

(** The edges of the mesh, as the neighbours of each vertex. *)
Definition edges (st : State) : list (list nat) := link_edges <$> verts st.

(** [closed E queue st]: every neighbour without a record of a vertex with
    a record is in [queue], the vertices of [E] excepted, whose neighbours
    have not been looked at yet. *)
Definition closed (E : nat -> Prop) (queue : list nat) (st : State) : Prop :=
  forall a es b,
    flags st !! a = Some true -> ~ E a -> edges st !! a = Some es -> b ∈ es ->
    flags st !! b = Some false -> b ∈ queue.

(** [safe m Q st]: the run of [m] from [st] satisfies [Q] when it returns,
    and raises nothing but [ZeroDivisionError]. *)
Definition safe {A} (m : M A) (Q : A -> State -> Prop) (st : State) : Prop :=
  match m st with
  | Ok (a, st') => Q a st'
  | Raise e => e = ZeroDivisionError
  | OutOfFuel => True
  end.

(** The mirror mesh is well formed for [ntags] tags: every face has a tag
    and the faces linked to its edges exist. *)
Definition faces_wf (faces : list BMFace) (ntags : nat) : Prop :=
  Forall (fun f => (findex f < ntags)%nat /\
                   Forall (Forall (fun j => (j < length faces)%nat)) (fedges f))
         faces.

(** The edges of a mesh of [n] vertices lead to vertices of the mesh. *)
Definition edges_wf (n : nat) (es : list (list nat)) : Prop :=
  length es = n /\ Forall (Forall (fun c => (c < n)%nat)) es.

(** The data of the vertices between two steps of the engine: one entry
    per vertex; every record is for a face of the mirror mesh; a closest
    vertex, once set, has a record, and until it is set the recorded
    distance is at least [largeFloat]. *)
Definition sound (faces : list BMFace) (n ntags : nat) (st : State) : Prop :=
  length (searchData st) = n /\ length (tag st) = ntags /\
  edges_wf n (edges st) /\
  (forall c d md, searchData st !! c = Some d -> _mirrorData d = Some md ->
                  _mirrorTri md ∈ faces) /\
  (forall c d, searchData st !! c = Some d ->
               match _closeVert d with
               | Some k => flags st !! k = Some true
               | None => largeFloat <= _closeDistance d
               end).

(** The vertices of the queue are vertices of the mesh, and those without
    a record have a closest vertex. *)
Definition queue_ok (n : nat) (queue : list nat) (st : State) : Prop :=
  Forall (fun c => (c < n)%nat /\
                   forall d, searchData st !! c = Some d -> notMirrored d = true ->
                             _closeVert d <> None) queue.

(** What the searches and the move of a vertex change between [st] and
    [st']: tags, by value; positions, but no edge; and the record of a
    vertex, which is kept or replaced by a record for a face of the mirror
    mesh.  The closest vertex and its distance are kept. *)
Definition record_step (faces : list BMFace) (st st' : State) : Prop :=
  edges st' = edges st /\ length (tag st') = length (tag st) /\
  length (searchData st') = length (searchData st) /\
  forall c d', searchData st' !! c = Some d' ->
    exists d, searchData st !! c = Some d /\
              _closeVert d' = _closeVert d /\
              _closeDistance d' = _closeDistance d /\
              (_mirrorData d' = _mirrorData d \/
               exists md, _mirrorData d' = Some md /\ _mirrorTri md ∈ faces).

(** * Example data *)

Definition zAxis : Vector := mkVector 0 0 1.

(** A flat triangle in the plane z = 0, all normals (0,0,1). *)
Definition flat_tri (k : nat) (a b c : Vector) (edges : list (list nat)) : BMFace :=
  mkFace k zAxis (mkMVert a zAxis) (mkMVert b zAxis) (mkMVert c zAxis) edges.

Definition tri_a : BMFace :=
  flat_tri 0 (mkVector 0 0 0) (mkVector 4 0 0) (mkVector 0 4 0) [[0%nat]; [0%nat]; [0%nat]].

(** A face whose three corners coincide; its normal is the zero vector. *)
Definition tri_degenerate : BMFace :=
  mkFace 0 (mkVector 0 0 0)
         (mkMVert (mkVector 1 1 0) zAxis) (mkMVert (mkVector 1 1 0) zAxis)
         (mkMVert (mkVector 1 1 0) zAxis) [[0%nat]; [0%nat]; [0%nat]].

(** The class attributes of [MirrorMesh] as the source initialises them,
    the default values of the operator's properties, and the statics that
    [execute] derives from them. *)
Definition statics_class : MirrorStatics :=
  mkStatics (1 # 10000) (1 + (1 # 10000)) (- (1 # 10000)) true true false true.
Definition props_default : MirrorProps :=
  mkProps true false true false (1 # 10000).
Definition statics_default : MirrorStatics :=
  set_statics props_default statics_class.

(** Flat mirroring, no culling. *)
Definition statics_flat : MirrorStatics :=
  mkStatics (1 # 10000) (1 + (1 # 10000)) (- (1 # 10000)) false false false true.

(** Three faces below the vertex (1,1,1): the first in the plane z = -1,
    the second and third both in the plane z = 0, all containing (1,1). *)
Definition seed_faces : list BMFace :=
  [ flat_tri 0 (mkVector 0 0 (-1)) (mkVector 4 0 (-1)) (mkVector 0 4 (-1))
             [[0%nat]; [0%nat]; [0%nat]];
    flat_tri 1 (mkVector 0 0 0) (mkVector 4 0 0) (mkVector 0 4 0)
             [[1%nat; 2%nat]; [1%nat]; [1%nat]];
    flat_tri 2 (mkVector 0 0 0) (mkVector 8 0 0) (mkVector 0 8 0)
             [[2%nat; 1%nat]; [2%nat]; [2%nat]] ].

Definition seed_state : State :=
  mkState [mkVert (mkVector 1 1 1) []] [SearchData_init] [false; false; false] [].

(** Three separate flat triangles; the edges of the first are linked to the
    second and to the third.  The vertex (11,1,1) lies over the second. *)
Definition strip_faces : list BMFace :=
  [ flat_tri 0 (mkVector 0 0 0) (mkVector 4 0 0) (mkVector 0 4 0)
             [[0%nat; 1%nat]; [0%nat; 2%nat]; [0%nat]];
    flat_tri 1 (mkVector 10 0 0) (mkVector 14 0 0) (mkVector 10 4 0)
             [[1%nat; 0%nat]; [1%nat]; [1%nat]];
    flat_tri 2 (mkVector 20 0 0) (mkVector 24 0 0) (mkVector 20 4 0)
             [[2%nat; 0%nat]; [2%nat]; [2%nat]] ].

Definition strip_state : State :=
  mkState [mkVert (mkVector 11 1 1) []] [SearchData_init] [false; false; false] [].

(** A model of [Vector.length]: the integer square root of the squared
    length, exact when the squared length is the square of a rational. *)
Definition Qsqrt_floor (q : Q) : Q :=
  Z.sqrt (Qnum q * Zpos (Qden q)) # Qden q.
Definition vlength_model (v : Vector) : Q := Qsqrt_floor (dot v v).

(** Closest-only mirroring that also mirrors vertices without an
    intersection (flat, no culling): the setting of the sweep. *)
Definition statics_sweep : MirrorStatics :=
  mkStatics (1 # 10000) (1 + (1 # 10000)) (- (1 # 10000)) false false true false.

(** Propagating flat mirroring that also mirrors vertices without an
    intersection. *)
Definition statics_propagate : MirrorStatics :=
  mkStatics (1 # 10000) (1 + (1 # 10000)) (- (1 # 10000)) false false false false.

(** Two vertices joined by an edge: (1,1,1) lies over [tri_a], (4,5,-1)
    lies under its plane and outside of it. *)
Definition pair_verts : list BMVert :=
  [mkVert (mkVector 1 1 1) [1%nat]; mkVert (mkVector 4 5 (-1)) [0%nat]].
Definition pair_state : State := mkState pair_verts [] [false] [].
Definition pair_object : Object :=
  mkObject 1 "ob" true pair_verts [] [] (fun v => v).

(** A ring of three vertices, each joined to the other two; only the first
    lies over [tri_a]. *)
Definition ring_state : State :=
  mkState [mkVert (mkVector 1 1 1) [1%nat; 2%nat];
           mkVert (mkVector 4 5 (-1)) [0%nat; 2%nat];
           mkVert (mkVector 1 11 (-1)) [1%nat; 0%nat]] [] [false] [].

(** A host for [traceUVTarget]: rays hit the face [tri_a] only from
    origins with x <= 1; the hit location is reported as the barycentric
    weights and its first two components as the texture coordinate. *)
Definition demo_self : ProjectionData :=
  mkProjectionData "target" Identity Identity (mkVector 0 0 10) true.
Definition demo_ray_cast (origin direction : Vector) (maxDist : Q)
  : option (Vector * Vector * BMFace * Q) :=
  if Qle_bool (vx origin) 1 then Some (origin, zAxis, tri_a, 1) else None.
Definition demo_pointInTriangle (p a b c : Vector) : bool * Q * Q * Q :=
  (true, vx p, vy p, vz p).
Definition demo_uv_Area (face : BMFace) : Q := 1.
Definition demo_averageTexCoord (face : BMFace) (uvw : Vector) : Vector2 :=
  mkVector2 (vx uvw) (vy uvw).
Definition demo_trace (corner : Vector) : option Vector2 :=
  traceUVTarget demo_self demo_ray_cast demo_pointInTriangle (fun v => v)
                demo_uv_Area demo_averageTexCoord corner (mkVector 0 0 0)
                (mkVector2 0 0).

(** Projection settings with the given [smooth] flag and no depth offset. *)
Definition setting_with (smooth : bool) : Setting.t :=
  Setting.mk (1 # 100000) smooth (mkVector 1 1 1) (mkVector2 0 0) 0 0 None false (1 # 4).

(** The barycentric weights of a point of the triangle: each in [0,1],
    summing to one. *)
Definition convex_weights (w : Vector) : Prop :=
  0 <= vx w <= 1 /\ 0 <= vy w <= 1 /\ 0 <= vz w <= 1 /\ vx w + vy w + vz w == 1.

Definition clamp3 (uvw : Vector) : Vector :=
  mkVector (clamp (vx uvw)) (clamp (vy uvw)) (clamp (vz uvw)).

(** A triangle in the plane z = 0 whose corner normals fan out. *)
Definition tri_fan : BMFace :=
  mkFace 0 zAxis (mkMVert (mkVector 0 0 0) zAxis)
         (mkMVert (mkVector 4 0 0) (mkVector 1 0 1))
         (mkMVert (mkVector 0 4 0) (mkVector 0 1 1))
         [[0%nat]; [0%nat]; [0%nat]].

(** A mirror object whose triangulated mesh is [tri_a]. *)
Definition mirror_object : Object :=
  mkObject 0 "mirror" true [] [] [tri_a] (fun v => v).

(** A host for [projectMeshData]: bounds are an offset along x; a point is
    traced directly for x in [0,1], to the closest face for x <= 2, and not
    at all beyond. *)
Definition demo_calcUVPoint (b : Q) (v : Vector) : Vector :=
  mkVector (vx v + b) (vy v) (vz v).
Definition demo_trace_point (uv : Vector2) : option (Vector * BMFace) :=
  if Qle_bool 0 (ux uv) && Qle_bool (ux uv) 1
  then Some (mkVector 1 0 0, tri_a) else None.
Definition demo_trace_close (uv : Vector2) : Q * option BMFace * Vector :=
  if Qle_bool (ux uv) 2 then (1, Some tri_a, mkVector (ux uv) 0 0)
  else (0, None, mkVector 0 0 0).
Definition demo_bmove (b : Q) (m : Vector2) : Q := b + ux m.

(** A mesh of three vertices: the first is projected directly, the second
    to the closest face, the third not at all. *)
Definition demo_mesh : MeshData Q :=
  mkMeshData Q
    [mkVector (1 # 2) 0 0; mkVector (3 # 2) 0 0; mkVector 5 0 0]
    [mkPVert (mkVector (1 # 2) 0 0) false; mkPVert (mkVector (3 # 2) 0 0) false;
     mkPVert (mkVector 5 0 0) false]
    (Some 0) "mesh".
Definition demo_project_mesh :=
  project_mesh (setting_with true) Q demo_calcUVPoint demo_trace_point
               demo_trace_close averageCo_spec averageNorm_spec
               (fun b => b) demo_bmove (fun b _ => b) (fun b _ => b).
Definition demo_projectMeshData :=
  projectMeshData (setting_with true) Q demo_calcUVPoint demo_trace_point
                  demo_trace_close averageCo_spec averageNorm_spec
                  (fun b => b) demo_bmove (fun b _ => b) (fun b _ => b).

(** A model of [Vector.length] for a scene that fits in a box of 1000
    units: no length above 1000 is measured. *)
Definition vlength_scene (v : Vector) : Q := Qmin (vlength_model v) 1000.

(** * Theorems *)

(** ** Rationals *)

Lemma Qltb_lt (x y : Q) : Qltb x y = true <-> x < y.
Proof.
  unfold Qltb. rewrite negb_true_iff. split.
  - intros H. apply Qnot_le_lt. intros Hle.
    apply Qle_bool_iff in Hle. congruence.
  - intros H. destruct (Qle_bool y x) eqn:E; [|reflexivity].
    apply Qle_bool_iff in E. exfalso. apply (Qlt_not_le _ _ H E).
Qed.

Lemma Qltb_ge (x y : Q) : Qltb x y = false <-> y <= x.
Proof.
  unfold Qltb. rewrite negb_false_iff. apply Qle_bool_iff.
Qed.

Lemma fdiv_ok (a b : Q) : ~ b == 0 -> fdiv a b = Ok (a / b).
Proof.
  intros H. unfold fdiv. destruct (Qeq_bool b 0) eqn:E; [|reflexivity].
  apply Qeq_bool_iff in E. contradiction.
Qed.

Lemma fdiv_zero (a b : Q) : b == 0 -> fdiv a b = Raise ZeroDivisionError.
Proof.
  intros H. unfold fdiv. apply Qeq_bool_iff in H. now rewrite H.
Qed.

Lemma fdiv_not_fuel (a b : Q) : fdiv a b <> OutOfFuel.
Proof. unfold fdiv. destruct (Qeq_bool b 0); discriminate. Qed.

Lemma Ok_inj {A} (a b : A) : Ok a = Ok b -> a = b.
Proof. intros H. injection H. auto. Qed.

Lemma Ok_Some_inj {A} (a b : A) : Ok (Some a) = Ok (Some b) -> a = b.
Proof. intros H. injection H. auto. Qed.

(** ** triIntersection *)

Lemma triIntersection_culled cfg vertCo mTri :
  cull cfg = true -> plane_t vertCo mTri < 0 ->
  triIntersection cfg vertCo mTri = Ok None.
Proof.
  intros Hc Ht. unfold triIntersection. fold (plane_t vertCo mTri).
  apply Qltb_lt in Ht. now rewrite Hc, Ht.
Qed.

Lemma triIntersection_unfold cfg vertCo mTri :
  triIntersection cfg vertCo mTri =
  let t := plane_t vertCo mTri in
  if cull cfg && Qltb t 0 then Ok None else
  let? q0 := fdiv t (corner_dot mTri (fv0 mTri)) in
  let? q1 := fdiv t (corner_dot mTri (fv1 mTri)) in
  let? q2 := fdiv t (corner_dot mTri (fv2 mTri)) in
  let p0 := vadd (vscale q0 (mnormal (fv0 mTri))) (mco (fv0 mTri)) in
  let p1 := vadd (vscale q1 (mnormal (fv1 mTri))) (mco (fv1 mTri)) in
  let p2 := vadd (vscale q2 (mnormal (fv2 mTri))) (mco (fv2 mTri)) in
  let? invDenom := fdiv 1 (gram p0 p1 p2) in
  let u := bary_u vertCo p0 p1 p2 invDenom in
  let v := bary_v vertCo p0 p1 p2 invDenom in
  let w := bary_w vertCo p0 p1 p2 invDenom in
  Ok (Some (mkMirrorData mTri
              (Qgtb u (biasNeg cfg) && Qgtb v (biasNeg cfg) && Qgtb w (biasNeg cfg))
              t u v w)).
Proof. reflexivity. Qed.

Lemma triIntersection_t cfg vertCo mTri md :
  triIntersection cfg vertCo mTri = Ok (Some md) ->
  _t md = plane_t vertCo mTri /\ _mirrorTri md = mTri.
Proof.
  rewrite triIntersection_unfold. cbv zeta.
  destruct (cull cfg && Qltb _ 0); [discriminate|].
  destruct (fdiv _ (corner_dot mTri (fv0 mTri))); try discriminate.
  destruct (fdiv _ (corner_dot mTri (fv1 mTri))); try discriminate.
  destruct (fdiv _ (corner_dot mTri (fv2 mTri))); try discriminate.
  cbn [obind]. destruct (fdiv 1 _); try discriminate.
  cbn [obind]. intros H. apply Ok_Some_inj in H. subst md. split; reflexivity.
Qed.

Lemma triIntersection_not_fuel cfg vertCo mTri :
  triIntersection cfg vertCo mTri <> OutOfFuel.
Proof.
  rewrite triIntersection_unfold. cbv zeta.
  destruct (cull cfg && Qltb _ 0); [discriminate|].
  destruct (fdiv _ (corner_dot mTri (fv0 mTri))) eqn:E0;
    [|discriminate|now apply fdiv_not_fuel in E0].
  destruct (fdiv _ (corner_dot mTri (fv1 mTri))) eqn:E1;
    [|discriminate|now apply fdiv_not_fuel in E1].
  destruct (fdiv _ (corner_dot mTri (fv2 mTri))) eqn:E2;
    [|discriminate|now apply fdiv_not_fuel in E2].
  cbn [obind]. destruct (fdiv 1 _) eqn:E3;
    [discriminate|discriminate|now apply fdiv_not_fuel in E3].
Qed.

Lemma Qltb_zero_false (t : Q) : t == 0 -> Qltb t 0 = false.
Proof. intros H. apply Qltb_ge. rewrite H. apply Qle_refl. Qed.

Lemma not_culled cfg (t : Q) :
  ~ (cull cfg = true /\ t < 0) -> cull cfg && Qltb t 0 = false.
Proof.
  intros H. destruct (cull cfg); [|reflexivity].
  destruct (Qltb t 0) eqn:E; [|reflexivity].
  apply Qltb_lt in E. exfalso. apply H. split; [reflexivity|assumption].
Qed.

Lemma veq_zero_dot (n a : Vector) : veq n (mkVector 0 0 0) -> dot n a == 0.
Proof.
  intros (Hx & Hy & Hz). unfold dot. simpl in Hx, Hy, Hz.
  rewrite Hx, Hy, Hz. ring.
Qed.

Lemma bary_sum (vertCo p0 p1 p2 : Vector) (i : Q) :
  bary_u vertCo p0 p1 p2 i + bary_v vertCo p0 p1 p2 i + bary_w vertCo p0 p1 p2 i == 1.
Proof. unfold bary_u. ring. Qed.

(** C1, as amended.  [triIntersection] returns [None] exactly under the
    culling rule.  Otherwise it divides without a guard: when the face normal
    is orthogonal to a corner normal, or the three offset points have a
    zero Gram determinant, the call raises [ZeroDivisionError]; in
    particular it does so for a face whose normal is the zero vector.  In
    all other cases it returns a record for the face with the signed
    distance [t], weights summing to one, and the flag [_intersected] set
    exactly when the three weights exceed [biasNeg]. *)
Theorem triIntersection_outcome cfg vertCo mTri :
  let t := plane_t vertCo mTri in
  let d0 := corner_dot mTri (fv0 mTri) in
  let d1 := corner_dot mTri (fv1 mTri) in
  let d2 := corner_dot mTri (fv2 mTri) in
  let g := gram (offset_point t mTri (fv0 mTri)) (offset_point t mTri (fv1 mTri))
                (offset_point t mTri (fv2 mTri)) in
  (cull cfg = true /\ t < 0 -> triIntersection cfg vertCo mTri = Ok None) /\
  (~ (cull cfg = true /\ t < 0) ->
   d0 == 0 \/ d1 == 0 \/ d2 == 0 \/ g == 0 ->
   triIntersection cfg vertCo mTri = Raise ZeroDivisionError) /\
  (~ (cull cfg = true /\ t < 0) ->
   ~ d0 == 0 -> ~ d1 == 0 -> ~ d2 == 0 -> ~ g == 0 ->
   exists md,
     triIntersection cfg vertCo mTri = Ok (Some md) /\
     _mirrorTri md = mTri /\ _t md = t /\
     _u md + _v md + _w md == 1 /\
     (_intersected md = true <->
      biasNeg cfg < _u md /\ biasNeg cfg < _v md /\ biasNeg cfg < _w md)) /\
  (veq (fnormal mTri) (mkVector 0 0 0) ->
   triIntersection cfg vertCo mTri = Raise ZeroDivisionError).
Proof.
  intros t d0 d1 d2 g.
  assert (Hraise : ~ (cull cfg = true /\ t < 0) ->
                   d0 == 0 \/ d1 == 0 \/ d2 == 0 \/ g == 0 ->
                   triIntersection cfg vertCo mTri = Raise ZeroDivisionError).
  { intros Hn Hz. rewrite triIntersection_unfold. cbv zeta. fold t.
    rewrite (not_culled _ _ Hn). fold d0 d1 d2.
    destruct (Qeq_bool d0 0) eqn:E0.
    { apply Qeq_bool_iff in E0. now rewrite (fdiv_zero _ _ E0). }
    apply Qeq_bool_neq in E0. rewrite (fdiv_ok _ _ E0). cbn [obind].
    destruct (Qeq_bool d1 0) eqn:E1.
    { apply Qeq_bool_iff in E1. now rewrite (fdiv_zero _ _ E1). }
    apply Qeq_bool_neq in E1. rewrite (fdiv_ok _ _ E1). cbn [obind].
    destruct (Qeq_bool d2 0) eqn:E2.
    { apply Qeq_bool_iff in E2. now rewrite (fdiv_zero _ _ E2). }
    apply Qeq_bool_neq in E2. rewrite (fdiv_ok _ _ E2). cbn [obind].
    destruct Hz as [Hz|[Hz|[Hz|Hz]]]; try contradiction.
    change (gram _ _ _) with g. now rewrite (fdiv_zero _ _ Hz). }
  split; [|split; [exact Hraise|split]].
  - intros [Hc Ht]. now apply triIntersection_culled.
  - intros Hn H0 H1 H2 Hg.
    rewrite triIntersection_unfold. cbv zeta. fold t.
    rewrite (not_culled _ _ Hn). fold d0 d1 d2.
    rewrite (fdiv_ok _ _ H0), (fdiv_ok _ _ H1), (fdiv_ok _ _ H2). cbn [obind].
    change (gram _ _ _) with g. rewrite (fdiv_ok _ _ Hg). cbn [obind].
    eexists. split; [reflexivity|]. cbn [_mirrorTri _t _u _v _w _intersected].
    split; [reflexivity|]. split; [reflexivity|]. split; [apply bary_sum|].
    unfold Qgtb. rewrite !andb_true_iff, !Qltb_lt. tauto.
  - intros Hz. apply Hraise.
    + intros [_ Ht]. unfold t, plane_t in Ht.
      rewrite (veq_zero_dot _ _ Hz) in Ht. now apply Qlt_irrefl in Ht.
    + left. unfold d0, corner_dot. now apply veq_zero_dot.
Qed.

(** [calcSmoothMirrorVector] divides by the dot product of the face normal
    and the interpolated normal without a guard either. *)
Lemma calcSmoothMirrorVector_raises md :
  dot (fnormal (_mirrorTri md))
      (vadd (vadd (vmul (mnormal (fv0 (_mirrorTri md))) (_u md))
                  (vmul (mnormal (fv1 (_mirrorTri md))) (_v md)))
            (vmul (mnormal (fv2 (_mirrorTri md))) (_w md))) == 0 ->
  calcSmoothMirrorVector md = Raise ZeroDivisionError.
Proof.
  intros H. unfold calcSmoothMirrorVector. now rewrite (fdiv_zero _ _ H).
Qed.

(** C1, counterexample.  With the operator's default settings, a face whose
    corners coincide (zero area, zero normal) makes [triIntersection] raise
    [ZeroDivisionError], which is not a "no intersection" result. *)
Lemma triIntersection_degenerate_raises :
  zero_area tri_degenerate /\
  triIntersection statics_default (mkVector 1 1 1) tri_degenerate
  = Raise ZeroDivisionError /\
  ~ no_intersection (triIntersection statics_default (mkVector 1 1 1) tri_degenerate).
Proof.
  assert (E : triIntersection statics_default (mkVector 1 1 1) tri_degenerate
              = Raise ZeroDivisionError) by (vm_compute; reflexivity).
  split; [|split; [exact E|]].
  - unfold zero_area, veq. vm_compute. repeat split; reflexivity.
  - rewrite E. intros [H|(md & H & _)]; discriminate H.
Qed.

(** ** The flat mirror map *)

Lemma plane_t_flat_step (vertCo : Vector) (mTri : BMFace) (k : Q) :
  plane_t (vadd vertCo (vscale k (fnormal mTri))) mTri
  == plane_t vertCo mTri + k * dot (fnormal mTri) (fnormal mTri).
Proof. unfold plane_t, dot, vadd, vsub, vscale. simpl. ring. Qed.

(** C5.  For a face with a unit normal, a vertex for which
    [triIntersection] returned a record [md] is moved by the flat mirror
    vector [-2 t * normal] to a point whose signed distance is [-t], and the
    flat mirror vector of that point (computed from the distance alone, or
    from any record [triIntersection] returns for it) moves it back to the
    original position. *)
Theorem flat_mirror_involution cfg vertCo mTri md :
  dot (fnormal mTri) (fnormal mTri) == 1 ->
  triIntersection cfg vertCo mTri = Ok (Some md) ->
  let co1 := vadd vertCo (calcFlatMirrorVector md) in
  plane_t co1 mTri == - plane_t vertCo mTri /\
  veq (vadd co1 (calcFlatMirrorVector
                   (MirrorData_default mTri false (plane_t co1 mTri))))
      vertCo /\
  forall md', triIntersection cfg co1 mTri = Ok (Some md') ->
              veq (vadd co1 (calcFlatMirrorVector md')) vertCo.
Proof.
  intros Hunit Hmd co1.
  destruct (triIntersection_t _ _ _ _ Hmd) as [Ht Htri].
  assert (Hco1 : co1 = vadd vertCo (vscale (-2 * plane_t vertCo mTri) (fnormal mTri))).
  { unfold co1, calcFlatMirrorVector. now rewrite Ht, Htri. }
  assert (Hneg : plane_t co1 mTri == - plane_t vertCo mTri).
  { rewrite Hco1, plane_t_flat_step, Hunit. ring. }
  assert (Hback : forall t', t' == - plane_t vertCo mTri ->
                  veq (vadd co1 (vscale (-2 * t') (fnormal mTri))) vertCo).
  { intros t' Ht'. rewrite Hco1. unfold veq, vadd, vscale. simpl.
    rewrite Ht'. repeat split; ring. }
  split; [exact Hneg|]. split.
  - unfold calcFlatMirrorVector, MirrorData_default. simpl. now apply Hback.
  - intros md' Hmd'.
    destruct (triIntersection_t _ _ _ _ Hmd') as [Ht' Htri'].
    unfold calcFlatMirrorVector. rewrite Ht', Htri'. now apply Hback.
Qed.

(** The vertex (1,1,1) over the triangle [tri_a]: mirrored to (1,1,-1) and
    back. *)
Lemma flat_mirror_involution_witness :
  exists md,
    triIntersection statics_flat (mkVector 1 1 1) tri_a = Ok (Some md) /\
    let co1 := vadd (mkVector 1 1 1) (calcFlatMirrorVector md) in
    veq co1 (mkVector 1 1 (-1)) /\
    veq (vadd co1 (calcFlatMirrorVector
                     (MirrorData_default tri_a false (plane_t co1 tri_a))))
        (mkVector 1 1 1).
Proof.
  eexists. split; [vm_compute; reflexivity|].
  split; [vm_compute; repeat split; reflexivity|].
  refine (proj1 (proj2 (flat_mirror_involution statics_flat (mkVector 1 1 1) tri_a _ _ _))).
  - vm_compute. reflexivity.
  - vm_compute. reflexivity.
Defined.

(** ** zUpFindAxis *)

(** C7.  The third column of the result is the cross product of the mesh X
    and Y axes.  The axis that is replaced has a dot product with the
    viewing axis at least as large in magnitude as the two axes kept.  On
    equal magnitudes the axes are kept in the order X, Y, Z: X is replaced
    only when its magnitude is strictly the largest, Y only when its
    magnitude is strictly larger than that of Z, and Z otherwise. *)
Theorem zUpFindAxis_selection sign meshAxis camAxis :
  let xDot := dot (col0 meshAxis) (col2 camAxis) in
  let yDot := dot (col1 meshAxis) (col2 camAxis) in
  let zDot := dot (col2 meshAxis) (col2 camAxis) in
  let ret := zUpFindAxis sign meshAxis camAxis in
  col2 ret = cross (col0 meshAxis) (col1 meshAxis) /\
  ((Qabs yDot < Qabs xDot /\ Qabs zDot < Qabs xDot /\
    col0 ret = vmul (col2 meshAxis) (sign xDot) /\
    col1 ret = col1 meshAxis) \/
   (Qabs xDot <= Qabs yDot /\ Qabs zDot < Qabs yDot /\
    col0 ret = col0 meshAxis /\
    col1 ret = vmul (col2 meshAxis) (sign yDot)) \/
   (Qabs xDot <= Qabs zDot /\ Qabs yDot <= Qabs zDot /\
    col0 ret = vmul (col0 meshAxis) (- sign zDot) /\
    col1 ret = col1 meshAxis)).
Proof.
  intros xDot yDot zDot ret. split; [reflexivity|].
  unfold ret, zUpFindAxis. fold xDot yDot zDot. unfold Qgtb.
  destruct (Qltb (Qmax (Qabs yDot) (Qabs zDot)) (Qabs xDot)) eqn:E1.
  - left. apply Qltb_lt in E1. apply Q.max_lub_lt_iff in E1.
    destruct E1. repeat split; assumption.
  - apply Qltb_ge in E1.
    destruct (Qltb (Qabs zDot) (Qabs yDot)) eqn:E2.
    + right; left. apply Qltb_lt in E2.
      apply Q.max_le_iff in E1. destruct E1 as [E1|E1].
      * repeat split; assumption.
      * repeat split; try assumption.
        apply Qle_trans with (Qabs zDot); [assumption|].
        now apply Qlt_le_weak.
    + right; right. apply Qltb_ge in E2.
      apply Q.max_le_iff in E1. destruct E1 as [E1|E1].
      * repeat split; try assumption.
        now apply Qle_trans with (Qabs yDot).
      * repeat split; assumption.
Qed.

(** With the mesh axes the identity and the viewing axis (1,1,0), X and Y
    tie: X is kept and Y is replaced.  With the viewing axis (0,1,1), Y and
    Z tie: Z is replaced. *)
Example zUpFindAxis_tie_xy sign :
  zUpFindAxis sign Identity (mkMatrix (mkVector 1 0 0) (mkVector 0 1 0) (mkVector 1 1 0))
  = mkMatrix (col0 Identity) (vmul (col2 Identity) (sign (0 * 1 + 1 * 1 + 0 * 0)))
             (cross (col0 Identity) (col1 Identity)).
Proof. reflexivity. Qed.

Example zUpFindAxis_tie_yz sign :
  zUpFindAxis sign Identity (mkMatrix (mkVector 1 0 0) (mkVector 0 1 0) (mkVector 0 1 1))
  = mkMatrix (vmul (col0 Identity) (- sign (0 * 0 + 0 * 1 + 1 * 1))) (col1 Identity)
             (cross (col0 Identity) (col1 Identity)).
Proof. reflexivity. Qed.

(** ** traceUVTarget and calculateBounds *)

Section ProjectionFacts.
Variable cfg : Setting.t.
Variable self : ProjectionData.
Variable BMesh : Type.
Variable Bounds : Type.
Variable bvh_ray_cast : Vector -> Vector -> Q -> option (Vector * Vector * BMFace * Q).
Variable pointInTriangle : Vector -> Vector -> Vector -> Vector -> bool * Q * Q * Q.
Variable normalized : Vector -> Vector.
Variable uv_Area : BMFace -> Q.
Variable averageTexCoord : BMFace -> Vector -> Vector2.
Variable findMinMax : BMesh -> Vector * Vector.
Variable From_Corners :
  Vector2 -> Vector2 -> Vector2 -> Vector2 -> Vector2 -> Vector -> Vector -> option Bounds.
Variable sign : Q -> Q.
Variable axisAlignRotationMatrix : Matrix -> Matrix.
Variable createBmesh : ProjObject -> Matrix -> Vector -> BMesh.

Local Abbreviation rct := (ray_cast_target self bvh_ray_cast pointInTriangle normalized).
Local Abbreviation attempt :=
  (trace_attempt self bvh_ray_cast pointInTriangle normalized uv_Area averageTexCoord).
Local Abbreviation trace :=
  (traceUVTarget self bvh_ray_cast pointInTriangle normalized uv_Area averageTexCoord).
Local Abbreviation corners_loop :=
  (trace_corners self bvh_ray_cast pointInTriangle normalized uv_Area averageTexCoord).
Local Abbreviation bounds_of :=
  (calculateBounds self BMesh Bounds bvh_ray_cast pointInTriangle normalized uv_Area
                   averageTexCoord findMinMax From_Corners).
Local Abbreviation source_of :=
  (createSourceBmesh cfg self BMesh Bounds bvh_ray_cast pointInTriangle normalized
                     uv_Area averageTexCoord findMinMax From_Corners sign
                     axisAlignRotationMatrix createBmesh).
Local Abbreviation sources_of :=
  (generateSourceData cfg self BMesh Bounds bvh_ray_cast pointInTriangle normalized
                      uv_Area averageTexCoord findMinMax From_Corners sign
                      axisAlignRotationMatrix createBmesh).

Lemma traceUVTarget_first corner centerPos centerTex :
  match trace corner centerPos centerTex with
  | Some r =>
      exists k, (k < 5)%nat /\
                (forall j, (j < k)%nat -> attempt corner centerPos centerTex j = None) /\
                attempt corner centerPos centerTex k = Some r
  | None => forall k, (k < 5)%nat -> attempt corner centerPos centerTex k = None
  end.
Proof.
  unfold traceUVTarget. cbn [seq traceUVTarget_range].
  destruct (attempt corner centerPos centerTex 0) eqn:E0.
  { exists 0%nat. repeat split; [lia| |assumption]. intros j Hj; lia. }
  destruct (attempt corner centerPos centerTex 1) eqn:E1.
  { exists 1%nat. repeat split; [lia| |assumption].
    intros [|j] Hj; [assumption|lia]. }
  destruct (attempt corner centerPos centerTex 2) eqn:E2.
  { exists 2%nat. repeat split; [lia| |assumption].
    intros [|[|j]] Hj; try assumption; lia. }
  destruct (attempt corner centerPos centerTex 3) eqn:E3.
  { exists 3%nat. repeat split; [lia| |assumption].
    intros [|[|[|j]]] Hj; try assumption; lia. }
  destruct (attempt corner centerPos centerTex 4) eqn:E4.
  { exists 4%nat. repeat split; [lia| |assumption].
    intros [|[|[|[|j]]]] Hj; try assumption; lia. }
  intros [|[|[|[|[|k]]]]] Hk; try assumption; lia.
Qed.

Lemma trace_attempt_cases corner centerPos centerTex k :
  match attempt corner centerPos centerTex k with
  | Some r =>
      exists face dist uvw,
        rct (trace_pos corner centerPos k) = Some (face, dist, uvw) /\
        0 < uv_Area face /\
        r = v2add (v2div (v2sub (averageTexCoord face uvw) centerTex) (half_pow k))
                  centerTex
  | None =>
      rct (trace_pos corner centerPos k) = None \/
      exists face dist uvw,
        rct (trace_pos corner centerPos k) = Some (face, dist, uvw) /\
        uv_Area face <= 0
  end.
Proof.
  unfold trace_attempt.
  destruct (rct (trace_pos corner centerPos k)) as [[[face dist] uvw]|]; [|now left].
  unfold Qgtb. destruct (Qltb 0 (uv_Area face)) eqn:E.
  - apply Qltb_lt in E. exists face, dist, uvw. auto.
  - apply Qltb_ge in E. right. exists face, dist, uvw. auto.
Qed.

Lemma half_pow_step k : half_pow (S k) == half_pow k * (1 # 2).
Proof.
  unfold half_pow. rewrite Nat2Z.inj_succ. unfold Z.succ.
  rewrite Qpower_plus by discriminate. reflexivity.
Qed.

Lemma trace_pos_0 corner centerPos : veq (trace_pos corner centerPos 0) corner.
Proof.
  unfold trace_pos, veq, vadd, vmul, vsub, half_pow. simpl. repeat split; ring.
Qed.

Lemma trace_corners_none corners meshPos centerTex :
  corners_loop corners meshPos centerTex = None <->
  exists c, c ∈ corners /\ trace c meshPos centerTex = None.
Proof.
  induction corners as [|c rest IH]; cbn [trace_corners].
  - split; [discriminate|]. intros (c & Hc & _). now apply elem_of_nil in Hc.
  - destruct (trace c meshPos centerTex) eqn:E.
    + destruct (corners_loop rest meshPos centerTex) eqn:E'.
      * split; [discriminate|]. intros (c' & Hc' & Hn).
        apply elem_of_cons in Hc'. destruct Hc' as [->|Hc'].
        -- rewrite E in Hn. discriminate.
        -- destruct IH as [_ IH]. discriminate IH. eauto.
      * split; [|reflexivity]. intros _.
        destruct IH as [IH _]. destruct (IH eq_refl) as (c' & Hc' & Hn).
        exists c'. split; [apply elem_of_cons; now right|assumption].
    + split; [|reflexivity]. intros _. exists c.
      split; [apply elem_of_cons; now left|assumption].
Qed.
Lemma calculateBounds_corner_fails mesh alignedAxis meshPos meshName cFace dist uvw c :
  rct meshPos = Some (cFace, dist, uvw) ->
  c ∈ mesh_corners (fst (findMinMax mesh)) (snd (findMinMax mesh)) alignedAxis meshPos ->
  trace c meshPos (averageTexCoord cFace uvw) = None ->
  bounds_of mesh alignedAxis meshPos meshName
  = (None, [WARNING_corner_not_projected meshName]).
Proof.
  intros Hc Hin Hn. unfold calculateBounds.
  destruct (findMinMax mesh) as [vMin vMax]. cbn [fst snd] in Hin.
  rewrite Hc.
  assert (H : corners_loop (mesh_corners vMin vMax alignedAxis meshPos) meshPos
                           (averageTexCoord cFace uvw) = None).
  { apply trace_corners_none. eauto. }
  now rewrite H.
Qed.

Lemma generateSourceData_skips ob rest reports :
  bounds_of (createBmesh ob (fst (source_orientation cfg self sign axisAlignRotationMatrix ob))
                         (po_sca ob))
            (snd (source_orientation cfg self sign axisAlignRotationMatrix ob))
            (po_location ob) (po_name ob) = (None, reports) ->
  source_of ob = (None, reports) /\
  sources_of (ob :: rest)
  = (fst (sources_of rest),
     if po_is_mesh ob && negb (String.eqb (po_name ob) (target_ob self))
     then reports ++ snd (sources_of rest) else snd (sources_of rest)).
Proof.
  intros H.
  assert (Hs : source_of ob = (None, reports)).
  { unfold createSourceBmesh. cbv zeta. now rewrite H. }
  split; [exact Hs|].
  cbn [generateSourceData]. destruct (sources_of rest) as [meshList reps].
  cbn [fst snd].
  destruct (po_is_mesh ob && negb (String.eqb (po_name ob) (target_ob self)));
    [|reflexivity].
  now rewrite Hs.
Qed.

End ProjectionFacts.

(** The corner (4,0,0) is traced at x = 4, 2, 1; the third attempt is
    accepted and rescaled by 1 / 0.25 to the texture coordinate (4,0).  The
    corner (100,0,0) fails all five attempts. *)
Example traceUVTarget_third_attempt :
  match demo_trace (mkVector 4 0 0) with
  | Some r => v2eq r (mkVector2 4 0)
  | None => False
  end /\ demo_trace (mkVector 100 0 0) = None.
Proof. split; [vm_compute; split; reflexivity|vm_compute; reflexivity]. Qed.

(** ** calcVertProjPointClamp *)

Lemma clamp_range (x : Q) : 0 <= clamp x <= 1.
Proof.
  unfold clamp. split.
  - apply Q.le_max_l.
  - apply Q.max_lub; [discriminate|apply Q.le_min_l].
Qed.

Lemma clamp_id (x : Q) : 0 <= x <= 1 -> clamp x == x.
Proof.
  intros [H0 H1]. unfold clamp.
  rewrite (Q.min_r 1 x) by assumption. now apply Q.max_r.
Qed.



(** ** The state monad *)

Lemma bind_Ok {A B} (m : M A) (k : A -> M B) st b st' :
  bind m k st = Ok (b, st') ->
  exists a st1, m st = Ok (a, st1) /\ k a st1 = Ok (b, st').
Proof.
  unfold bind. destruct (m st) as [[a st1]| |]; try discriminate. eauto.
Qed.

Lemma ret_Ok {A} (a b : A) st st' : ret a st = Ok (b, st') -> b = a /\ st' = st.
Proof. unfold ret. intros H. apply Ok_inj in H. now inversion H. Qed.

Lemma lift_Ok {A} (o : outcome A) a st st' :
  lift o st = Ok (a, st') -> o = Ok a /\ st' = st.
Proof.
  unfold lift. destruct o; try discriminate.
  intros H. apply Ok_inj in H. now inversion H.
Qed.

Lemma attr_Ok {A} (o : option A) a st st' :
  attr o st = Ok (a, st') -> o = Some a /\ st' = st.
Proof.
  unfold attr. destruct o; [|discriminate].
  intros H. apply ret_Ok in H. destruct H as [-> ->]. auto.
Qed.

Lemma get_vert_Ok i v st st' :
  get_vert i st = Ok (v, st') -> verts st !! i = Some v /\ st' = st.
Proof.
  unfold get_vert. destruct (verts st !! i); [|discriminate].
  intros H. apply Ok_inj in H. now inversion H.
Qed.

Lemma get_sd_Ok i d st st' :
  get_sd i st = Ok (d, st') -> searchData st !! i = Some d /\ st' = st.
Proof.
  unfold get_sd. destruct (searchData st !! i); [|discriminate].
  intros H. apply Ok_inj in H. now inversion H.
Qed.

Lemma get_tag_Ok i b st st' :
  get_tag i st = Ok (b, st') -> tag st !! i = Some b /\ st' = st.
Proof.
  unfold get_tag. destruct (tag st !! i); [|discriminate].
  intros H. apply Ok_inj in H. now inversion H.
Qed.

Lemma set_sd_Ok i d u st st' :
  set_sd i d st = Ok (u, st') ->
  st' = mkState (verts st) (<[i:=d]> (searchData st)) (tag st) (mirrorLog st).
Proof. unfold set_sd. intros H. apply Ok_inj in H. now inversion H. Qed.

Lemma set_tag_Ok i b u st st' :
  set_tag i b st = Ok (u, st') ->
  (i < length (tag st))%nat /\
  st' = mkState (verts st) (searchData st) (<[i:=b]> (tag st)) (mirrorLog st).
Proof.
  unfold set_tag. destruct (tag st !! i) eqn:E; [|discriminate].
  intros H. apply Ok_inj in H. apply lookup_lt_Some in E. now inversion H.
Qed.

Lemma set_co_Ok i c u st st' :
  set_co i c st = Ok (u, st') ->
  exists v, verts st !! i = Some v /\
            st' = mkState (<[i:=mkVert c (link_edges v)]> (verts st))
                          (searchData st) (tag st) (i :: mirrorLog st).
Proof.
  unfold set_co. destruct (verts st !! i) eqn:E; [|discriminate].
  intros H. apply Ok_inj in H. exists b. now inversion H.
Qed.

(** Decompose the successful runs among the hypotheses into their steps. *)
Ltac minv1 :=
  match goal with
  | H : bind _ _ _ = Ok _ |- _ =>
      apply bind_Ok in H; destruct H as (? & ? & ? & H)
  | H : ret _ _ = Ok _ |- _ =>
      apply ret_Ok in H; destruct H as [? ?]; subst
  | H : lift _ _ = Ok _ |- _ =>
      apply lift_Ok in H; destruct H as [? ?]; subst
  | H : attr _ _ = Ok _ |- _ =>
      apply attr_Ok in H; destruct H as [? ?]; subst
  | H : get_vert _ _ = Ok _ |- _ =>
      apply get_vert_Ok in H; destruct H as [? ?]; subst
  | H : get_sd _ _ = Ok _ |- _ =>
      apply get_sd_Ok in H; destruct H as [? ?]; subst
  | H : get_tag _ _ = Ok _ |- _ =>
      apply get_tag_Ok in H; destruct H as [? ?]; subst
  | H : set_sd _ _ _ = Ok _ |- _ => apply set_sd_Ok in H; subst
  | H : set_tag _ _ _ = Ok _ |- _ =>
      apply set_tag_Ok in H; destruct H as [? ?]; subst
  end.
Ltac minv := repeat minv1.

(** Two lookups of the same cell agree. *)
Ltac same_lookup :=
  repeat match goal with
  | H1 : ?l !! ?i = Some ?x, H2 : ?l !! ?i = Some ?y |- _ =>
      rewrite H1 in H2; apply Some_inj in H2;
      first [subst y | subst x | idtac]
  end.

(** ** The seed search *)

Lemma setClosestMirror_data d md :
  _mirrorData (setClosestMirror d md)
  = match _mirrorData d with
    | None => Some md
    | Some old => if Qltb (_t md) (_t old) then Some md else Some old
    end.
Proof.
  unfold setClosestMirror. destruct (_mirrorData d) eqn:E; [|reflexivity].
  destruct (Qltb (_t md) (_t m)); [reflexivity|exact E].
Qed.

Lemma closest_of_miss cfg co pre cur tri m :
  closest_of cfg co pre cur ->
  triIntersection cfg co tri = Ok m ->
  match m with Some md => _intersected md = false | None => True end ->
  closest_of cfg co (pre ++ [tri]) cur.
Proof.
  intros Hc Htri Hm. destruct cur as [best|]; cbn [closest_of] in *.
  - destruct Hc as (k & t0 & Hk & Hb & Hi & Hall).
    exists k, t0. split.
    { rewrite lookup_app_l; [assumption|]. now apply lookup_lt_Some in Hk. }
    split; [assumption|]. split; [assumption|].
    intros j tri' md' Hj Ht' Hi'.
    apply lookup_app_Some in Hj. destruct Hj as [Hj|[_ Hj]].
    + eapply Hall; eassumption.
    + apply list_lookup_singleton_Some in Hj. destruct Hj as [_ <-].
      rewrite Htri in Ht'. apply Ok_inj in Ht'. subst m.
      rewrite Hm in Hi'. discriminate.
  - intros tri' md' Hin Ht' .
    apply elem_of_app in Hin. destruct Hin as [Hin|Hin].
    + eapply Hc; eassumption.
    + apply list_elem_of_singleton in Hin. subst tri'.
      rewrite Htri in Ht'. apply Ok_inj in Ht'. now subst m.
Qed.

Lemma closest_of_hit cfg co pre cur tri md :
  closest_of cfg co pre cur ->
  triIntersection cfg co tri = Ok (Some md) ->
  _intersected md = true ->
  closest_of cfg co (pre ++ [tri])
             (match cur with
              | None => Some md
              | Some old => if Qltb (_t md) (_t old) then Some md else Some old
              end).
Proof.
  intros Hc Htri Hi.
  assert (Hlast : (pre ++ [tri]) !! length pre = Some tri).
  { rewrite lookup_app_r by lia. now rewrite Nat.sub_diag. }
  assert (Hsplit : forall j tri',
             (pre ++ [tri]) !! j = Some tri' ->
             pre !! j = Some tri' /\ (j < length pre)%nat \/
             j = length pre /\ tri' = tri).
  { intros j tri' Hj. apply lookup_app_Some in Hj. destruct Hj as [Hj|[Hl Hj]].
    - left. split; [assumption|]. now apply lookup_lt_Some in Hj.
    - apply list_lookup_singleton_Some in Hj. destruct Hj as [Hj <-].
      right. split; [lia|reflexivity]. }
  destruct cur as [old|]; cbn [closest_of] in *.
  - destruct Hc as (k & t0 & Hk & Hb & Hio & Hall).
    destruct (Qltb (_t md) (_t old)) eqn:E.
    + apply Qltb_lt in E. exists (length pre), tri.
      split; [assumption|]. split; [assumption|]. split; [assumption|].
      intros j tri' md' Hj Ht' Hi'.
      destruct (Hsplit _ _ Hj) as [[Hj' Hlt]|[-> ->]].
      * destruct (Hall _ _ _ Hj' Ht' Hi') as [Hle _].
        assert (_t md < _t md') by (eapply Qlt_le_trans; eassumption).
        split; [now apply Qlt_le_weak|auto].
      * rewrite Htri in Ht'. apply Ok_Some_inj in Ht'. subst md'.
        split; [apply Qle_refl|lia].
    + apply Qltb_ge in E. exists k, t0.
      assert (Hklt : (k < length pre)%nat) by now apply lookup_lt_Some in Hk.
      split; [now rewrite lookup_app_l|].
      split; [assumption|]. split; [assumption|].
      intros j tri' md' Hj Ht' Hi'.
      destruct (Hsplit _ _ Hj) as [[Hj' Hlt]|[-> ->]].
      * eapply Hall; eassumption.
      * rewrite Htri in Ht'. apply Ok_Some_inj in Ht'. subst md'.
        split; [assumption|lia].
  - exists (length pre), tri.
    split; [assumption|]. split; [assumption|]. split; [assumption|].
    intros j tri' md' Hj Ht' Hi'.
    destruct (Hsplit _ _ Hj) as [[Hj' Hlt]|[-> ->]].
    + apply list_elem_of_lookup_2 in Hj'.
      rewrite (Hc _ _ Hj' Ht') in Hi'. discriminate.
    + rewrite Htri in Ht'. apply Ok_Some_inj in Ht'. subst md'.
      split; [apply Qle_refl|lia].
Qed.

Lemma findClosestTri_scan cfg i v fs :
  forall pre st st' d,
    verts st !! i = Some v ->
    searchData st !! i = Some d ->
    closest_of cfg (co v) pre (_mirrorData d) ->
    for_each fs (fun tri =>
      vert <~ get_vert i ;;
      mDat <~ lift (triIntersection cfg (co vert) tri) ;;
      match mDat with
      | Some md =>
          if _intersected md then
            data <~ get_sd i ;;
            set_sd i (setClosestMirror data md)
          else ret tt
      | None => ret tt
      end) st = Ok (tt, st') ->
    exists d',
      verts st' = verts st /\ tag st' = tag st /\ mirrorLog st' = mirrorLog st /\
      searchData st' = <[i:=d']> (searchData st) /\
      closest_of cfg (co v) (pre ++ fs) (_mirrorData d') /\
      (mirrored d = true -> mirrored d' = true).
Proof.
  induction fs as [|tri rest IH]; intros pre st st' d Hv Hd Hc Hrun.
  - cbn [for_each] in Hrun. minv. exists d.
    rewrite app_nil_r. rewrite list_insert_id by assumption. auto 10.
  - cbn [for_each] in Hrun. minv. same_lookup.
    replace (pre ++ tri :: rest) with ((pre ++ [tri]) ++ rest)
      by (rewrite <- app_assoc; reflexivity).
    match goal with H : triIntersection _ _ _ = Ok ?m |- _ =>
      rename H into Htri; destruct m as [md|] end.
    + destruct (_intersected md) eqn:Hi.
      * minv. same_lookup.
        assert (Hlt : (i < length (searchData st))%nat)
          by now apply lookup_lt_Some in Hd.
        match type of Hrun with for_each _ _ ?s = _ => set (st1 := s) in * end.
        destruct (IH (pre ++ [tri]) st1 st' (setClosestMirror d md))
          as (d' & Hv' & Htg & Hlog & Hsd & Hc' & Hm).
        { exact Hv. }
        { unfold st1. cbn [searchData]. now apply list_lookup_insert_eq. }
        { rewrite setClosestMirror_data. now apply closest_of_hit. }
        { exact Hrun. }
        unfold st1 in *.
        exists d'. cbn [verts tag mirrorLog searchData] in *.
        rewrite list_insert_insert_eq in Hsd.
        repeat split; try assumption.
        intros Hmd. apply Hm. unfold mirrored.
        rewrite setClosestMirror_data. destruct (_mirrorData d); [|reflexivity].
        now destruct (Qltb _ _).
      * minv.
        destruct (IH (pre ++ [tri]) st st' d Hv Hd) as (d' & H'); [|exact Hrun|].
        { eapply closest_of_miss; [eassumption|eassumption|exact Hi]. }
        exists d'. exact H'.
    + minv.
      destruct (IH (pre ++ [tri]) st st' d Hv Hd) as (d' & H'); [|exact Hrun|].
      { eapply closest_of_miss; [eassumption|eassumption|exact I]. }
      exists d'. exact H'.
Qed.



(** On [seed_faces] the face kept is the second: the first is farther, the
    third ties with the second and comes later. *)
Example findClosestTri_tie_first_found :
  match findClosestTri statics_flat seed_faces 0 seed_state with
  | Ok (_, st') =>
      match searchData st' !! 0%nat with
      | Some d => option_map (fun md => findex (_mirrorTri md)) (_mirrorData d)
      | None => None
      end
  | _ => None
  end = Some 1%nat.
Proof. vm_compute. reflexivity. Qed.

(** ** Running out of fuel *)

Lemma bind_fuel {A B} (m : M A) (k : A -> M B) st :
  m st <> OutOfFuel ->
  (forall a st1, m st = Ok (a, st1) -> k a st1 <> OutOfFuel) ->
  bind m k st <> OutOfFuel.
Proof.
  intros Hm Hk. unfold bind. destruct (m st) as [[a st1]| |] eqn:E.
  - now apply Hk.
  - discriminate.
  - contradiction.
Qed.

Lemma ret_fuel {A} (a : A) st : ret a st <> OutOfFuel.
Proof. discriminate. Qed.

Lemma lift_fuel {A} (o : outcome A) st : o <> OutOfFuel -> lift o st <> OutOfFuel.
Proof. unfold lift. destruct o; [discriminate|discriminate|contradiction]. Qed.

Lemma attr_fuel {A} (o : option A) st : attr o st <> OutOfFuel.
Proof. destruct o; discriminate. Qed.

Lemma get_vert_fuel i st : get_vert i st <> OutOfFuel.
Proof. unfold get_vert. destruct (verts st !! i); discriminate. Qed.

Lemma get_sd_fuel i st : get_sd i st <> OutOfFuel.
Proof. unfold get_sd. destruct (searchData st !! i); discriminate. Qed.

Lemma get_tag_fuel i st : get_tag i st <> OutOfFuel.
Proof. unfold get_tag. destruct (tag st !! i); discriminate. Qed.

Lemma set_sd_fuel i d st : set_sd i d st <> OutOfFuel.
Proof. discriminate. Qed.

Lemma set_tag_fuel i b st : set_tag i b st <> OutOfFuel.
Proof. unfold set_tag. destruct (tag st !! i); discriminate. Qed.

Lemma set_co_fuel i c st : set_co i c st <> OutOfFuel.
Proof. unfold set_co. destruct (verts st !! i); discriminate. Qed.

Create HintDb fuel.
#[local] Hint Resolve ret_fuel attr_fuel get_vert_fuel get_sd_fuel get_tag_fuel
  set_sd_fuel set_tag_fuel set_co_fuel triIntersection_not_fuel : fuel.

(** ** Face tags *)

Lemma count_false_insert_true (l : list bool) k :
  l !! k = Some false ->
  (count_false (<[k:=true]> l) + 1 = count_false l)%nat.
Proof.
  revert k. induction l as [|b l IH]; intros [|k] H; try discriminate.
  - cbn in H. apply Some_inj in H. subst b. cbn. lia.
  - cbn in H. cbn [count_false]. change (<[S k:=true]> (b :: l)) with (b :: <[k:=true]> l).
    cbn [count_false]. specialize (IH k H). lia.
Qed.

Lemma count_false_le (l : list bool) : (count_false l <= length l)%nat.
Proof. induction l as [|[] l IH]; cbn; lia. Qed.

Lemma count_false_all (l : list bool) :
  Forall (fun b => b = false) l -> count_false l = length l.
Proof. induction 1 as [|b l -> _ IH]; cbn; [reflexivity|now rewrite IH]. Qed.

Lemma tags_listed_insert tags tagList f :
  tags_listed tags tagList ->
  tags_listed (<[findex f:=true]> tags) (tagList ++ [f]).
Proof.
  intros H k Hk. destruct (decide (findex f = k)) as [<-|Hne].
  - exists f. split; [|reflexivity]. apply elem_of_app. right.
    now apply list_elem_of_singleton.
  - rewrite list_lookup_insert_ne in Hk by assumption.
    destruct (H k Hk) as (g & Hg & Hgk). exists g. split; [|assumption].
    apply elem_of_app. now left.
Qed.

Lemma queueConnectedFaces_link_spec faces link_faces :
  forall queue tagList st queue' tagList' st',
    queueConnectedFaces_link faces link_faces queue tagList st
    = Ok ((queue', tagList'), st') ->
    verts st' = verts st /\ searchData st' = searchData st /\
    mirrorLog st' = mirrorLog st /\
    length (tag st') = length (tag st) /\
    (tags_listed (tag st) tagList -> tags_listed (tag st') tagList') /\
    (length queue' + count_false (tag st') = length queue + count_false (tag st))%nat.
Proof.
  induction link_faces as [|j rest IH]; intros queue tagList st queue' tagList' st' Hrun.
  - cbn [queueConnectedFaces_link] in Hrun. apply ret_Ok in Hrun.
    destruct Hrun as [Hp ->]. inversion Hp; subst. auto 10.
  - cbn [queueConnectedFaces_link] in Hrun. minv.
    match goal with H : get_tag _ _ = _ |- _ => idtac | _ => idtac end.
    match goal with Ht : tag ?s !! findex ?f = Some ?t |- _ =>
      rename Ht into Htag; rename f into otherFace; destruct t end.
    + cbn [negb] in Hrun. now apply IH in Hrun.
    + cbn [negb] in Hrun. minv. apply IH in Hrun.
      cbn [verts searchData tag mirrorLog] in Hrun.
      destruct Hrun as (Hv & Hs & Hl & Hlen & Hlisted & Hcount).
      rewrite length_insert in Hlen.
      repeat split; try assumption.
      * intros HJ. apply Hlisted. now apply tags_listed_insert.
      * rewrite Hcount, length_app. cbn [length].
        pose proof (count_false_insert_true _ _ Htag). lia.
Qed.

Lemma queueConnectedFaces_link_fuel faces link_faces :
  forall queue tagList st,
    queueConnectedFaces_link faces link_faces queue tagList st <> OutOfFuel.
Proof.
  induction link_faces as [|j rest IH]; intros queue tagList st.
  - discriminate.
  - cbn [queueConnectedFaces_link]. apply bind_fuel.
    + apply lift_fuel. destruct (faces !! j); discriminate.
    + intros f st1 _. apply bind_fuel; [auto with fuel|].
      intros t st2 _. destruct (negb t); [|apply IH].
      apply bind_fuel; [auto with fuel|]. intros _ st3 _. apply IH.
Qed.

Lemma queueConnectedFaces_spec faces face queue tagList st queue' tagList' st' :
  queueConnectedFaces faces face queue tagList st
  = Ok ((queue', tagList'), st') ->
  verts st' = verts st /\ searchData st' = searchData st /\
  mirrorLog st' = mirrorLog st /\
  length (tag st') = length (tag st) /\
  (tags_listed (tag st) tagList -> tags_listed (tag st') tagList') /\
  (length queue' + count_false (tag st') = length queue + count_false (tag st))%nat.
Proof.
  unfold queueConnectedFaces. generalize (fedges face) as edges.
  intros edges. revert queue tagList st.
  induction edges as [|edge rest IH]; intros queue tagList st Hrun.
  - cbn [queueConnectedFaces_edges] in Hrun. apply ret_Ok in Hrun.
    destruct Hrun as [Hp ->]. inversion Hp; subst. auto 10.
  - cbn [queueConnectedFaces_edges] in Hrun. apply bind_Ok in Hrun.
    destruct Hrun as ([q1 tl1] & st1 & H1 & Hrun). cbn [fst snd] in Hrun.
    apply queueConnectedFaces_link_spec in H1.
    apply IH in Hrun.
    destruct H1 as (Hv1 & Hs1 & Hl1 & Hlen1 & Hlist1 & Hc1).
    destruct Hrun as (Hv & Hs & Hl & Hlen & Hlist & Hc).
    split; [congruence|]. split; [congruence|]. split; [congruence|].
    split; [congruence|]. split; [auto|lia].
Qed.

Lemma queueConnectedFaces_fuel faces face queue tagList st :
  queueConnectedFaces faces face queue tagList st <> OutOfFuel.
Proof.
  unfold queueConnectedFaces. generalize (fedges face) as edges.
  intros edges. revert queue tagList st.
  induction edges as [|edge rest IH]; intros queue tagList st.
  - discriminate.
  - cbn [queueConnectedFaces_edges]. apply bind_fuel.
    + apply queueConnectedFaces_link_fuel.
    + intros qt st1 _. apply IH.
Qed.

(** ** findFirstTri *)

Lemma findFirstTri_loop_spec cfg faces fuel i :
  forall queue tagList st tagList' st',
    findFirstTri_loop cfg faces fuel i queue tagList st = Ok (tagList', st') ->
    verts st' = verts st /\ mirrorLog st' = mirrorLog st /\
    length (tag st') = length (tag st) /\
    (tags_listed (tag st) tagList -> tags_listed (tag st') tagList') /\
    (searchData st' = searchData st \/
     exists d md,
       searchData st !! i = Some d /\ _intersected md = true /\
       searchData st' = <[i:=setMirror d md]> (searchData st)).
Proof.
  induction fuel as [|fuel IH]; intros queue tagList st tagList' st' Hrun;
    [discriminate|].
  cbn [findFirstTri_loop] in Hrun. destruct queue as [|face queue].
  { minv. auto 10. }
  assert (Hcont : forall st0,
             st0 = st ->
             (qt <~ queueConnectedFaces faces face queue tagList ;;
              findFirstTri_loop cfg faces fuel i (fst qt) (snd qt)) st0
             = Ok (tagList', st') ->
             verts st' = verts st /\ mirrorLog st' = mirrorLog st /\
             length (tag st') = length (tag st) /\
             (tags_listed (tag st) tagList -> tags_listed (tag st') tagList') /\
             (searchData st' = searchData st \/
              exists d md,
                searchData st !! i = Some d /\ _intersected md = true /\
                searchData st' = <[i:=setMirror d md]> (searchData st))).
  { intros st0 -> H. apply bind_Ok in H. destruct H as ([q1 tl1] & st1 & H1 & H).
    cbn [fst snd] in H. apply queueConnectedFaces_spec in H1. apply IH in H.
    destruct H1 as (Hv1 & Hs1 & Hl1 & Hlen1 & Hlist1 & _).
    destruct H as (Hv & Hl & Hlen & Hlist & Hsd).
    split; [congruence|]. split; [congruence|]. split; [congruence|].
    split; [auto|]. rewrite Hs1 in Hsd. exact Hsd. }
  minv.
  match goal with H : triIntersection _ _ _ = Ok ?m |- _ => destruct m as [md|] end.
  - destruct (_intersected md) eqn:Hi.
    + minv. cbn [verts mirrorLog tag searchData].
      repeat split; try reflexivity; [auto|]. right. eauto.
    + now apply Hcont in Hrun.
  - now apply Hcont in Hrun.
Qed.

Lemma findFirstTri_loop_fuel cfg faces fuel i :
  forall queue tagList st,
    (length queue + count_false (tag st) < fuel)%nat ->
    findFirstTri_loop cfg faces fuel i queue tagList st <> OutOfFuel.
Proof.
  induction fuel as [|fuel IH]; intros queue tagList st Hlt; [lia|].
  cbn [findFirstTri_loop]. destruct queue as [|face queue]; [discriminate|].
  cbn [length] in Hlt.
  assert (Hcont : (qt <~ queueConnectedFaces faces face queue tagList ;;
                   findFirstTri_loop cfg faces fuel i (fst qt) (snd qt)) st
                  <> OutOfFuel).
  { apply bind_fuel; [apply queueConnectedFaces_fuel|].
    intros [q1 tl1] st1 H1. cbn [fst snd].
    apply queueConnectedFaces_spec in H1.
    destruct H1 as (_ & _ & _ & _ & _ & Hc). apply IH. lia. }
  apply bind_fuel; [auto with fuel|]. intros vert st1 Hv.
  apply get_vert_Ok in Hv. destruct Hv as [_ ->].
  apply bind_fuel; [apply lift_fuel; auto with fuel|]. intros mDat st1 Hm.
  apply lift_Ok in Hm. destruct Hm as [_ ->].
  destruct mDat as [md|]; [|exact Hcont].
  destruct (_intersected md); [|exact Hcont].
  apply bind_fuel; [auto with fuel|]. intros d st1 _.
  apply bind_fuel; [auto with fuel|]. intros _ st2 _. discriminate.
Qed.

Lemma reset_tags_spec (tagList : list BMFace) :
  forall st st',
    for_each tagList (fun f => set_tag (findex f) false) st = Ok (tt, st') ->
    verts st' = verts st /\ searchData st' = searchData st /\
    mirrorLog st' = mirrorLog st /\
    length (tag st') = length (tag st) /\
    forall k, tag st' !! k = Some true ->
              tag st !! k = Some true /\
              ~ exists f, f ∈ tagList /\ findex f = k.
Proof.
  induction tagList as [|f rest IH]; intros st st' Hrun.
  - cbn [for_each] in Hrun. minv. repeat split; try reflexivity; [assumption|].
    intros (f & Hf & _). now apply elem_of_nil in Hf.
  - cbn [for_each] in Hrun. minv. apply IH in Hrun.
    cbn [verts searchData tag mirrorLog] in Hrun.
    destruct Hrun as (Hv & Hs & Hl & Hlen & Htags).
    rewrite length_insert in Hlen.
    repeat split; try assumption.
    + destruct (Htags k H0) as [Hk _].
      destruct (decide (findex f = k)) as [<-|Hne].
      * rewrite list_lookup_insert_eq in Hk by assumption. discriminate.
      * now rewrite list_lookup_insert_ne in Hk.
    + intros (g & Hg & Hgk). destruct (Htags k H0) as [Hk Hno].
      apply elem_of_cons in Hg. destruct Hg as [->|Hg].
      * rewrite <- Hgk in Hk.
        rewrite list_lookup_insert_eq in Hk by assumption. discriminate.
      * apply Hno. eauto.
Qed.

Lemma reset_tags_fuel (tagList : list BMFace) :
  forall st, for_each tagList (fun f => set_tag (findex f) false) st <> OutOfFuel.
Proof.
  induction tagList as [|f rest IH]; intros st; [discriminate|].
  cbn [for_each]. apply bind_fuel; [auto with fuel|]. intros _ st1 _. apply IH.
Qed.

Lemma all_false_replicate (l : list bool) :
  Forall (fun b => b = false) l -> l = replicate (length l) false.
Proof. induction 1 as [|b l -> _ IH]; cbn; [reflexivity|now rewrite <- IH]. Qed.

Lemma findFirstTri_spec cfg faces fuel i lastMFace st st' :
  Forall (fun b => b = false) (tag st) ->
  findFirstTri cfg faces fuel i lastMFace st = Ok (tt, st') ->
  verts st' = verts st /\ mirrorLog st' = mirrorLog st /\
  tag st' = tag st /\
  (searchData st' = searchData st \/
   exists d md,
     searchData st !! i = Some d /\ _intersected md = true /\
     searchData st' = <[i:=setMirror d md]> (searchData st)).
Proof.
  intros Hall Hrun. unfold findFirstTri in Hrun.
  apply bind_Ok in Hrun. destruct Hrun as (u & st1 & Hset & Hrun).
  apply bind_Ok in Hrun. destruct Hrun as (tl & st2 & Hloop & Hreset).
  apply set_tag_Ok in Hset. destruct Hset as [Hidx ->].
  apply findFirstTri_loop_spec in Hloop.
  cbn [verts searchData tag mirrorLog] in Hloop.
  destruct Hloop as (Hv2 & Hl2 & Hlen2 & Hlist2 & Hsd2).
  rewrite length_insert in Hlen2.
  apply reset_tags_spec in Hreset.
  destruct Hreset as (Hv3 & Hs3 & Hl3 & Hlen3 & Htags3).
  split; [congruence|]. split; [congruence|]. split.
  - assert (Hlisted : tags_listed (tag st2) tl).
    { apply Hlist2. intros k Hk.
      destruct (decide (findex lastMFace = k)) as [<-|Hne].
      - exists lastMFace. split; [now apply list_elem_of_singleton|reflexivity].
      - rewrite list_lookup_insert_ne in Hk by assumption.
        rewrite Forall_lookup in Hall. specialize (Hall _ _ Hk). discriminate. }
    assert (Hall' : Forall (fun b => b = false) (tag st')).
    { apply Forall_lookup. intros k [|] Hk; [|reflexivity].
      destruct (Htags3 k Hk) as [Hk2 Hno]. exfalso. apply Hno.
      now apply Hlisted. }
    rewrite (all_false_replicate _ Hall), (all_false_replicate _ Hall').
    congruence.
  - rewrite Hs3. exact Hsd2.
Qed.

Lemma findFirstTri_fuel cfg faces fuel i lastMFace st :
  Forall (fun b => b = false) (tag st) ->
  (length (tag st) < fuel)%nat ->
  findFirstTri cfg faces fuel i lastMFace st <> OutOfFuel.
Proof.
  intros Hall Hlt. unfold findFirstTri.
  apply bind_fuel; [auto with fuel|]. intros u st1 Hset.
  pose proof Hset as Hset'. unfold set_tag in Hset'.
  destruct (tag st !! findex lastMFace) as [b|] eqn:Eb; [|discriminate].
  assert (b = false) as ->.
  { rewrite Forall_lookup in Hall. exact (Hall _ _ Eb). }
  apply set_tag_Ok in Hset. destruct Hset as [Hidx ->].
  apply bind_fuel.
  - apply findFirstTri_loop_fuel. cbn [tag length].
    pose proof (count_false_insert_true _ _ Eb).
    pose proof (count_false_le (tag st)). lia.
  - intros tl st2 _. apply reset_tags_fuel.
Qed.

(** C10.  When every face tag is [False] on entry, a call of [findFirstTri]
    that returns leaves the tags exactly as they were: every face it tagged,
    including those still queued when the search stops at a hit, has been
    reset.  With more fuel than the mirror mesh has faces the loop never runs
    out of fuel, so the call returns or raises. *)
Theorem findFirstTri_restores_tags cfg faces fuel i lastMFace st :
  Forall (fun b => b = false) (tag st) ->
  (forall st', findFirstTri cfg faces fuel i lastMFace st = Ok (tt, st') ->
               tag st' = tag st) /\
  ((length (tag st) < fuel)%nat ->
   findFirstTri cfg faces fuel i lastMFace st <> OutOfFuel).
Proof.
  intros Hall. split.
  - intros st' Hrun. now apply (findFirstTri_spec _ _ _ _ _ _ _ Hall Hrun).
  - intros Hlt. now apply findFirstTri_fuel.
Qed.

(** The search for (11,1,1) from the first face of [strip_faces] stops at
    the second face while the third is still queued and tagged. *)
Lemma findFirstTri_restores_tags_witness :
  exists st',
    findFirstTri statics_flat strip_faces 4 0 (flat_tri 0 (mkVector 0 0 0)
      (mkVector 4 0 0) (mkVector 0 4 0) [[0%nat; 1%nat]; [0%nat; 2%nat]; [0%nat]])
      strip_state = Ok (tt, st') /\
    tag st' = [false; false; false].
Proof.
  assert (E : exists st',
             findFirstTri statics_flat strip_faces 4 0 (flat_tri 0 (mkVector 0 0 0)
               (mkVector 4 0 0) (mkVector 0 4 0)
               [[0%nat; 1%nat]; [0%nat; 2%nat]; [0%nat]]) strip_state
             = Ok (tt, st'))
    by (vm_compute; eexists; reflexivity).
  destruct E as [st' E]. exists st'. split; [exact E|].
  refine (proj1 (findFirstTri_restores_tags statics_flat strip_faces 4 0 _
                   strip_state _) st' E).
  repeat constructor.
Defined.

(** In that run the record found is for the second face, and the loop has
    tagged all three faces before the tags are reset. *)
Example findFirstTri_early_exit :
  match findFirstTri_loop statics_flat strip_faces 4 0
          (take 1 strip_faces) (take 1 strip_faces)
          (mkState (verts strip_state) (searchData strip_state)
                   [true; false; false] []) with
  | Ok (tagList, st') =>
      (map findex tagList, tag st',
       match searchData st' !! 0%nat with
       | Some d => option_map (fun md => findex (_mirrorTri md)) (_mirrorData d)
       | None => None
       end)
  | _ => ([], [], None)
  end = ([0; 1; 2]%nat, [true; true; true], Some 1%nat).
Proof. vm_compute. reflexivity. Qed.

(** ** Records and flags *)

Lemma mirrored_notMirrored d : notMirrored d = negb (mirrored d).
Proof. unfold notMirrored, mirrored. now destruct (_mirrorData d). Qed.

Lemma flags_lookup st i d :
  searchData st !! i = Some d -> flags st !! i = Some (mirrored d).
Proof. intros H. unfold flags. now rewrite list_lookup_fmap, H. Qed.

Lemma flags_lookup_inv st i b :
  flags st !! i = Some b ->
  exists d, searchData st !! i = Some d /\ mirrored d = b.
Proof.
  unfold flags. rewrite list_lookup_fmap.
  destruct (searchData st !! i) as [d|]; [|discriminate].
  cbn. intros H. apply Some_inj in H. eauto.
Qed.

Lemma flags_mono_refl f : flags_mono f f.
Proof. split; auto. Qed.

Lemma flags_mono_trans f g h : flags_mono f g -> flags_mono g h -> flags_mono f h.
Proof. intros [L1 H1] [L2 H2]. split; [congruence|auto]. Qed.

Lemma flags_mono_insert f i : flags_mono f (<[i:=true]> f).
Proof.
  split; [apply length_insert|]. intros j Hj.
  destruct (decide (i = j)) as [->|Hne].
  - apply list_lookup_insert_eq. now apply lookup_lt_Some in Hj.
  - now rewrite list_lookup_insert_ne.
Qed.

Lemma search_step_mono i st st' :
  search_step i st st' -> flags_mono (flags st) (flags st').
Proof.
  intros (_ & _ & _ & [->| ->]); [apply flags_mono_refl|apply flags_mono_insert].
Qed.

Lemma search_step_refl i st : search_step i st st.
Proof. unfold search_step. auto. Qed.

(** ** The primitive steps of the engine *)

Lemma mirrorVert_spec cfg i md force st u st' :
  mirrorVert cfg i md force st = Ok (u, st') ->
  exists v c,
    verts st !! i = Some v /\
    verts st' = <[i:=mkVert c (link_edges v)]> (verts st) /\
    searchData st' = searchData st /\ tag st' = tag st /\
    mirrorLog st' = i :: mirrorLog st.
Proof.
  unfold mirrorVert. intros H. minv.
  apply set_co_Ok in H. destruct H as (v & Hv & ->). same_lookup.
  eexists _, _. cbn [verts searchData tag mirrorLog]. eauto 10.
Qed.

Lemma mirrorVert_fuel cfg i md force st :
  mirrorVert cfg i md force st <> OutOfFuel.
Proof.
  unfold mirrorVert. apply bind_fuel.
  - apply lift_fuel. destruct (negb (smoothed cfg) || force); [discriminate|].
    unfold calcSmoothMirrorVector. destruct (fdiv _ _) eqn:E; try discriminate.
    now apply fdiv_not_fuel in E.
  - intros mVec st1 _. apply bind_fuel; [auto with fuel|].
    intros v st2 _. auto with fuel.
Qed.

Lemma findDistance_spec i mTri st u st' :
  findDistance i mTri st = Ok (u, st') ->
  verts st' = verts st /\ tag st' = tag st /\ mirrorLog st' = mirrorLog st /\
  flags st' = <[i:=true]> (flags st) /\
  exists d, searchData st' !! i = Some d /\ mirrored d = true.
Proof.
  unfold findDistance. intros H. minv. cbn [verts searchData tag mirrorLog].
  repeat split; try reflexivity.
  - unfold flags. cbn [searchData]. now rewrite list_fmap_insert.
  - eexists. split.
    + apply list_lookup_insert_eq.
      match goal with Hd : searchData _ !! i = Some _ |- _ =>
        now apply lookup_lt_Some in Hd end.
    + reflexivity.
Qed.

Lemma findDistance_fuel i mTri st : findDistance i mTri st <> OutOfFuel.
Proof.
  unfold findDistance. apply bind_fuel; [auto with fuel|]. intros v st1 _.
  apply bind_fuel; [auto with fuel|]. intros d st2 _. auto with fuel.
Qed.

Lemma queueConnectedVerts_edges_spec vlength i edges :
  forall queue st queue' st',
    queueConnectedVerts_edges vlength i edges queue st = Ok (queue', st') ->
    verts st' = verts st /\ tag st' = tag st /\ mirrorLog st' = mirrorLog st /\
    flags st' = flags st /\
    exists extra, queue' = queue ++ extra /\ (length extra <= length edges)%nat.
Proof.
  induction edges as [|c rest IH]; intros queue st queue' st' Hrun.
  - cbn [queueConnectedVerts_edges] in Hrun. minv.
    repeat split; try reflexivity. exists []. now rewrite app_nil_r.
  - cbn [queueConnectedVerts_edges] in Hrun. minv.
    match goal with Hd : searchData _ !! c = Some ?d |- _ =>
      rename Hd into Hdata; rename d into data end.
    destruct (notMirrored data) eqn:Enm.
    + minv.
      assert (Hstep : forall st1,
                 verts st1 = verts st -> tag st1 = tag st ->
                 mirrorLog st1 = mirrorLog st -> flags st1 = flags st ->
                 queueConnectedVerts_edges vlength i rest (queue ++ [c]) st1
                 = Ok (queue', st') ->
                 verts st' = verts st /\ tag st' = tag st /\
                 mirrorLog st' = mirrorLog st /\ flags st' = flags st /\
                 exists extra, queue' = queue ++ extra /\
                               (length extra <= length (c :: rest))%nat).
      { intros st1 Hv Ht Hl Hf Hr. apply IH in Hr.
        destruct Hr as (Hv' & Ht' & Hl' & Hf' & extra & -> & Hlen).
        split; [congruence|]. split; [congruence|]. split; [congruence|].
        split; [congruence|]. exists (c :: extra).
        rewrite <- app_assoc. split; [reflexivity|cbn; lia]. }
      destruct (Qltb _ (_closeDistance data)).
      * minv. eapply Hstep; [..|exact Hrun]; try reflexivity.
        unfold flags. cbn [searchData]. rewrite list_fmap_insert.
        apply list_insert_id. rewrite list_lookup_fmap, Hdata. reflexivity.
      * minv. eapply Hstep; [..|exact Hrun]; reflexivity.
    + apply IH in Hrun.
      destruct Hrun as (Hv' & Ht' & Hl' & Hf' & extra & -> & Hlen).
      repeat split; try assumption. exists extra. split; [reflexivity|cbn; lia].
Qed.

Lemma queueConnectedVerts_spec vlength i queue st queue' st' :
  queueConnectedVerts vlength i queue st = Ok (queue', st') ->
  verts st' = verts st /\ tag st' = tag st /\ mirrorLog st' = mirrorLog st /\
  flags st' = flags st /\
  exists v extra,
    verts st !! i = Some v /\ queue' = queue ++ extra /\
    (length extra <= length (link_edges v))%nat.
Proof.
  unfold queueConnectedVerts. intros H. minv.
  apply queueConnectedVerts_edges_spec in H.
  destruct H as (Hv & Ht & Hl & Hf & extra & -> & Hlen).
  repeat split; try assumption. eauto.
Qed.

Lemma queueConnectedVerts_fuel vlength i queue st :
  queueConnectedVerts vlength i queue st <> OutOfFuel.
Proof.
  unfold queueConnectedVerts. apply bind_fuel; [auto with fuel|].
  intros v st1 _. generalize (link_edges v) as edges. intros edges.
  revert queue st1. induction edges as [|c rest IH]; intros queue st1.
  - discriminate.
  - cbn [queueConnectedVerts_edges]. apply bind_fuel; [auto with fuel|].
    intros data st2 _. destruct (notMirrored data); [|apply IH].
    apply bind_fuel; [auto with fuel|]. intros v1 st3 _.
    apply bind_fuel; [auto with fuel|]. intros v2 st4 _.
    apply bind_fuel.
    + destruct (Qltb _ _); auto with fuel.
    + intros _ st5 _. apply IH.
Qed.

(** ** Reasoning about runs *)

Lemma wp_Ok {A} total (m : M A) Q st a st' :
  wp total m Q st -> m st = Ok (a, st') -> Q a st'.
Proof. intros H E. unfold wp in H. now rewrite E in H. Qed.

Lemma wp_fuel {A} (m : M A) Q st : wp true m Q st -> m st <> OutOfFuel.
Proof. unfold wp. intros H E. rewrite E in H. discriminate. Qed.

Lemma wp_spec {A} total (m : M A) (Q : A -> State -> Prop) st :
  (total = true -> m st <> OutOfFuel) ->
  (forall a st', m st = Ok (a, st') -> Q a st') ->
  wp total m Q st.
Proof.
  intros Hf Hs. unfold wp. destruct (m st) as [[a st']| |]; [auto|exact I|].
  destruct total; [|reflexivity]. now destruct Hf.
Qed.

Lemma wp_bind {A B} total (m : M A) (k : A -> M B) R Q st :
  wp total m R st ->
  (forall a st1, R a st1 -> wp total (k a) Q st1) ->
  wp total (bind m k) Q st.
Proof.
  unfold wp, bind. intros Hm Hk. destruct (m st) as [[a st1]| |]; [|exact I|exact Hm].
  now apply Hk.
Qed.

Lemma wp_ret {A} total (a : A) (Q : A -> State -> Prop) st :
  Q a st -> wp total (ret a) Q st.
Proof. auto. Qed.

Lemma wp_mono {A} total (m : M A) (R Q : A -> State -> Prop) st :
  wp total m R st -> (forall a st', R a st' -> Q a st') -> wp total m Q st.
Proof.
  unfold wp. intros Hm HQ. destruct (m st) as [[a st']| |]; auto.
Qed.

Lemma wp_get_sd total i (Q : SearchData -> State -> Prop) st :
  (forall d, searchData st !! i = Some d -> Q d st) -> wp total (get_sd i) Q st.
Proof.
  intros H. unfold wp, get_sd. destruct (searchData st !! i); [auto|exact I].
Qed.

Lemma wp_attr {A} total (o : option A) (Q : A -> State -> Prop) st :
  (forall a, o = Some a -> Q a st) -> wp total (attr o) Q st.
Proof. intros H. destruct o; [now apply H|exact I]. Qed.

Lemma wp_bind_get_sd {B} total i (k : SearchData -> M B) Q st :
  (forall d, searchData st !! i = Some d -> wp total (k d) Q st) ->
  wp total (bind (get_sd i) k) Q st.
Proof.
  intros H. unfold wp, bind, get_sd.
  destruct (searchData st !! i) as [d|]; [|exact I]. now apply H.
Qed.

Lemma wp_bind_attr {A B} total (o : option A) (k : A -> M B) Q st :
  (forall a, o = Some a -> wp total (k a) Q st) ->
  wp total (bind (attr o) k) Q st.
Proof. intros H. destruct o as [a|]; [now apply H|exact I]. Qed.

Lemma wp_bind_read {A B} total (f : State -> A) (k : A -> M B) Q st :
  wp total (k (f st)) Q st ->
  wp total (bind (fun st => Ok (f st, st)) k) Q st.
Proof. auto. Qed.

Lemma wp_for_each {A} total (l : list A) (body : A -> M unit) (I : State -> Prop) :
  (forall x st, x ∈ l -> I st -> wp total (body x) (fun _ => I) st) ->
  forall st, I st -> wp total (for_each l body) (fun _ => I) st.
Proof.
  induction l as [|x l IH]; intros Hbody st HI.
  - now apply wp_ret.
  - cbn [for_each]. eapply wp_bind.
    + apply Hbody; [apply elem_of_cons; now left|exact HI].
    + intros u st1 HI1. apply IH; [|exact HI1].
      intros y st2 Hy. apply Hbody. apply elem_of_cons. now right.
Qed.

(** ** The bound on the queue *)

Lemma potential_insert_true ds : forall fs i k,
  ds !! i = Some k -> fs !! i = Some false ->
  (potential ds (<[i:=true]> fs) + k = potential ds fs)%nat.
Proof.
  induction ds as [|d ds IH]; intros [|f fs] [|i] k Hd Hf; try discriminate.
  - cbn in Hd, Hf. apply Some_inj in Hd. apply Some_inj in Hf. subst. cbn. lia.
  - cbn in Hd, Hf. change (<[S i:=true]> (f :: fs)) with (f :: <[i:=true]> fs).
    cbn [potential]. specialize (IH fs i k Hd Hf). lia.
Qed.

Lemma flags_mono_cons b f b' f' :
  flags_mono (b :: f) (b' :: f') -> (b = true -> b' = true) /\ flags_mono f f'.
Proof.
  intros [Hlen H]. split.
  - intros ->. specialize (H 0%nat eq_refl). cbn in H. now apply Some_inj in H.
  - split; [cbn in Hlen; lia|]. intros i Hi. exact (H (S i) Hi).
Qed.

Lemma potential_mono ds : forall f f',
  flags_mono f f' -> (potential ds f' <= potential ds f)%nat.
Proof.
  induction ds as [|d ds IH]; intros f f' Hm; [destruct f'; cbn; lia|].
  destruct f as [|b f], f' as [|b' f'].
  - cbn. lia.
  - destruct Hm as [Hlen _]. discriminate.
  - destruct Hm as [Hlen _]. discriminate.
  - apply flags_mono_cons in Hm. destruct Hm as [Hb Hm].
    cbn [potential]. specialize (IH f f' Hm).
    destruct b, b'; lia.
Qed.

Lemma potential_bound ds : forall fs i k,
  fs !! i = Some true -> ds !! i = Some k ->
  (potential ds fs + k <= sum_list ds)%nat.
Proof.
  assert (Hle : forall ds fs, (potential ds fs <= sum_list ds)%nat).
  { clear. induction ds as [|d ds IH]; intros [|f fs]; cbn; try lia.
    specialize (IH fs). destruct f; lia. }
  induction ds as [|d ds IH]; intros [|f fs] [|i] k Hf Hd; try discriminate.
  - cbn in Hd, Hf. apply Some_inj in Hd. apply Some_inj in Hf. subst.
    cbn. specialize (Hle ds fs). lia.
  - cbn in Hd, Hf. cbn. specialize (IH fs i k Hf Hd). destruct f; lia.
Qed.

Lemma degs_lookup st i v :
  verts st !! i = Some v -> degs st !! i = Some (length (link_edges v)).
Proof. intros H. unfold degs. now rewrite list_lookup_fmap, H. Qed.

(** ** The searches *)

Lemma search_step_insert i st st' :
  verts st' = verts st -> tag st' = tag st -> mirrorLog st' = mirrorLog st ->
  flags st' = <[i:=true]> (flags st) -> search_step i st st'.
Proof. unfold search_step. auto. Qed.

Lemma search_step_trans i st st1 st2 :
  search_step i st st1 -> search_step i st1 st2 -> search_step i st st2.
Proof.
  intros (Hv1 & Ht1 & Hl1 & Hf1) (Hv2 & Ht2 & Hl2 & Hf2).
  split; [congruence|]. split; [congruence|]. split; [congruence|].
  destruct Hf2 as [Hf2|Hf2]; rewrite Hf2.
  - exact Hf1.
  - right. destruct Hf1 as [->| ->]; [reflexivity|apply list_insert_insert_eq].
Qed.

Lemma findClosestTri_frame cfg faces i st st' :
  findClosestTri cfg faces i st = Ok (tt, st') -> search_step i st st'.
Proof.
  unfold findClosestTri. revert st.
  induction faces as [|tri rest IH]; intros st Hrun.
  - cbn [for_each] in Hrun. minv. apply search_step_refl.
  - cbn [for_each] in Hrun. minv.
    match goal with H : triIntersection _ _ _ = Ok ?m |- _ => destruct m as [md|] end.
    + destruct (_intersected md).
      * minv. apply IH in Hrun.
        eapply search_step_trans; [|exact Hrun].
        apply search_step_insert; try reflexivity.
        unfold flags. cbn [searchData]. rewrite list_fmap_insert. f_equal.
        unfold mirrored. rewrite setClosestMirror_data.
        destruct (_mirrorData _); [|reflexivity]. now destruct (Qltb _ _).
      * minv. now apply IH.
    + minv. now apply IH.
Qed.

Lemma findClosestTri_fuel cfg faces i st :
  findClosestTri cfg faces i st <> OutOfFuel.
Proof.
  unfold findClosestTri. revert st.
  induction faces as [|tri rest IH]; intros st; [discriminate|].
  cbn [for_each]. apply bind_fuel; [|intros _ st1 _; apply IH].
  apply bind_fuel; [auto with fuel|]. intros v st1 _.
  apply bind_fuel; [apply lift_fuel; auto with fuel|]. intros m st2 _.
  destruct m as [md|]; [|auto with fuel].
  destruct (_intersected md); [|auto with fuel].
  apply bind_fuel; [auto with fuel|]. intros d st3 _. auto with fuel.
Qed.

Lemma findFirstTri_frame cfg faces fuel i lastMFace st st' :
  Forall (fun b => b = false) (tag st) ->
  findFirstTri cfg faces fuel i lastMFace st = Ok (tt, st') ->
  search_step i st st'.
Proof.
  intros Hall Hrun.
  destruct (findFirstTri_spec _ _ _ _ _ _ _ Hall Hrun) as (Hv & Hl & Ht & Hsd).
  split; [assumption|]. split; [assumption|]. split; [assumption|].
  unfold flags. destruct Hsd as [->|(d & md & Hd & Hi & ->)]; [now left|].
  right. now rewrite list_fmap_insert.
Qed.

(** ** Mirroring a vertex after a search *)

Lemma engine_inv_search i st st1 :
  engine_inv st -> search_step i st st1 -> engine_inv st1.
Proof.
  intros (Ht & Hnd & Hlog) Hs. pose proof (search_step_mono _ _ _ Hs) as [_ Hm].
  destruct Hs as (Hv1 & Ht1 & Hl1 & _).
  split; [now rewrite Ht1|]. split; [now rewrite Hl1|].
  intros j Hj. rewrite Hl1 in Hj. auto.
Qed.

Lemma evolves_refl st : evolves st st.
Proof.
  split; [reflexivity|]. split; [reflexivity|]. split; [apply flags_mono_refl|].
  now exists [].
Qed.

Lemma evolves_trans st st1 st2 : evolves st st1 -> evolves st1 st2 -> evolves st st2.
Proof.
  intros (Hd1 & Ht1 & Hf1 & l1 & Hl1) (Hd2 & Ht2 & Hf2 & l2 & Hl2).
  split; [congruence|]. split; [congruence|].
  split; [eapply flags_mono_trans; eassumption|].
  exists (l2 ++ l1). rewrite Hl2, Hl1. now rewrite app_assoc.
Qed.

Lemma evolves_search i st st1 : search_step i st st1 -> evolves st st1.
Proof.
  intros Hs. pose proof (search_step_mono _ _ _ Hs) as Hm.
  destruct Hs as (Hv1 & Ht1 & Hl1 & _).
  split; [unfold degs; now rewrite Hv1|]. split; [assumption|].
  split; [assumption|]. now exists [].
Qed.

Lemma mirror_after_search cfg i md force st st1 u st2 :
  engine_inv st ->
  flags st !! i = Some false ->
  search_step i st st1 ->
  flags st1 !! i = Some true ->
  mirrorVert cfg i md force st1 = Ok (u, st2) ->
  engine_inv st2 /\ evolves st st2 /\
  flags st2 = <[i:=true]> (flags st) /\
  exists v, verts st2 !! i = Some v /\
            degs st !! i = Some (length (link_edges v)).
Proof.
  intros Hinv Hfalse Hs Htrue Hrun.
  pose proof (engine_inv_search _ _ _ Hinv Hs) as (Ht1 & Hnd1 & Hlog1).
  pose proof (evolves_search _ _ _ Hs) as (Hd1 & Htag1 & Hm1 & _).
  destruct Hinv as (Ht & Hnd & Hlog).
  destruct Hs as (Hv1 & _ & Hl1 & Hf1).
  apply mirrorVert_spec in Hrun.
  destruct Hrun as (v & c & Hv & Hv2 & Hsd2 & Ht2 & Hl2).
  assert (Hflags2 : flags st2 = flags st1) by (unfold flags; now rewrite Hsd2).
  assert (Hdegs2 : degs st2 = degs st1).
  { unfold degs. rewrite Hv2, list_fmap_insert. cbn [link_edges].
    apply list_insert_id. now rewrite list_lookup_fmap, Hv. }
  assert (Hnotin : i ∉ mirrorLog st).
  { intros Hin. specialize (Hlog _ Hin). congruence. }
  split; [|split; [|split]].
  - split; [now rewrite Ht2|]. split.
    + rewrite Hl2, Hl1. apply NoDup_cons. auto.
    + intros j Hj. rewrite Hl2 in Hj. rewrite Hflags2.
      apply elem_of_cons in Hj. destruct Hj as [->|Hj]; auto.
  - split; [congruence|]. split; [congruence|].
    split; [now rewrite Hflags2|]. exists [i]. now rewrite Hl2, Hl1.
  - rewrite Hflags2. destruct Hf1 as [Hf1|Hf1]; [|exact Hf1].
    rewrite Hf1 in Htrue. congruence.
  - exists (mkVert c (link_edges v)). split.
    + rewrite Hv2. apply list_lookup_insert_eq. now apply lookup_lt_Some in Hv.
    + cbn [link_edges]. apply degs_lookup. now rewrite <- Hv1.
Qed.

(** ** The propagation loop *)

Section EngineInvariant.
Variable cfg : MirrorStatics.
Variable vlength : Vector -> Q.
Variable faces : list BMFace.
Variable total : bool.

Local Abbreviation loop := (mirrorConnected_loop cfg vlength faces).

Lemma engine_inv_same st st' :
  tag st' = tag st -> mirrorLog st' = mirrorLog st -> flags st' = flags st ->
  engine_inv st -> engine_inv st'.
Proof.
  intros Ht Hl Hf (H1 & H2 & H3). unfold engine_inv. rewrite Ht, Hl, Hf. auto.
Qed.

Lemma mirror_and_queue_wp fuel :
  (forall q it st,
     engine_inv st ->
     (total = true ->
      (length q + potential (degs st) (flags st) + length (tag st) < fuel)%nat) ->
     wp total (loop fuel q it) (fun _ st' => engine_inv st' /\ evolves st st') st) ->
  forall i md force q it st st1,
    engine_inv st ->
    flags st !! i = Some false ->
    search_step i st st1 ->
    flags st1 !! i = Some true ->
    (total = true ->
     (length q + potential (degs st) (flags st) + length (tag st) < fuel)%nat) ->
    wp total (mirrorVert cfg i md force ;;;
              q' <~ queueConnectedVerts vlength i q ;;
              loop fuel q' it)
       (fun _ st' => engine_inv st' /\ evolves st st') st1.
Proof.
  intros IHloop i md force q it st st1 Hinv Hfalse Hs Htrue Hfuel.
  eapply wp_bind with
    (R := fun _ st2 =>
            engine_inv st2 /\ evolves st st2 /\
            flags st2 = <[i:=true]> (flags st) /\
            exists v, verts st2 !! i = Some v /\
                      degs st !! i = Some (length (link_edges v))).
  { apply wp_spec; [intros _; apply mirrorVert_fuel|].
    intros u st2 Hrun. eapply mirror_after_search; eassumption. }
  intros u st2 (Hinv2 & Hev2 & Hf2 & v & Hv2 & Hdeg).
  eapply wp_bind with
    (R := fun q' st3 =>
            engine_inv st3 /\ evolves st st3 /\
            flags st3 = <[i:=true]> (flags st) /\
            (length q' <= length q + length (link_edges v))%nat).
  { apply wp_spec; [intros _; apply queueConnectedVerts_fuel|].
    intros q' st3 Hrun. apply queueConnectedVerts_spec in Hrun.
    destruct Hrun as (Hv3 & Ht3 & Hl3 & Hf3 & v' & extra & Hv' & -> & Hlen).
    same_lookup.
    split; [now apply (engine_inv_same st2)|]. split.
    - eapply evolves_trans; [exact Hev2|].
      split; [unfold degs; now rewrite Hv3|]. split; [assumption|].
      split; [rewrite Hf3; apply flags_mono_refl|]. exists []. now rewrite Hl3.
    - split; [congruence|]. rewrite length_app. lia. }
  intros q' st3 (Hinv3 & Hev3 & Hf3 & Hlen).
  eapply wp_mono.
  - apply IHloop; [exact Hinv3|]. intros Htot. specialize (Hfuel Htot).
    destruct Hev3 as (Hd3 & Ht3 & _ & _). rewrite Hd3, Hf3, Ht3.
    pose proof (potential_insert_true _ _ _ _ Hdeg Hfalse). lia.
  - intros u' st' [Hinv' Hev']. split; [exact Hinv'|].
    eapply evolves_trans; eassumption.
Qed.
Lemma mirrorConnected_loop_wp fuel :
  forall q it st,
    engine_inv st ->
    (total = true ->
     (length q + potential (degs st) (flags st) + length (tag st) < fuel)%nat) ->
    wp total (loop fuel q it) (fun _ st' => engine_inv st' /\ evolves st st') st.
Proof.
  induction fuel as [|fuel IH]; intros q it st Hinv Hfuel.
  { unfold wp. cbn. destruct total; [|reflexivity]. specialize (Hfuel eq_refl). lia. }
  cbn [mirrorConnected_loop]. destruct q as [|i q].
  { apply wp_ret. split; [exact Hinv|apply evolves_refl]. }
  assert (Hfuel' : total = true ->
            (length q + potential (degs st) (flags st) + length (tag st) < fuel)%nat).
  { intros Htot. specialize (Hfuel Htot). cbn [length] in Hfuel. lia. }
  apply wp_bind_get_sd. intros data Hdata.
  rewrite mirrored_notMirrored. destruct (mirrored data) eqn:Emir; cbn [negb].
  { now apply IH. }
  assert (Hfalse : flags st !! i = Some false).
  { rewrite <- Emir. now apply flags_lookup. }
  apply wp_bind_attr. intros closeVert _.
  apply wp_bind_get_sd. intros cdata _.
  eapply wp_bind with
    (R := fun mData st1 =>
            search_step i st st1 /\
            (forall md, mData = Some md -> flags st1 !! i = Some true)).
  { destruct it.
    - apply wp_bind_attr. intros last _.
      eapply wp_bind with (R := fun _ st1 => search_step i st st1).
      + apply wp_spec.
        * intros Htot. apply findFirstTri_fuel; [apply Hinv|].
          specialize (Hfuel Htot). lia.
        * intros [] st1 Hrun. eapply findFirstTri_frame; [apply Hinv|exact Hrun].
      + intros u st1 Hs. apply wp_bind_get_sd. intros data' Hdata'.
        apply wp_ret. split; [exact Hs|]. intros md Hmd.
        rewrite (flags_lookup _ _ _ Hdata'). unfold mirrored. now rewrite Hmd.
    - apply wp_ret. split; [apply search_step_refl|discriminate]. }
  intros mData st1 [Hs Hsome].
  match goal with
  | |- wp _ (match mData with Some _ => _ | None => ?fb end) _ _ =>
      assert (Hfallback : wp total fb
                (fun _ st' => engine_inv st' /\ evolves st st') st1)
  end.
  { destruct (negb (onlyIntersecting cfg)).
    - apply wp_bind_attr. intros last _.
      eapply wp_bind with
        (R := fun _ st2 => search_step i st st2 /\ flags st2 !! i = Some true).
      + apply wp_spec; [intros _; apply findDistance_fuel|].
        intros u st2 Hrun. apply findDistance_spec in Hrun.
        destruct Hrun as (Hv2 & Ht2 & Hl2 & Hf2 & d2 & Hd2 & Hm2).
        split.
        * eapply search_step_trans; [exact Hs|].
          now apply search_step_insert.
        * rewrite (flags_lookup _ _ _ Hd2). now rewrite Hm2.
      + intros u st2 [Hs2 Htrue2].
        apply wp_bind_get_sd. intros data' _.
        apply wp_bind_attr. intros md' _.
        now apply (mirror_and_queue_wp fuel IH i md' true q it st st2).
    - eapply wp_mono.
      + apply IH; [eapply engine_inv_search; eassumption|].
        intros Htot. specialize (Hfuel' Htot).
        pose proof (evolves_search _ _ _ Hs) as (Hd1 & Ht1 & Hm1 & _).
        rewrite Hd1, Ht1.
        pose proof (potential_mono (degs st) _ _ Hm1). lia.
      + intros u st' [Hinv' Hev']. split; [exact Hinv'|].
        eapply evolves_trans; [|exact Hev']. eapply evolves_search; eassumption. }
  destruct mData as [md|]; [|exact Hfallback].
  destruct (_intersected md); [|exact Hfallback].
  apply (mirror_and_queue_wp fuel IH i md false q it st st1); eauto.
Qed.
Lemma mirrorConnected_wp fuel i it st :
  engine_inv st ->
  flags st !! i = Some true ->
  (total = true -> (sum_list (degs st) + length (tag st) < fuel)%nat) ->
  wp total (mirrorConnected cfg vlength faces fuel i it)
     (fun _ st' => engine_inv st' /\ evolves st st') st.
Proof.
  intros Hinv Htrue Hfuel. unfold mirrorConnected.
  eapply wp_bind with
    (R := fun q st1 =>
            engine_inv st1 /\ evolves st st1 /\ flags st1 = flags st /\
            exists v, verts st !! i = Some v /\
                      (length q <= length (link_edges v))%nat).
  { apply wp_spec; [intros _; apply queueConnectedVerts_fuel|].
    intros q st1 Hrun. apply queueConnectedVerts_spec in Hrun.
    destruct Hrun as (Hv1 & Ht1 & Hl1 & Hf1 & v & extra & Hv & -> & Hlen).
    split; [now apply (engine_inv_same st)|]. split.
    - split; [unfold degs; now rewrite Hv1|]. split; [assumption|].
      split; [rewrite Hf1; apply flags_mono_refl|]. exists []. now rewrite Hl1.
    - split; [assumption|]. exists v. split; [assumption|]. exact Hlen. }
  intros q st1 (Hinv1 & Hev1 & Hf1 & v & Hv & Hlen).
  eapply wp_mono.
  - apply mirrorConnected_loop_wp; [exact Hinv1|].
    intros Htot. specialize (Hfuel Htot).
    destruct Hev1 as (Hd1 & Ht1 & _ & _). rewrite Hd1, Hf1, Ht1.
    pose proof (potential_bound _ _ _ _ Htrue (degs_lookup _ _ _ Hv)). lia.
  - intros u st' [Hinv' Hev']. split; [exact Hinv'|].
    eapply evolves_trans; eassumption.
Qed.

Lemma mirrorMesh_seed_wp fuel st :
  engine_inv st ->
  (total = true -> (sum_list (degs st) + length (tag st) < fuel)%nat) ->
  wp total (mirrorMesh_seed cfg vlength faces fuel)
     (fun _ st' => engine_inv st' /\ evolves st st') st.
Proof.
  intros Hinv Hfuel. unfold mirrorMesh_seed. apply wp_bind_read.
  apply (wp_for_each total _ _ (fun st' => engine_inv st' /\ evolves st st'));
    [|split; [exact Hinv|apply evolves_refl]].
  intros i st1 _ [Hinv1 Hev1].
  apply wp_bind_get_sd. intros data Hdata.
  rewrite mirrored_notMirrored. destruct (mirrored data) eqn:Emir; cbn [negb].
  { now apply wp_ret. }
  assert (Hfalse : flags st1 !! i = Some false).
  { rewrite <- Emir. now apply flags_lookup. }
  eapply wp_bind with (R := fun _ st2 => search_step i st1 st2).
  { apply wp_spec; [intros _; apply findClosestTri_fuel|].
    intros [] st2 Hrun. now apply findClosestTri_frame in Hrun. }
  intros u st2 Hs. apply wp_bind_get_sd. intros data' Hdata'.
  assert (Hquiet : engine_inv st2 /\ evolves st st2).
  { split; [eapply engine_inv_search; eassumption|].
    eapply evolves_trans; [exact Hev1|]. eapply evolves_search; eassumption. }
  destruct (_mirrorData data') as [mData|] eqn:EmData; [|now apply wp_ret].
  destruct (_intersected mData); [|now apply wp_ret].
  eapply wp_bind with
    (R := fun _ st3 =>
            engine_inv st3 /\ evolves st1 st3 /\
            flags st3 = <[i:=true]> (flags st1)).
  { apply wp_spec; [intros _; apply mirrorVert_fuel|].
    intros u' st3 Hrun.
    destruct (mirror_after_search cfg i mData false st1 st2 u' st3)
      as (H1 & H2 & H3 & _); auto.
    rewrite (flags_lookup _ _ _ Hdata'). unfold mirrored. now rewrite EmData. }
  intros u' st3 (Hinv3 & Hev3 & Hf3).
  assert (Hev : evolves st st3) by (eapply evolves_trans; eassumption).
  destruct (negb (closestOnly cfg)); [|now apply wp_ret].
  eapply wp_mono.
  - apply mirrorConnected_wp; [exact Hinv3| |].
    + rewrite Hf3. apply list_lookup_insert_eq. now apply lookup_lt_Some in Hfalse.
    + intros Htot. specialize (Hfuel Htot).
      destruct Hev as (Hd & Ht & _ & _). now rewrite Hd, Ht.
  - intros u'' st' [Hinv' Hev']. split; [exact Hinv'|].
    eapply evolves_trans; eassumption.
Qed.

Lemma mirrorNonIntersecting_wp fuel n st :
  engine_inv st ->
  (total = true -> (sum_list (degs st) + length (tag st) < fuel)%nat) ->
  wp total (mirrorNonIntersecting cfg vlength faces fuel n)
     (fun _ st' => engine_inv st' /\ evolves st st') st.
Proof.
  intros Hinv Hfuel. unfold mirrorNonIntersecting.
  assert (Hid : engine_inv st /\ evolves st st)
    by (split; [exact Hinv|apply evolves_refl]).
  destruct (0 <? n)%nat; [|now apply wp_ret].
  apply wp_bind_read.
  apply (wp_for_each total _ _ (fun st' => engine_inv st' /\ evolves st st'));
    [|exact Hid].
  intros i st1 _ [Hinv1 Hev1].
  apply wp_bind_get_sd. intros data Hdata.
  destruct (mirrored data) eqn:Emir; [|now apply wp_ret].
  eapply wp_mono.
  - apply mirrorConnected_wp; [exact Hinv1| |].
    + rewrite <- Emir. now apply flags_lookup.
    + intros Htot. specialize (Hfuel Htot).
      destruct Hev1 as (Hd & Ht & _ & _). now rewrite Hd, Ht.
  - intros u st' [Hinv' Hev']. split; [exact Hinv'|].
    eapply evolves_trans; eassumption.
Qed.
Lemma count_notMirrored_flags (sd : list SearchData) :
  count_notMirrored sd = count_false (mirrored <$> sd).
Proof.
  unfold count_notMirrored. induction sd as [|d sd IH]; [reflexivity|].
  rewrite filter_cons, fmap_cons. cbn [count_false].
  rewrite mirrored_notMirrored.
  destruct (mirrored d); cbn [negb]; case_decide; try discriminate;
    try congruence; cbn [length]; now rewrite IH.
Qed.

Lemma count_false_mono (f : list bool) : forall f',
  flags_mono f f' -> (count_false f' <= count_false f)%nat.
Proof.
  induction f as [|b f IH]; intros [|b' f'] Hm.
  - cbn. lia.
  - destruct Hm as [Hlen _]. discriminate.
  - destruct Hm as [Hlen _]. discriminate.
  - apply flags_mono_cons in Hm. destruct Hm as [Hb Hm].
    cbn [count_false]. specialize (IH f' Hm). destruct b, b'; lia.
Qed.

Lemma init_searchData_wp st :
  Forall (fun b => b = false) (tag st) ->
  mirrorLog st = [] ->
  wp total init_searchData
     (fun _ st0 =>
        engine_inv st0 /\ degs st0 = degs st /\ tag st0 = tag st /\
        length (searchData st0) = length (verts st)) st.
Proof.
  intros Htags Hlog.
  unfold wp, init_searchData. cbn [verts searchData tag mirrorLog].
  split; [|split; [reflexivity|split; [reflexivity|apply length_replicate]]].
  split; [exact Htags|]. cbn [mirrorLog]. rewrite Hlog.
  split; [constructor|]. intros i Hi. now apply elem_of_nil in Hi.
Qed.

Lemma init_seed_wp fuel st :
  Forall (fun b => b = false) (tag st) ->
  mirrorLog st = [] ->
  (total = true -> (sum_list (degs st) + length (tag st) < fuel)%nat) ->
  wp total (init_searchData ;;; mirrorMesh_seed cfg vlength faces fuel)
     (fun _ st1 =>
        engine_inv st1 /\ degs st1 = degs st /\ tag st1 = tag st /\
        length (searchData st1) = length (verts st)) st.
Proof.
  intros Htags Hlog Hfuel.
  eapply wp_bind; [now apply init_searchData_wp|]. cbv beta.
  intros u st0 (Hinv0 & Hd0 & Ht0 & Hlen0).
  eapply wp_mono.
  - apply mirrorMesh_seed_wp; [exact Hinv0|]. now rewrite Hd0, Ht0.
  - intros u' st1 (Hinv1 & Hd1 & Ht1 & [Hl1 _] & _).
    split; [exact Hinv1|]. split; [congruence|]. split; [congruence|].
    unfold flags in Hl1. rewrite !length_fmap in Hl1. congruence.
Qed.

Lemma mirrorMesh_wp fuel st :
  Forall (fun b => b = false) (tag st) ->
  mirrorLog st = [] ->
  (total = true -> (sum_list (degs st) + length (tag st) < fuel)%nat) ->
  wp total (mirrorMesh cfg vlength faces fuel)
     (fun n st' =>
        engine_inv st' /\ degs st' = degs st /\ tag st' = tag st /\
        (n <= length (verts st))%nat /\
        (count_notMirrored (searchData st') <= n)%nat) st.
Proof.
  intros Htags Hlog Hfuel. unfold mirrorMesh.
  eapply wp_bind; [now apply init_searchData_wp|]. cbv beta.
  intros u st0 (Hinv0 & Hd0 & Ht0 & Hlen0).
  eapply wp_bind with
    (R := fun _ st1 =>
            engine_inv st1 /\ degs st1 = degs st /\ tag st1 = tag st /\
            length (searchData st1) = length (verts st)).
  { eapply wp_mono.
    - apply mirrorMesh_seed_wp; [exact Hinv0|]. now rewrite Hd0, Ht0.
    - intros u' st1 (Hinv1 & Hd1 & Ht1 & [Hl1 _] & _).
      split; [exact Hinv1|]. split; [congruence|]. split; [congruence|].
      unfold flags in Hl1. rewrite !length_fmap in Hl1. congruence. }
  intros u1 st1 (Hinv1 & Hd1 & Ht1 & Hlen1).
  apply wp_bind_read.
  assert (Hn : (count_notMirrored (searchData st1) <= length (verts st))%nat).
  { rewrite <- Hlen1. unfold count_notMirrored. apply length_filter. }
  eapply wp_bind with (R := fun _ st' => engine_inv st' /\ evolves st1 st').
  - destruct (closestOnly cfg && negb (onlyIntersecting cfg)).
    + apply mirrorNonIntersecting_wp; [exact Hinv1|]. now rewrite Hd1, Ht1.
    + apply wp_ret. split; [exact Hinv1|apply evolves_refl].
  - intros u' st' (Hinv' & Hd' & Ht' & Hm' & _). apply wp_ret.
    split; [exact Hinv'|]. split; [congruence|]. split; [congruence|].
    split; [exact Hn|]. rewrite !count_notMirrored_flags.
    now apply count_false_mono.
Qed.
End EngineInvariant.

(** ** mirrorMesh *)

Lemma mirrorMesh_phases cfg vlength faces fuel st n st' :
  mirrorMesh cfg vlength faces fuel st = Ok (n, st') ->
  exists st1,
    (init_searchData ;;; mirrorMesh_seed cfg vlength faces fuel) st = Ok (tt, st1) /\
    n = count_notMirrored (searchData st1) /\
    if closestOnly cfg && negb (onlyIntersecting cfg)
    then mirrorNonIntersecting cfg vlength faces fuel n st1 = Ok (tt, st')
    else st' = st1.
Proof.
  unfold mirrorMesh. intros H.
  apply bind_Ok in H. destruct H as ([] & st0 & H0 & H).
  apply bind_Ok in H. destruct H as ([] & st1 & H1 & H).
  apply bind_Ok in H. destruct H as (n1 & st1' & Hn & H).
  apply Ok_inj in Hn. inversion Hn; subst n1 st1'. clear Hn.
  apply bind_Ok in H. destruct H as ([] & st2 & H2 & H).
  apply ret_Ok in H. destruct H as [-> ->].
  exists st1. split; [|split; [reflexivity|]].
  - unfold bind. now rewrite H0.
  - destruct (closestOnly cfg && negb (onlyIntersecting cfg)); [exact H2|].
    apply ret_Ok in H2. now destruct H2.
Qed.

(** C9.  In a call of [mirrorMesh] that starts with an empty trace and no
    tagged face, and returns, no vertex has been handed to [mirrorVert]
    twice, and every vertex that has been handed to it has a record in its
    [SearchData].  With more fuel than the number of edge ends of the mesh
    plus the number of mirror faces, the call does not run out of fuel. *)
Theorem mirrorMesh_mirrors_once cfg vlength faces fuel st :
  Forall (fun b => b = false) (tag st) ->
  mirrorLog st = [] ->
  (forall n st',
     mirrorMesh cfg vlength faces fuel st = Ok (n, st') ->
     NoDup (mirrorLog st') /\
     forall i, i ∈ mirrorLog st' ->
               exists d, searchData st' !! i = Some d /\ mirrored d = true) /\
  ((sum_list (degs st) + length (tag st) < fuel)%nat ->
   mirrorMesh cfg vlength faces fuel st <> OutOfFuel).
Proof.
  intros Htags Hlog. split.
  - intros n st' Hrun.
    pose proof (mirrorMesh_wp cfg vlength faces false fuel st Htags Hlog) as H.
    eapply wp_Ok in H; [|discriminate|exact Hrun].
    destruct H as ((_ & Hnd & Hmem) & _). split; [exact Hnd|].
    intros i Hi. now apply flags_lookup_inv, Hmem.
  - intros Hfuel. eapply wp_fuel.
    apply (mirrorMesh_wp cfg vlength faces true fuel st Htags Hlog). auto.
Qed.

(** Three vertices joined in a ring, the first over the mirror triangle:
    the other two are reached twice by the propagation and mirrored once. *)
Lemma mirrorMesh_mirrors_once_witness :
  exists n st',
    mirrorMesh statics_propagate vlength_model [tri_a] 8 ring_state = Ok (n, st') /\
    NoDup (mirrorLog st').
Proof.
  assert (E : exists n st',
             mirrorMesh statics_propagate vlength_model [tri_a] 8 ring_state
             = Ok (n, st'))
    by (vm_compute; eexists _, _; reflexivity).
  destruct E as (n & st' & E). exists n, st'. split; [exact E|].
  refine (proj1 (proj1 (mirrorMesh_mirrors_once statics_propagate vlength_model
                          [tri_a] 8 ring_state _ _) n st' E)).
  - repeat constructor.
  - reflexivity.
Defined.

Example mirrorMesh_ring_trace :
  match mirrorMesh statics_propagate vlength_model [tri_a] 8 ring_state with
  | Ok (n, st') => (n, mirrorLog st')
  | _ => (0%nat, [])
  end = (0%nat, [2; 1; 0]%nat).
Proof. vm_compute. reflexivity. Qed.

(** ** execute *)

Lemma degs_length st st' : degs st' = degs st -> length (verts st') = length (verts st).
Proof.
  intros H. apply (f_equal length) in H. unfold degs in H.
  now rewrite !length_fmap in H.
Qed.

Lemma execute_object_fuel cfg vlength fuel mMesh ob tags :
  Forall (fun b => b = false) tags ->
  (sum_list ((fun v => length (link_edges v)) <$> bm_verts ob) + length tags < fuel)%nat ->
  execute_object cfg vlength fuel mMesh ob tags <> OutOfFuel.
Proof.
  intros Htags Hfuel. unfold execute_object.
  pose proof (mirrorMesh_wp cfg vlength mMesh true fuel
                (mkState (bm_verts ob) [] tags []) Htags eq_refl (fun _ => Hfuel)) as H.
  apply wp_fuel in H.
  destruct (mirrorMesh _ _ _ _ _) as [[n st']| |]; [|discriminate|contradiction].
  cbn [obind fst snd]. destruct (n <? length (verts st'))%nat; discriminate.
Qed.

(** C2, as amended.  The result of [mirrorMesh] for a mesh is the number of
    vertices without a record when the first loop (seed search, direct
    mirroring and propagation) has ended; it is computed before the sweep
    over the non-intersecting vertices, which does not change it.  It is at
    most the number of vertices, and at least the number of vertices still
    without a record when the call returns, the two being equal when the
    sweep is not enabled.  When the result equals the number of vertices the
    mesh is reported as not intersecting and no object is created;
    otherwise a copy with the mirrored positions and flipped faces is
    created, with a warning exactly when the result is not zero.  The tags
    of the mirror mesh are left as they were. *)
Theorem execute_object_result cfg vlength fuel mMesh ob tags res reports tags' :
  Forall (fun b => b = false) tags ->
  execute_object cfg vlength fuel mMesh ob tags = Ok (res, reports, tags') ->
  let st := mkState (bm_verts ob) [] tags [] in
  exists n st1 st',
    (init_searchData ;;; mirrorMesh_seed cfg vlength mMesh fuel) st = Ok (tt, st1) /\
    n = count_notMirrored (searchData st1) /\
    mirrorMesh cfg vlength mMesh fuel st = Ok (n, st') /\
    (closestOnly cfg && negb (onlyIntersecting cfg) = false -> st' = st1) /\
    (count_notMirrored (searchData st') <= n)%nat /\
    (n <= length (bm_verts ob))%nat /\
    tags' = tags /\
    (n = length (bm_verts ob) ->
     res = None /\ reports = [WARNING_no_mirror_created (ob_name ob)]) /\
    (n <> length (bm_verts ob) ->
     res = Some (mkMirrorOb (ob_name ob ++ "_Mirror") (ob_name ob ++ "_MirrorMesh")
                            (map (fun v => to_local ob (co v)) (verts st'))
                            (flipNormals (bm_faces ob))) /\
     reports = if (n =? 0)%nat then []
               else [WARNING_not_intersecting (ob_name ob) n]).
Proof.
  intros Htags Hrun st. unfold execute_object in Hrun. fold st in Hrun.
  destruct (mirrorMesh cfg vlength mMesh fuel st) as [[n st']| |] eqn:E;
    try discriminate.
  cbn [obind fst snd] in Hrun.
  pose proof (mirrorMesh_wp cfg vlength mMesh false fuel st Htags eq_refl) as H.
  eapply wp_Ok in H; [|discriminate|exact E].
  destruct H as (_ & Hd & Ht & Hn & Hcount).
  apply degs_length in Hd.
  change (length (verts st)) with (length (bm_verts ob)) in Hd, Hn.
  change (tag st) with tags in Ht.
  destruct (mirrorMesh_phases _ _ _ _ _ _ _ E) as (st1 & Hseed & Hn1 & Hsweep).
  exists n, st1, st'.
  split; [exact Hseed|]. split; [exact Hn1|]. split; [reflexivity|].
  split.
  { intros Hoff. now rewrite Hoff in Hsweep. }
  split; [exact Hcount|]. split; [exact Hn|].
  rewrite Hd in Hrun.
  destruct (n <? length (bm_verts ob))%nat eqn:Elt.
  - apply Nat.ltb_lt in Elt. apply Ok_inj in Hrun.
    assert (Hres : res = fst (fst (res, reports, tags'))) by reflexivity.
    assert (Hrep : reports = snd (fst (res, reports, tags'))) by reflexivity.
    assert (Htg : tags' = snd (res, reports, tags')) by reflexivity.
    rewrite <- Hrun in Hres, Hrep, Htg. cbn [fst snd] in Hres, Hrep, Htg.
    split; [congruence|]. split; [lia|]. intros _.
    split; [exact Hres|]. rewrite Hrep. now destruct n.
  - apply Nat.ltb_ge in Elt. apply Ok_inj in Hrun.
    assert (Hres : res = fst (fst (res, reports, tags'))) by reflexivity.
    assert (Hrep : reports = snd (fst (res, reports, tags'))) by reflexivity.
    assert (Htg : tags' = snd (res, reports, tags')) by reflexivity.
    rewrite <- Hrun in Hres, Hrep, Htg. cbn [fst snd] in Hres, Hrep, Htg.
    split; [congruence|]. split; [auto|]. intros Hne. lia.
Qed.

(** The two vertices of [pair_object] under the sweep setting. *)
Lemma execute_object_result_witness :
  exists res reports tags' n st',
    execute_object statics_sweep vlength_model 8 [tri_a] pair_object [false]
    = Ok (res, reports, tags') /\
    mirrorMesh statics_sweep vlength_model [tri_a] 8 pair_state = Ok (n, st') /\
    (count_notMirrored (searchData st') <= n)%nat /\
    (n <= 2)%nat /\ tags' = [false].
Proof.
  assert (E : exists res reports tags',
             execute_object statics_sweep vlength_model 8 [tri_a] pair_object [false]
             = Ok (res, reports, tags'))
    by (vm_compute; eexists _, _, _; reflexivity).
  destruct E as (res & reports & tags' & E).
  destruct (execute_object_result statics_sweep vlength_model 8 [tri_a] pair_object
              [false] res reports tags' ltac:(repeat constructor) E)
    as (n & st1 & st' & _ & _ & Hrun & _ & Hc & Hn & Ht & _).
  exists res, reports, tags', n, st'. auto.
Defined.

(** C2, counterexample.  Under the sweep setting (closest intersection
    only, non-intersecting vertices mirrored too) the second vertex of
    [pair_object] is mirrored by the sweep: both vertices are mirrored and
    none is left without a record, yet [mirrorMesh] returns 1 and the object
    is created with a warning about one vertex. *)
Lemma mirrorMesh_count_before_sweep :
  exists st' ob,
    mirrorMesh statics_sweep vlength_model [tri_a] 8 pair_state = Ok (1%nat, st') /\
    mirrorLog st' = [1; 0]%nat /\
    count_notMirrored (searchData st') = 0%nat /\
    execute_object statics_sweep vlength_model 8 [tri_a] pair_object [false]
    = Ok (Some ob, [WARNING_not_intersecting "ob" 1], [false]).
Proof.
  vm_compute. eexists _, _. repeat split; reflexivity.
Qed.

Lemma execute_object_tags cfg vlength fuel mMesh ob tags r :
  Forall (fun b => b = false) tags ->
  execute_object cfg vlength fuel mMesh ob tags = Ok r ->
  snd r = tags.
Proof.
  intros Htags Hrun. unfold execute_object in Hrun.
  destruct (mirrorMesh cfg vlength mMesh fuel (mkState (bm_verts ob) [] tags []))
    as [[n st']| |] eqn:E; try discriminate.
  cbn [obind fst snd] in Hrun.
  pose proof (mirrorMesh_wp cfg vlength mMesh false fuel
                (mkState (bm_verts ob) [] tags []) Htags eq_refl) as H.
  eapply wp_Ok in H; [|discriminate|exact E].
  destruct H as (_ & _ & Ht & _). cbn [tag] in Ht.
  destruct (n <? length (verts st'))%nat; apply Ok_inj in Hrun; subst r;
    exact Ht.
Qed.

(** Every selected mesh is mirrored against the mirror mesh with the tags it
    had at the start of [execute]: what was done for one mesh does not reach
    the next through the tags. *)
Lemma execute_loop_tags cfg vlength fuel ob_act ob rest tags :
  Forall (fun b => b = false) tags ->
  execute_loop cfg vlength fuel ob_act (ob :: rest) tags
  = if ob_is_mesh ob && negb (ob_id ob =? ob_id ob_act)%nat then
      let? r := execute_object cfg vlength fuel (mirror_faces ob_act) ob tags in
      let? r' := execute_loop cfg vlength fuel ob_act rest tags in
      Ok (match fst (fst r) with
          | Some o => o :: fst r'
          | None => fst r'
          end, snd (fst r) ++ snd r')
    else execute_loop cfg vlength fuel ob_act rest tags.
Proof.
  intros Htags. cbn [execute_loop].
  destruct (ob_is_mesh ob && negb (ob_id ob =? ob_id ob_act)%nat); [|reflexivity].
  destruct (execute_object cfg vlength fuel (mirror_faces ob_act) ob tags)
    as [r| |] eqn:E; try reflexivity.
  cbn [obind]. now rewrite (execute_object_tags _ _ _ _ _ _ _ Htags E).
Qed.

Lemma execute_without_mesh vlength fuel self old selected :
  execute vlength fuel self old None selected
  = Ok (CANCELLED, [], [ERROR_no_mesh_selected]).
Proof. reflexivity. Qed.

(** The intersection bias used by a run is the class attribute: the
    property [biasValue] of the operator is not read. *)
Lemma set_statics_bias self old :
  bias (set_statics self old) = bias old /\
  biasNeg (set_statics self old) = - bias old.
Proof. split; reflexivity. Qed.

(** A single flat mirror triangle in the plane z = 0 and a vertex at
    (0,0,1): in flat mode the vertex is moved to (0,0,-1). *)
Example mirror_flat_scenario :
  match mirrorMesh statics_flat vlength_model [tri_a] 2
                   (mkState [mkVert (mkVector 0 0 1) []] [] [false] []) with
  | Ok (n, st') => (n, co <$> verts st')
  | _ => (1%nat, [])
  end = (0%nat, [mkVector 0 0 (-1)]).
Proof. vm_compute. reflexivity. Qed.

(** * Further properties of the mirror engine *)

(** ** The mirror vectors *)

(** Evaluate a closed run and give its value as the witness of an
    existential goal. *)
Ltac exists_result e :=
  let r := eval vm_compute in e in
  match r with
  | Ok (Some ?x) => exists x
  | Ok ?x => exists x
  end.

Lemma fdiv_Ok (a b q : Q) : fdiv a b = Ok q -> ~ b == 0 /\ q = a / b.
Proof.
  unfold fdiv. destruct (Qeq_bool b 0) eqn:E; [discriminate|].
  apply Qeq_bool_neq in E. intros H. apply Ok_inj in H. auto.
Qed.

Lemma plane_t_step (vertCo mVec : Vector) (mTri : BMFace) :
  plane_t (vadd vertCo mVec) mTri == plane_t vertCo mTri + dot (fnormal mTri) mVec.
Proof. unfold plane_t, dot, vadd, vsub. cbn [vx vy vz]. ring. Qed.

Lemma dot_vscale (n a : Vector) (k : Q) : dot n (vscale k a) == k * dot n a.
Proof. unfold dot, vscale. cbn [vx vy vz]. ring. Qed.

(** Along the face normal the smooth mirror vector measures [-2 t]. *)
Lemma calcSmoothMirrorVector_dot md mVec :
  calcSmoothMirrorVector md = Ok mVec ->
  dot (fnormal (_mirrorTri md)) mVec == -2 * _t md.
Proof.
  unfold calcSmoothMirrorVector. intros Hvec.
  destruct (fdiv _ _) as [q| |] eqn:E; try discriminate.
  cbn [obind] in Hvec. apply Ok_inj in Hvec. subst mVec.
  apply fdiv_Ok in E. destruct E as [Hnz ->].
  rewrite dot_vscale. field. exact Hnz.
Qed.

(** X5.  The smooth mirror vector moves a vertex to the opposite signed distance
    from the plane of the face, whatever the corner normals and the length
    of the face normal. *)
Theorem smooth_mirror_distance cfg vertCo mTri md mVec :
  triIntersection cfg vertCo mTri = Ok (Some md) ->
  calcSmoothMirrorVector md = Ok mVec ->
  plane_t (vadd vertCo mVec) mTri == - plane_t vertCo mTri.
Proof.
  intros Hmd Hvec. destruct (triIntersection_t _ _ _ _ Hmd) as [Ht Htri].
  apply calcSmoothMirrorVector_dot in Hvec. rewrite Htri, Ht in Hvec.
  rewrite plane_t_step, Hvec. ring.
Qed.

Lemma smooth_mirror_distance_witness :
  exists md mVec,
    triIntersection statics_default (mkVector 1 1 1) tri_fan = Ok (Some md) /\
    calcSmoothMirrorVector md = Ok mVec /\
    plane_t (vadd (mkVector 1 1 1) mVec) tri_fan == - (1).
Proof.
  exists_result (triIntersection statics_default (mkVector 1 1 1) tri_fan).
  match goal with |- exists _, _ = Ok (Some ?md) /\ _ =>
    exists_result (calcSmoothMirrorVector md) end.
  match goal with |- ?A /\ ?B /\ _ =>
    assert (E1 : A) by (vm_compute; reflexivity);
    assert (E2 : B) by (vm_compute; reflexivity) end.
  split; [exact E1|]. split; [exact E2|].
  rewrite (smooth_mirror_distance _ _ _ _ _ E1 E2).
  vm_compute. reflexivity.
Defined.

Lemma convex_scale (a u v w : Q) : u + v + w == 1 -> a * u + a * v + a * w == a.
Proof.
  intros H. transitivity (a * (u + v + w)); [ring|]. rewrite H. ring.
Qed.

(** X6.  Over a flat mirror face (the corner normals are the unit face normal)
    and with weights summing to one, smooth mirroring does not raise and
    gives the flat mirror vector. *)
Theorem smooth_mirror_flat_face md :
  mnormal (fv0 (_mirrorTri md)) = fnormal (_mirrorTri md) ->
  mnormal (fv1 (_mirrorTri md)) = fnormal (_mirrorTri md) ->
  mnormal (fv2 (_mirrorTri md)) = fnormal (_mirrorTri md) ->
  dot (fnormal (_mirrorTri md)) (fnormal (_mirrorTri md)) == 1 ->
  _u md + _v md + _w md == 1 ->
  exists mVec, calcSmoothMirrorVector md = Ok mVec /\
               veq mVec (calcFlatMirrorVector md).
Proof.
  intros H0 H1 H2 Hunit Hsum. unfold calcSmoothMirrorVector.
  rewrite H0, H1, H2. set (n := fnormal (_mirrorTri md)) in *.
  set (norm := vadd (vadd (vmul n (_u md)) (vmul n (_v md))) (vmul n (_w md))).
  assert (Hn : veq norm n).
  { unfold veq, norm, vadd, vmul. cbn [vx vy vz].
    repeat split; apply convex_scale, Hsum. }
  destruct Hn as (Hx & Hy & Hz).
  assert (Hd : dot n norm == 1).
  { unfold dot. rewrite Hx, Hy, Hz. exact Hunit. }
  assert (Hnz : ~ dot n norm == 0).
  { rewrite Hd. discriminate. }
  rewrite (fdiv_ok _ _ Hnz). cbn [obind]. eexists. split; [reflexivity|].
  unfold calcFlatMirrorVector. fold n.
  unfold veq, vscale. cbn [vx vy vz].
  rewrite Hd, Hx, Hy, Hz. repeat split; field.
Qed.

Lemma smooth_mirror_flat_face_witness :
  exists md mVec,
    triIntersection statics_default (mkVector 1 1 1) tri_a = Ok (Some md) /\
    calcSmoothMirrorVector md = Ok mVec /\
    veq mVec (calcFlatMirrorVector md).
Proof.
  exists_result (triIntersection statics_default (mkVector 1 1 1) tri_a).
  match goal with |- exists _, ?A /\ _ =>
    assert (E1 : A) by (vm_compute; reflexivity) end.
  match type of E1 with _ = Ok (Some ?md) =>
    destruct (smooth_mirror_flat_face md) as (mVec & Hm & Hv);
      [reflexivity | reflexivity | reflexivity
       | vm_compute; reflexivity | vm_compute; reflexivity |];
    exists mVec; auto
  end.
Defined.

(** ** The weights of a record *)

(** What a returned record says about the divisors and the weights. *)
Lemma triIntersection_Some cfg vertCo mTri md :
  triIntersection cfg vertCo mTri = Ok (Some md) ->
  let t := plane_t vertCo mTri in
  let p0 := offset_point t mTri (fv0 mTri) in
  let p1 := offset_point t mTri (fv1 mTri) in
  let p2 := offset_point t mTri (fv2 mTri) in
  let i := 1 / gram p0 p1 p2 in
  ~ corner_dot mTri (fv0 mTri) == 0 /\
  ~ corner_dot mTri (fv1 mTri) == 0 /\
  ~ corner_dot mTri (fv2 mTri) == 0 /\
  ~ gram p0 p1 p2 == 0 /\
  _u md = bary_u vertCo p0 p1 p2 i /\
  _v md = bary_v vertCo p0 p1 p2 i /\
  _w md = bary_w vertCo p0 p1 p2 i /\
  _intersected md = Qgtb (_u md) (biasNeg cfg) && Qgtb (_v md) (biasNeg cfg)
                    && Qgtb (_w md) (biasNeg cfg) /\
  cull cfg && Qltb (plane_t vertCo mTri) 0 = false.
Proof.
  rewrite triIntersection_unfold. cbv zeta.
  destruct (cull cfg && Qltb _ 0) eqn:Ecull; [discriminate|].
  destruct (fdiv _ (corner_dot mTri (fv0 mTri))) as [q0| |] eqn:E0; try discriminate.
  destruct (fdiv _ (corner_dot mTri (fv1 mTri))) as [q1| |] eqn:E1; try discriminate.
  destruct (fdiv _ (corner_dot mTri (fv2 mTri))) as [q2| |] eqn:E2; try discriminate.
  apply fdiv_Ok in E0, E1, E2.
  destruct E0 as [H0 ->], E1 as [H1 ->], E2 as [H2 ->].
  cbn [obind]. fold (offset_point (plane_t vertCo mTri) mTri (fv0 mTri)).
  fold (offset_point (plane_t vertCo mTri) mTri (fv1 mTri)).
  fold (offset_point (plane_t vertCo mTri) mTri (fv2 mTri)).
  destruct (fdiv 1 _) as [i| |] eqn:E3; try discriminate.
  apply fdiv_Ok in E3. destruct E3 as [Hg ->].
  cbn [obind]. intros H. apply Ok_Some_inj in H. subst md.
  cbn [_u _v _w _intersected]. repeat split; assumption.
Qed.

Lemma dot_residual (x a b d : Vector) (v w : Q) :
  dot (residual x a b v w) d == dot x d - v * dot a d - w * dot b d.
Proof. unfold residual, dot, vsub, vadd, vscale. cbn [vx vy vz]. ring. Qed.

Lemma dot_comm (a b : Vector) : dot a b == dot b a.
Proof. unfold dot. ring. Qed.

(** The normal equations: with the weights of [triIntersection], the
    residual is orthogonal to both sides. *)
Lemma normal_equations (d00 d01 d11 d20 d21 : Q) :
  ~ d00 * d11 - d01 * d01 == 0 ->
  let i := 1 / (d00 * d11 - d01 * d01) in
  d20 - (d11 * d20 - d01 * d21) * i * d00 - (d00 * d21 - d01 * d20) * i * d01 == 0 /\
  d21 - (d11 * d20 - d01 * d21) * i * d01 - (d00 * d21 - d01 * d20) * i * d11 == 0.
Proof. intros H i. unfold i. split; field; exact H. Qed.

(** Expansion of a vector over two sides and their cross product. *)
Lemma cross_basis (a b x : Vector) :
  let c := cross a b in
  let g := dot a a * dot b b - dot a b * dot a b in
  veq (vscale g x)
      (vadd (vadd (vscale (dot x c) c) (vscale (dot x a) (cross b c)))
            (vscale (dot x b) (cross c a))).
Proof.
  destruct a as [a1 a2 a3], b as [b1 b2 b3], x as [x1 x2 x3].
  unfold veq, vscale, vadd, cross, dot. cbn [vx vy vz].
  repeat split; ring.
Qed.

Lemma Qmult_cancel_zero (g x : Q) : ~ g == 0 -> g * x == 0 -> x == 0.
Proof. intros Hg H. destruct (Qmult_integral _ _ H); [contradiction|assumption]. Qed.

Lemma cross_basis_components (a b x : Vector) :
  let c := cross a b in
  let g := dot a a * dot b b - dot a b * dot a b in
  g * vx x == dot x c * vx c + dot x a * vx (cross b c) + dot x b * vx (cross c a) /\
  g * vy x == dot x c * vy c + dot x a * vy (cross b c) + dot x b * vy (cross c a) /\
  g * vz x == dot x c * vz c + dot x a * vz (cross b c) + dot x b * vz (cross c a).
Proof. exact (cross_basis a b x). Qed.

(** A vector orthogonal to two independent sides and to a non-zero normal
    of their plane vanishes. *)
Lemma orthogonal_zero (n a b r : Vector) :
  ~ dot a a * dot b b - dot a b * dot a b == 0 ->
  ~ veq n (mkVector 0 0 0) ->
  dot n a == 0 -> dot n b == 0 ->
  dot r a == 0 -> dot r b == 0 -> dot r n == 0 ->
  veq r (mkVector 0 0 0).
Proof.
  intros Hg Hn Hna Hnb Hra Hrb Hrn.
  destruct (cross_basis_components a b n) as (N1 & N2 & N3).
  destruct (cross_basis_components a b r) as (R1 & R2 & R3).
  cbv zeta in N1, N2, N3, R1, R2, R3.
  set (g := dot a a * dot b b - dot a b * dot a b) in *.
  set (c := cross a b) in *.
  rewrite Hna, Hnb in N1, N2, N3. rewrite Hra, Hrb in R1, R2, R3.
  assert (Hnc : ~ dot n c == 0).
  { intros Hz. rewrite Hz in N1, N2, N3. apply Hn. unfold veq. cbn [vx vy vz].
    repeat split; apply (Qmult_cancel_zero g); auto;
      [rewrite N1|rewrite N2|rewrite N3]; ring. }
  assert (Hrc : dot r c == 0).
  { apply (Qmult_cancel_zero (dot n c)); [exact Hnc|].
    transitivity (g * dot r n); [|rewrite Hrn; ring].
    unfold dot at 2 3.
    transitivity (vx r * (g * vx n) + vy r * (g * vy n) + vz r * (g * vz n)); [|ring].
    rewrite N1, N2, N3. ring. }
  rewrite Hrc in R1, R2, R3.
  unfold veq. cbn [vx vy vz].
  repeat split; apply (Qmult_cancel_zero g); auto;
    [rewrite R1|rewrite R2|rewrite R3]; ring.
Qed.

Lemma dot_offset_point (t : Q) (mTri : BMFace) (v : MVert) :
  ~ corner_dot mTri v == 0 ->
  dot (fnormal mTri) (offset_point t mTri v) == t + dot (fnormal mTri) (mco v).
Proof.
  intros Hd. unfold offset_point.
  transitivity (t / corner_dot mTri v * corner_dot mTri v + dot (fnormal mTri) (mco v)).
  - unfold corner_dot at 3. generalize (t / corner_dot mTri v). intros q.
    unfold dot, vadd, vscale. cbn [vx vy vz]. ring.
  - field. exact Hd.
Qed.

Lemma dot_vsub (n a b : Vector) : dot n (vsub a b) == dot n a - dot n b.
Proof. unfold dot, vsub. cbn [vx vy vz]. ring. Qed.

Lemma bary_point_residual (x p0 p1 p2 : Vector) (v w : Q) :
  let r := residual (vsub x p0) (vsub p1 p0) (vsub p2 p0) v w in
  veq (bary_point (1 - v - w) v w p0 p1 p2) (vsub x r).
Proof.
  unfold veq, bary_point, residual, vadd, vsub, vscale. cbn [vx vy vz].
  repeat split; ring.
Qed.

(** X7.  The weights of a record are the barycentric coordinates of the vertex:
    over a face whose normal is orthogonal to its sides, the offset points
    weighted by [u], [v] and [w] give back the position of the vertex. *)
Theorem triIntersection_weights_locate cfg vertCo mTri md :
  triIntersection cfg vertCo mTri = Ok (Some md) ->
  dot (fnormal mTri) (vsub (mco (fv1 mTri)) (mco (fv0 mTri))) == 0 ->
  dot (fnormal mTri) (vsub (mco (fv2 mTri)) (mco (fv0 mTri))) == 0 ->
  veq (bary_point (_u md) (_v md) (_w md)
                  (offset_point (plane_t vertCo mTri) mTri (fv0 mTri))
                  (offset_point (plane_t vertCo mTri) mTri (fv1 mTri))
                  (offset_point (plane_t vertCo mTri) mTri (fv2 mTri)))
      vertCo.
Proof.
  intros Hmd Hs1 Hs2.
  destruct (triIntersection_Some _ _ _ _ Hmd)
    as (H0 & H1 & H2 & Hg & Eu & Ev & Ew & _).
  rewrite Eu, Ev, Ew. clear Eu Ev Ew Hmd.
  set (t := plane_t vertCo mTri) in *.
  set (p0 := offset_point t mTri (fv0 mTri)) in *.
  set (p1 := offset_point t mTri (fv1 mTri)) in *.
  set (p2 := offset_point t mTri (fv2 mTri)) in *.
  set (n := fnormal mTri) in *.
  assert (D0 : dot n p0 == t + dot n (mco (fv0 mTri))) by (apply dot_offset_point, H0).
  assert (D1 : dot n p1 == t + dot n (mco (fv1 mTri))) by (apply dot_offset_point, H1).
  assert (D2 : dot n p2 == t + dot n (mco (fv2 mTri))) by (apply dot_offset_point, H2).
  rewrite dot_vsub in Hs1, Hs2.
  assert (Hna : dot n (vsub p1 p0) == 0).
  { rewrite dot_vsub, D1, D0. rewrite <- Hs1. ring. }
  assert (Hnb : dot n (vsub p2 p0) == 0).
  { rewrite dot_vsub, D2, D0. rewrite <- Hs2. ring. }
  assert (Hnx : dot n (vsub vertCo p0) == 0).
  { rewrite dot_vsub, D0. unfold t, plane_t. fold n. rewrite dot_vsub. ring. }
  assert (Hn : ~ veq n (mkVector 0 0 0)).
  { intros Hz. apply H0. unfold corner_dot. now apply veq_zero_dot. }
  unfold bary_u.
  set (v := bary_v vertCo p0 p1 p2 (1 / gram p0 p1 p2)).
  set (w := bary_w vertCo p0 p1 p2 (1 / gram p0 p1 p2)).
  pose (r := residual (vsub vertCo p0) (vsub p1 p0) (vsub p2 p0) v w).
  destruct (normal_equations (dot (vsub p1 p0) (vsub p1 p0))
              (dot (vsub p1 p0) (vsub p2 p0)) (dot (vsub p2 p0) (vsub p2 p0))
              (dot (vsub vertCo p0) (vsub p1 p0)) (dot (vsub vertCo p0) (vsub p2 p0)) Hg)
    as [Ea Eb].
  assert (Hra : dot r (vsub p1 p0) == 0).
  { unfold r. rewrite dot_residual. rewrite (dot_comm (vsub p2 p0) (vsub p1 p0)).
    exact Ea. }
  assert (Hrb : dot r (vsub p2 p0) == 0).
  { unfold r. rewrite dot_residual. exact Eb. }
  assert (Hrn : dot r n == 0).
  { unfold r. rewrite dot_residual.
    rewrite (dot_comm _ n), (dot_comm _ n), (dot_comm _ n), Hna, Hnb, Hnx. ring. }
  destruct (orthogonal_zero n _ _ r Hg Hn Hna Hnb Hra Hrb Hrn) as (Z1 & Z2 & Z3).
  cbn [vx vy vz] in Z1, Z2, Z3.
  destruct (bary_point_residual vertCo p0 p1 p2 v w) as (B1 & B2 & B3).
  fold r in B1, B2, B3. unfold vsub at 1 in B1. unfold vsub at 1 in B2.
  unfold vsub at 1 in B3. cbn [vx vy vz] in B1, B2, B3.
  unfold veq. rewrite B1, B2, B3, Z1, Z2, Z3. repeat split; ring.
Qed.

Lemma triIntersection_weights_locate_witness :
  exists md,
    triIntersection statics_default (mkVector 1 1 1) tri_fan = Ok (Some md) /\
    veq (bary_point (_u md) (_v md) (_w md)
                    (offset_point (plane_t (mkVector 1 1 1) tri_fan) tri_fan (fv0 tri_fan))
                    (offset_point (plane_t (mkVector 1 1 1) tri_fan) tri_fan (fv1 tri_fan))
                    (offset_point (plane_t (mkVector 1 1 1) tri_fan) tri_fan (fv2 tri_fan)))
        (mkVector 1 1 1).
Proof.
  exists_result (triIntersection statics_default (mkVector 1 1 1) tri_fan).
  match goal with |- ?A /\ _ => assert (E1 : A) by (vm_compute; reflexivity) end.
  split; [exact E1|].
  apply (triIntersection_weights_locate _ _ _ _ E1); vm_compute; reflexivity.
Defined.
(** ** What the searches write *)

Lemma records_lookup st i d :
  searchData st !! i = Some d -> records st !! i = Some (_mirrorData d).
Proof. intros H. unfold records. now rewrite list_lookup_fmap, H. Qed.

Lemma records_insert st i d :
  _mirrorData <$> <[i:=d]> (searchData st) = <[i:=_mirrorData d]> (records st).
Proof. unfold records. apply list_fmap_insert. Qed.

Lemma queueConnectedVerts_edges_records vlength i edges :
  forall queue st queue' st',
    queueConnectedVerts_edges vlength i edges queue st = Ok (queue', st') ->
    verts st' = verts st /\ records st' = records st.
Proof.
  induction edges as [|c rest IH]; intros queue st queue' st' Hrun.
  - cbn [queueConnectedVerts_edges] in Hrun. minv. auto.
  - cbn [queueConnectedVerts_edges] in Hrun. minv.
    match goal with Hd : searchData _ !! c = Some ?d |- _ =>
      rename Hd into Hdata; rename d into data end.
    destruct (notMirrored data) eqn:Enm; [|now apply IH in Hrun].
    minv. destruct (Qltb _ (_closeDistance data)).
    + minv. apply IH in Hrun. cbn [verts] in Hrun. destruct Hrun as [Hv Hr].
      split; [exact Hv|]. rewrite Hr. unfold records at 1. cbn [searchData].
      rewrite records_insert. cbn [_mirrorData].
      apply list_insert_id. now apply records_lookup.
    + minv. now apply IH in Hrun.
Qed.

Lemma queueConnectedVerts_records vlength i queue st queue' st' :
  queueConnectedVerts vlength i queue st = Ok (queue', st') ->
  verts st' = verts st /\ records st' = records st.
Proof.
  unfold queueConnectedVerts. intros H. minv.
  now apply queueConnectedVerts_edges_records in H.
Qed.

Lemma findDistance_records i mTri st u st' :
  findDistance i mTri st = Ok (u, st') ->
  exists v,
    verts st !! i = Some v /\ verts st' = verts st /\
    records st' =
    <[i:=Some (MirrorData_default mTri false (plane_t (co v) mTri))]> (records st).
Proof.
  unfold findDistance. intros H. minv. eexists. split; [eassumption|].
  split; [reflexivity|]. unfold records at 1. cbn [searchData].
  now rewrite records_insert.
Qed.

Lemma mirrorVert_moves cfg i md force st u st' :
  mirrorVert cfg i md force st = Ok (u, st') ->
  exists v mVec,
    verts st !! i = Some v /\
    (if negb (smoothed cfg) || force
     then Ok (calcFlatMirrorVector md) else calcSmoothMirrorVector md) = Ok mVec /\
    verts st' = <[i:=mkVert (vadd (co v) mVec) (link_edges v)]> (verts st) /\
    searchData st' = searchData st.
Proof.
  unfold mirrorVert. intros H. minv.
  apply set_co_Ok in H. destruct H as (v & Hv & ->). same_lookup.
  eexists _, _. cbn [verts searchData]. eauto.
Qed.

Lemma findClosestTri_records cfg faces i st st' :
  records st !! i = Some None ->
  findClosestTri cfg faces i st = Ok (tt, st') ->
  found_at cfg faces i st st'.
Proof.
  intros Hrec Hrun. unfold found_at.
  unfold records in Hrec. rewrite list_lookup_fmap in Hrec.
  destruct (searchData st !! i) as [d|] eqn:Hd; [|discriminate].
  cbn in Hrec. apply Some_inj in Hrec.
  destruct (verts st !! i) as [v|] eqn:Hv.
  - unfold findClosestTri in Hrun.
    destruct (findClosestTri_scan cfg i v faces [] st st' d Hv Hd)
      as (d' & Hv' & _ & _ & Hsd & Hc & _).
    + rewrite Hrec. intros tri md Hin. now apply elem_of_nil in Hin.
    + exact Hrun.
    + split; [exact Hv'|].
      assert (Hr : records st' = <[i:=_mirrorData d']> (records st))
        by (unfold records; now rewrite Hsd, list_fmap_insert).
      rewrite Hr. cbn [app] in Hc. destruct (_mirrorData d') as [best|].
      * right. destruct Hc as (k & tri & Hk & Hb & Hi & _).
        destruct (triIntersection_t _ _ _ _ Hb) as [_ Htri].
        exists v, best. split; [reflexivity|]. split; [reflexivity|].
        split; [exact Hi|]. rewrite Htri.
        split; [now apply list_elem_of_lookup_2 in Hk|exact Hb].
      * left. apply list_insert_id. now rewrite (records_lookup _ _ _ Hd), Hrec.
  - unfold findClosestTri in Hrun. destruct faces as [|tri rest].
    + cbn [for_each] in Hrun. minv. auto.
    + cbn [for_each] in Hrun. minv. congruence.
Qed.

Lemma queueConnectedFaces_link_faces faces link_faces :
  forall queue tagList st queue' tagList' st',
    queueConnectedFaces_link faces link_faces queue tagList st
    = Ok ((queue', tagList'), st') ->
    Forall (fun f => f ∈ faces) queue -> Forall (fun f => f ∈ faces) queue'.
Proof.
  induction link_faces as [|j rest IH]; intros queue tagList st queue' tagList' st' Hrun Hq.
  - cbn [queueConnectedFaces_link] in Hrun. apply ret_Ok in Hrun.
    destruct Hrun as [Hp _]. now inversion Hp; subst.
  - cbn [queueConnectedFaces_link] in Hrun. minv.
    match goal with Hl : match faces !! j with _ => _ end = Ok ?f |- _ =>
      rename Hl into Hface; rename f into otherFace end.
    assert (Hin : otherFace ∈ faces).
    { destruct (faces !! j) as [f|] eqn:Ej; [|discriminate].
      apply Ok_inj in Hface. subst f. now apply list_elem_of_lookup_2 in Ej. }
    match goal with Ht : tag _ !! _ = Some ?t |- _ => destruct t end;
      cbn [negb] in Hrun.
    + eapply IH; eassumption.
    + minv. eapply IH; [exact Hrun|]. apply Forall_app. split; [exact Hq|].
      now apply Forall_singleton.
Qed.

Lemma queueConnectedFaces_faces faces face queue tagList st queue' tagList' st' :
  queueConnectedFaces faces face queue tagList st = Ok ((queue', tagList'), st') ->
  Forall (fun f => f ∈ faces) queue -> Forall (fun f => f ∈ faces) queue'.
Proof.
  unfold queueConnectedFaces. generalize (fedges face) as edges.
  intros edges. revert queue tagList st.
  induction edges as [|edge rest IH]; intros queue tagList st Hrun Hq.
  - cbn [queueConnectedFaces_edges] in Hrun. apply ret_Ok in Hrun.
    destruct Hrun as [Hp _]. now inversion Hp; subst.
  - cbn [queueConnectedFaces_edges] in Hrun. apply bind_Ok in Hrun.
    destruct Hrun as ([q1 tl1] & st1 & H1 & Hrun). cbn [fst snd] in Hrun.
    eapply IH; [exact Hrun|]. eapply queueConnectedFaces_link_faces; eassumption.
Qed.


Lemma found_at_frame cfg faces i st st1 st2 st' :
  verts st1 = verts st -> searchData st1 = searchData st ->
  verts st' = verts st2 -> searchData st' = searchData st2 ->
  found_at cfg faces i st1 st2 -> found_at cfg faces i st st'.
Proof.
  intros Hv Hs Hv' Hs' [Hv2 Hr]. unfold found_at, records in *.
  rewrite Hv', Hs', Hv2, Hv. rewrite Hv, Hs in Hr. auto.
Qed.

Lemma found_at_refl cfg faces i st : found_at cfg faces i st st.
Proof. split; [reflexivity|now left]. Qed.

Lemma findFirstTri_loop_found cfg faces fuel i :
  forall queue tagList st tagList' st',
    Forall (fun f => f ∈ faces) queue ->
    findFirstTri_loop cfg faces fuel i queue tagList st = Ok (tagList', st') ->
    found_at cfg faces i st st'.
Proof.
  induction fuel as [|fuel IH]; intros queue tagList st tagList' st' Hq Hrun;
    [discriminate|].
  cbn [findFirstTri_loop] in Hrun. destruct queue as [|face queue].
  { minv. apply found_at_refl. }
  apply Forall_cons in Hq. destruct Hq as [Hface Hq].
  assert (Hcont : forall st0,
             st0 = st ->
             (qt <~ queueConnectedFaces faces face queue tagList ;;
              findFirstTri_loop cfg faces fuel i (fst qt) (snd qt)) st0
             = Ok (tagList', st') ->
             found_at cfg faces i st st').
  { intros st0 -> H. apply bind_Ok in H. destruct H as ([q1 tl1] & st1 & H1 & H).
    cbn [fst snd] in H.
    pose proof (queueConnectedFaces_faces _ _ _ _ _ _ _ _ H1 Hq) as Hq1.
    apply queueConnectedFaces_spec in H1.
    destruct H1 as (Hv1 & Hs1 & _).
    apply (found_at_frame cfg faces i st st1 st' st'); auto.
    eapply IH; eassumption. }
  minv.
  match goal with H : triIntersection _ _ _ = Ok ?m |- _ =>
    rename H into Htri; destruct m as [md|] end.
  - destruct (_intersected md) eqn:Hi.
    + minv. split; [reflexivity|]. right.
      destruct (triIntersection_t _ _ _ _ Htri) as [_ Hface'].
      eexists _, md. split; [eassumption|].
      split; [unfold records at 1; cbn [searchData]; now rewrite records_insert|].
      split; [exact Hi|]. rewrite Hface'. auto.
    + now apply Hcont in Hrun.
  - now apply Hcont in Hrun.
Qed.

Lemma findFirstTri_found cfg faces fuel i lastMFace st st' :
  lastMFace ∈ faces ->
  findFirstTri cfg faces fuel i lastMFace st = Ok (tt, st') ->
  found_at cfg faces i st st'.
Proof.
  intros Hin Hrun. unfold findFirstTri in Hrun.
  apply bind_Ok in Hrun. destruct Hrun as (u & st1 & Hset & Hrun).
  apply bind_Ok in Hrun. destruct Hrun as (tl & st2 & Hloop & Hreset).
  apply set_tag_Ok in Hset. destruct Hset as [Hidx ->].
  apply findFirstTri_loop_found in Hloop; [|now apply Forall_singleton].
  apply reset_tags_spec in Hreset. destruct Hreset as (Hv3 & Hs3 & _).
  eapply found_at_frame; [| |exact Hv3|exact Hs3|exact Hloop]; reflexivity.
Qed.

(** ** The vertices between two steps *)

Lemma vertex_ok_same cfg faces vs0 st st' j :
  verts st' !! j = verts st !! j -> records st' !! j = records st !! j ->
  vertex_ok cfg faces vs0 st j -> vertex_ok cfg faces vs0 st' j.
Proof. unfold vertex_ok. intros -> ->. auto. Qed.

Lemma mesh_inv_same cfg faces vs0 st st' :
  verts st' = verts st -> records st' = records st ->
  mesh_inv cfg faces vs0 st -> mesh_inv cfg faces vs0 st'.
Proof.
  intros Hv Hr [Hlen H]. split; [now rewrite Hr|].
  intros j. apply (vertex_ok_same _ _ _ st); [now rewrite Hv|now rewrite Hr|auto].
Qed.

Lemma mesh_pending_insert cfg faces vs0 st st1 i v md :
  mesh_inv cfg faces vs0 st ->
  records st !! i = Some None ->
  verts st !! i = Some v ->
  verts st1 = verts st ->
  records st1 = <[i:=Some md]> (records st) ->
  record_of cfg faces (co v) md ->
  mesh_pending cfg faces vs0 st1 i md.
Proof.
  intros [Hlen Hinv] Hnone Hv Hv1 Hr1 Hrec.
  assert (Hlt : (i < length (records st))%nat) by now apply lookup_lt_Some in Hnone.
  split; [now rewrite Hr1, length_insert|]. split.
  - split; [rewrite Hr1; now apply list_lookup_insert_eq|].
    exists v. specialize (Hinv i). unfold vertex_ok in Hinv. rewrite Hnone in Hinv.
    split; [congruence|]. split; [congruence|exact Hrec].
  - intros j Hj. apply (vertex_ok_same _ _ _ st); [now rewrite Hv1| |auto].
    rewrite Hr1. now apply list_lookup_insert_ne.
Qed.

Lemma found_pending cfg faces vs0 i st st1 :
  mesh_inv cfg faces vs0 st ->
  records st !! i = Some None ->
  found_at cfg faces i st st1 ->
  (records st1 = records st /\ mesh_inv cfg faces vs0 st1) \/
  (exists md, _intersected md = true /\ mesh_pending cfg faces vs0 st1 i md).
Proof.
  intros Hinv Hnone [Hv1 [Hr|(v & md & Hv & Hr & Hi & Hin & Htri)]].
  - left. split; [exact Hr|]. now apply (mesh_inv_same _ _ _ st).
  - right. exists md. split; [exact Hi|].
    apply (mesh_pending_insert _ _ _ st st1 i v); auto.
    split; [exact Hin|]. now rewrite Hi.
Qed.

Lemma distance_pending cfg faces vs0 i mTri st u st1 :
  mesh_inv cfg faces vs0 st ->
  records st !! i = Some None ->
  onlyIntersecting cfg = false ->
  mTri ∈ faces ->
  findDistance i mTri st = Ok (u, st1) ->
  exists md, _intersected md = false /\ mesh_pending cfg faces vs0 st1 i md.
Proof.
  intros Hinv Hnone Honly Hin Hrun.
  apply findDistance_records in Hrun. destruct Hrun as (v & Hv & Hv1 & Hr1).
  eexists. split; [|apply (mesh_pending_insert _ _ _ st st1 i v); eauto].
  - reflexivity.
  - split; [exact Hin|]. cbn [MirrorData_default _intersected _mirrorTri]. auto.
Qed.

Lemma pending_mirror cfg faces vs0 i md st1 u st2 :
  mesh_pending cfg faces vs0 st1 i md ->
  mirrorVert cfg i md (negb (_intersected md)) st1 = Ok (u, st2) ->
  mesh_inv cfg faces vs0 st2.
Proof.
  intros (Hlen & (Hrec & v & Hv0 & Hv & Hof) & Hothers) Hrun.
  apply mirrorVert_moves in Hrun.
  destruct Hrun as (v' & mVec & Hv' & Hvec & Hverts & Hsd).
  same_lookup.
  assert (Hr : records st2 = records st1) by (unfold records; now rewrite Hsd).
  split; [now rewrite Hr|]. intros j.
  destruct (decide (j = i)) as [->|Hne].
  - unfold vertex_ok. rewrite Hr, Hrec.
    exists v, (mkVert (vadd (co v) mVec) (link_edges v)).
    split; [exact Hv0|]. split.
    + rewrite Hverts. apply list_lookup_insert_eq. now apply lookup_lt_Some in Hv.
    + split; [exact Hof|]. exists mVec. split; [exact Hvec|reflexivity].
  - apply (vertex_ok_same _ _ _ st1); [|now rewrite Hr|auto].
    rewrite Hverts. now apply list_lookup_insert_ne.
Qed.

(** ** The vertices through the loops *)

Section MeshInvariant.
Variable cfg : MirrorStatics.
Variable vlength : Vector -> Q.
Variable faces : list BMFace.
Variable vs0 : list BMVert.

Local Abbreviation inv := (mesh_inv cfg faces vs0).
Local Abbreviation loop := (mirrorConnected_loop cfg vlength faces).

Lemma mirror_and_queue_inv fuel :
  (forall q it st, inv st -> wp false (loop fuel q it) (fun _ => inv) st) ->
  forall i md q it st1,
    mesh_pending cfg faces vs0 st1 i md ->
    wp false (mirrorVert cfg i md (negb (_intersected md)) ;;;
              q' <~ queueConnectedVerts vlength i q ;;
              loop fuel q' it)
       (fun _ => inv) st1.
Proof.
  intros IHloop i md q it st1 Hp.
  eapply wp_bind with (R := fun _ => inv).
  { apply wp_spec; [discriminate|]. intros u st2 Hrun.
    eapply pending_mirror; eassumption. }
  intros u st2 Hinv2.
  eapply wp_bind with (R := fun _ => inv).
  { apply wp_spec; [discriminate|]. intros q' st3 Hrun.
    apply queueConnectedVerts_records in Hrun. destruct Hrun as [Hv Hr].
    now apply (mesh_inv_same _ _ _ st2). }
  intros q' st3 Hinv3. now apply IHloop.
Qed.

Lemma mirrorConnected_loop_inv fuel :
  forall q it st, inv st -> wp false (loop fuel q it) (fun _ => inv) st.
Proof.
  induction fuel as [|fuel IH]; intros q it st Hinv; [reflexivity|].
  cbn [mirrorConnected_loop]. destruct q as [|i q]; [now apply wp_ret|].
  apply wp_bind_get_sd. intros data Hdata.
  destruct (notMirrored data) eqn:Enm; [|now apply IH].
  assert (Hnone : records st !! i = Some None).
  { rewrite (records_lookup _ _ _ Hdata). unfold notMirrored in Enm.
    now destruct (_mirrorData data). }
  apply wp_bind_attr. intros closeVert _.
  apply wp_bind_get_sd. intros cdata Hcdata.
  assert (Hlast : forall last, _mirrorData cdata = Some last ->
                               _mirrorTri last ∈ faces).
  { intros last Hl. destruct Hinv as [_ Hinv]. specialize (Hinv closeVert).
    unfold vertex_ok in Hinv. rewrite (records_lookup _ _ _ Hcdata), Hl in Hinv.
    destruct Hinv as (v & v' & _ & _ & [Hin _] & _). exact Hin. }
  eapply wp_bind with
    (R := fun mData st1 =>
            (mData = None /\ inv st1 /\ records st1 = records st) \/
            (exists md, mData = Some md /\ _intersected md = true /\
                        mesh_pending cfg faces vs0 st1 i md)).
  { destruct it.
    - apply wp_bind_attr. intros last Hl.
      eapply wp_bind with (R := fun _ st1 => found_at cfg faces i st st1).
      + apply wp_spec; [discriminate|]. intros [] st1 Hrun.
        eapply findFirstTri_found; [|exact Hrun]. auto.
      + intros u st1 Hf. apply wp_bind_get_sd. intros data' Hdata'.
        apply wp_ret.
        destruct (found_pending _ _ _ _ _ _ Hinv Hnone Hf)
          as [[Hr Hinv1]|(md & Hi & Hp)].
        * left. split; [|auto].
          apply records_lookup in Hdata'. rewrite Hr, Hnone in Hdata'.
          apply Some_inj in Hdata'. now symmetry.
        * right. exists md. split; [|auto].
          destruct Hp as (_ & [Hrec _] & _).
          apply records_lookup in Hdata'. rewrite Hrec in Hdata'.
          apply Some_inj in Hdata'. now symmetry.
    - apply wp_ret. left. auto. }
  intros mData st1 [(-> & Hinv1 & Hr1)|(md & -> & Hi & Hp)].
  - destruct (negb (onlyIntersecting cfg)) eqn:Eonly; [|now apply IH].
    apply negb_true_iff in Eonly.
    apply wp_bind_attr. intros last Hl.
    eapply wp_bind with
      (R := fun _ st2 => exists md, _intersected md = false /\
                                    mesh_pending cfg faces vs0 st2 i md).
    + apply wp_spec; [discriminate|]. intros u st2 Hrun.
      eapply distance_pending; [exact Hinv1| |exact Eonly| |exact Hrun].
      * now rewrite Hr1.
      * auto.
    + intros u st2 (md & Hi & Hp).
      apply wp_bind_get_sd. intros data' Hdata'.
      apply wp_bind_attr. intros md' Hmd'.
      assert (md' = md) as ->.
      { destruct Hp as (_ & [Hrec _] & _).
        apply records_lookup in Hdata'. rewrite Hrec, Hmd' in Hdata'.
        apply Some_inj in Hdata'. now apply Some_inj in Hdata'. }
      pose proof (mirror_and_queue_inv fuel IH i md q it st2 Hp) as H.
      now rewrite Hi in H.
  - rewrite Hi.
    pose proof (mirror_and_queue_inv fuel IH i md q it st1 Hp) as H.
    now rewrite Hi in H.
Qed.

Lemma mirrorConnected_inv fuel i it st :
  inv st -> wp false (mirrorConnected cfg vlength faces fuel i it) (fun _ => inv) st.
Proof.
  intros Hinv. unfold mirrorConnected.
  eapply wp_bind with (R := fun _ => inv).
  { apply wp_spec; [discriminate|]. intros q' st3 Hrun.
    apply queueConnectedVerts_records in Hrun. destruct Hrun as [Hv Hr].
    now apply (mesh_inv_same _ _ _ st). }
  intros q st1 Hinv1. now apply mirrorConnected_loop_inv.
Qed.

Lemma mirrorMesh_seed_inv fuel st :
  inv st -> wp false (mirrorMesh_seed cfg vlength faces fuel) (fun _ => inv) st.
Proof.
  intros Hinv. unfold mirrorMesh_seed. apply wp_bind_read.
  apply (wp_for_each false _ _ inv); [|exact Hinv].
  intros i st1 _ Hinv1.
  apply wp_bind_get_sd. intros data Hdata.
  destruct (notMirrored data) eqn:Enm; [|now apply wp_ret].
  assert (Hnone : records st1 !! i = Some None).
  { rewrite (records_lookup _ _ _ Hdata). unfold notMirrored in Enm.
    now destruct (_mirrorData data). }
  eapply wp_bind with (R := fun _ st2 => found_at cfg faces i st1 st2).
  { apply wp_spec; [discriminate|]. intros [] st2 Hrun.
    now apply findClosestTri_records. }
  intros u st2 Hf. apply wp_bind_get_sd. intros data' Hdata'.
  apply records_lookup in Hdata'.
  destruct (found_pending _ _ _ _ _ _ Hinv1 Hnone Hf) as [[Hr Hinv2]|(md & Hi & Hp)].
  - rewrite Hr, Hnone in Hdata'. apply Some_inj in Hdata'.
    rewrite <- Hdata'. now apply wp_ret.
  - pose proof Hp as (_ & [Hrec _] & _). rewrite Hrec in Hdata'.
    apply Some_inj in Hdata'. rewrite <- Hdata', Hi.
    eapply wp_bind with (R := fun _ => inv).
    { apply wp_spec; [discriminate|]. intros u' st3 Hrun.
      eapply pending_mirror; [exact Hp|]. rewrite Hi. exact Hrun. }
    intros u' st3 Hinv3.
    destruct (negb (closestOnly cfg)); [|now apply wp_ret].
    now apply mirrorConnected_inv.
Qed.

Lemma mirrorNonIntersecting_inv fuel n st :
  inv st ->
  wp false (mirrorNonIntersecting cfg vlength faces fuel n) (fun _ => inv) st.
Proof.
  intros Hinv. unfold mirrorNonIntersecting.
  destruct (0 <? n)%nat; [|now apply wp_ret].
  apply wp_bind_read.
  apply (wp_for_each false _ _ inv); [|exact Hinv].
  intros i st1 _ Hinv1.
  apply wp_bind_get_sd. intros data Hdata.
  destruct (mirrored data); [|now apply wp_ret].
  now apply mirrorConnected_inv.
Qed.
End MeshInvariant.

Lemma init_searchData_inv cfg faces st u st0 :
  init_searchData st = Ok (u, st0) -> mesh_inv cfg faces (verts st) st0.
Proof.
  unfold init_searchData. intros H. apply Ok_inj in H.
  assert (E : st0 = mkState (verts st) (replicate (length (verts st)) SearchData_init)
                            (tag st) (mirrorLog st)) by now inversion H.
  subst st0. clear H. unfold mesh_inv, vertex_ok, records. cbn [searchData verts].
  rewrite fmap_replicate. split; [apply length_replicate|].
  intros i. destruct (replicate _ _ !! i) as [r|] eqn:E; [|exact I].
  apply lookup_replicate in E. destruct E as [-> _]. reflexivity.
Qed.

Lemma mirrorMesh_inv cfg vlength faces fuel st :
  wp false (mirrorMesh cfg vlength faces fuel)
     (fun _ => mesh_inv cfg faces (verts st)) st.
Proof.
  unfold mirrorMesh.
  eapply wp_bind with (R := fun _ => mesh_inv cfg faces (verts st)).
  { apply wp_spec; [discriminate|]. intros u st0. apply init_searchData_inv. }
  intros u st0 Hinv0.
  eapply wp_bind with (R := fun _ => mesh_inv cfg faces (verts st));
    [now apply mirrorMesh_seed_inv|].
  intros u1 st1 Hinv1. apply wp_bind_read.
  eapply wp_bind with (R := fun _ => mesh_inv cfg faces (verts st)).
  - destruct (closestOnly cfg && negb (onlyIntersecting cfg)).
    + now apply mirrorNonIntersecting_inv.
    + now apply wp_ret.
  - intros u' st' Hinv'. now apply wp_ret.
Qed.

Lemma mesh_inv_record cfg faces vs0 st i d md :
  mesh_inv cfg faces vs0 st ->
  searchData st !! i = Some d -> _mirrorData d = Some md ->
  exists v mVec,
    vs0 !! i = Some v /\ record_of cfg faces (co v) md /\
    mirror_vector cfg md = Ok mVec /\
    verts st !! i = Some (mkVert (vadd (co v) mVec) (link_edges v)).
Proof.
  intros [_ Hinv] Hd Hmd. specialize (Hinv i). unfold vertex_ok in Hinv.
  rewrite (records_lookup _ _ _ Hd), Hmd in Hinv.
  destruct Hinv as (v & v' & Hv & Hv' & Hof & mVec & Hvec & ->). eauto 10.
Qed.

(** X1.  What [mirrorMesh] does to each vertex.  When the call returns, a vertex
    without a record is where it was; a vertex with a record has been moved
    exactly once, by the mirror vector of that record, and the record was
    computed at the original position of the vertex, for a face of the
    mirror mesh: either an intersected result of [triIntersection], or, with
    [onlyIntersecting] off, the plane record of [findDistance]. *)
Theorem mirrorMesh_vertices cfg vlength faces fuel st n st' i v :
  mirrorMesh cfg vlength faces fuel st = Ok (n, st') ->
  verts st !! i = Some v ->
  exists d,
    searchData st' !! i = Some d /\
    match _mirrorData d with
    | None => verts st' !! i = Some v
    | Some md =>
        record_of cfg faces (co v) md /\
        exists mVec,
          mirror_vector cfg md = Ok mVec /\
          verts st' !! i = Some (mkVert (vadd (co v) mVec) (link_edges v))
    end.
Proof.
  intros Hrun Hv.
  pose proof (mirrorMesh_inv cfg vlength faces fuel st) as H.
  eapply wp_Ok in H; [|exact Hrun]. destruct H as [Hlen Hinv].
  specialize (Hinv i). unfold vertex_ok in Hinv.
  assert (Hlt : (i < length (records st'))%nat).
  { rewrite Hlen. now apply lookup_lt_Some in Hv. }
  unfold records in Hlt, Hinv. rewrite length_fmap in Hlt.
  apply lookup_lt_is_Some in Hlt. destruct Hlt as [d Hd].
  rewrite list_lookup_fmap, Hd in Hinv. cbn in Hinv.
  exists d. split; [exact Hd|].
  destruct (_mirrorData d) as [md|]; [|congruence].
  destruct Hinv as (v0 & v' & Hv0 & Hv' & Hof & mVec & Hvec & ->).
  rewrite Hv in Hv0. apply Some_inj in Hv0. subst v0. eauto.
Qed.

(** The ring of three vertices: the second lies outside the mirror
    triangle and is mirrored along the plane of the face of the first. *)
Lemma mirrorMesh_vertices_witness :
  exists n st' d,
    mirrorMesh statics_propagate vlength_model [tri_a] 8 ring_state = Ok (n, st') /\
    searchData st' !! 1%nat = Some d /\
    match _mirrorData d with
    | None => verts st' !! 1%nat = Some (mkVert (mkVector 4 5 (-1)) [0%nat; 2%nat])
    | Some md =>
        record_of statics_propagate [tri_a] (mkVector 4 5 (-1)) md /\
        exists mVec,
          mirror_vector statics_propagate md = Ok mVec /\
          verts st' !! 1%nat
          = Some (mkVert (vadd (mkVector 4 5 (-1)) mVec) [0%nat; 2%nat])
    end.
Proof.
  assert (E : exists n st',
             mirrorMesh statics_propagate vlength_model [tri_a] 8 ring_state
             = Ok (n, st'))
    by (vm_compute; eexists _, _; reflexivity).
  destruct E as (n & st' & E).
  destruct (mirrorMesh_vertices statics_propagate vlength_model [tri_a] 8 ring_state
              n st' 1 (mkVert (mkVector 4 5 (-1)) [0%nat; 2%nat]) E eq_refl)
    as (d & Hd & H).
  exists n, st', d. auto.
Defined.

Lemma record_of_t cfg faces c md :
  record_of cfg faces c md -> _t md = plane_t c (_mirrorTri md).
Proof.
  intros [_ H]. destruct (_intersected md).
  - now apply triIntersection_t in H.
  - destruct H as [_ H]. rewrite H at 1. reflexivity.
Qed.

(** X3.  A mirrored vertex ends at the opposite side of the plane of the face of
    its record, at the same distance: always for an intersected record in
    smooth mode, and for every record whose face has a unit normal. *)
Theorem mirrorMesh_opposite_distance cfg vlength faces fuel st n st' i v d md :
  mirrorMesh cfg vlength faces fuel st = Ok (n, st') ->
  verts st !! i = Some v ->
  searchData st' !! i = Some d ->
  _mirrorData d = Some md ->
  (smoothed cfg = true /\ _intersected md = true) \/
  dot (fnormal (_mirrorTri md)) (fnormal (_mirrorTri md)) == 1 ->
  exists v',
    verts st' !! i = Some v' /\
    plane_t (co v') (_mirrorTri md) == - plane_t (co v) (_mirrorTri md).
Proof.
  intros Hrun Hv Hd Hmd Hcase.
  pose proof (mirrorMesh_inv cfg vlength faces fuel st) as H.
  eapply wp_Ok in H; [|exact Hrun].
  destruct (mesh_inv_record _ _ _ _ _ _ _ H Hd Hmd) as (v0 & mVec & Hv0 & Hof & Hvec & Hv').
  rewrite Hv in Hv0. apply Some_inj in Hv0. subst v0.
  eexists. split; [exact Hv'|]. cbn [co].
  pose proof (record_of_t _ _ _ _ Hof) as Ht.
  unfold mirror_vector in Hvec.
  destruct (negb (smoothed cfg) || negb (_intersected md)) eqn:Eflat.
  - apply Ok_inj in Hvec. subst mVec.
    destruct Hcase as [[Hs Hi]|Hunit].
    { rewrite Hs, Hi in Eflat. discriminate. }
    unfold calcFlatMirrorVector. rewrite plane_t_flat_step, Hunit, Ht. ring.
  - apply calcSmoothMirrorVector_dot in Hvec.
    rewrite plane_t_step, Hvec, Ht. ring.
Qed.

Lemma mirrorMesh_opposite_distance_witness :
  exists n st' d md v',
    mirrorMesh statics_propagate vlength_model [tri_a] 8 ring_state = Ok (n, st') /\
    searchData st' !! 1%nat = Some d /\ _mirrorData d = Some md /\
    verts st' !! 1%nat = Some v' /\
    plane_t (co v') (_mirrorTri md) == - plane_t (mkVector 4 5 (-1)) (_mirrorTri md).
Proof.
  assert (E : exists n st' d md,
             mirrorMesh statics_propagate vlength_model [tri_a] 8 ring_state
             = Ok (n, st') /\
             searchData st' !! 1%nat = Some d /\ _mirrorData d = Some md /\
             dot (fnormal (_mirrorTri md)) (fnormal (_mirrorTri md)) == 1)
    by (vm_compute; eexists _, _, _, _; repeat split; reflexivity).
  destruct E as (n & st' & d & md & E & Hd & Hmd & Hunit).
  destruct (mirrorMesh_opposite_distance statics_propagate vlength_model [tri_a] 8
              ring_state n st' 1 (mkVert (mkVector 4 5 (-1)) [0%nat; 2%nat]) d md
              E eq_refl Hd Hmd (or_intror Hunit)) as (v' & Hv' & H).
  exists n, st', d, md, v'. auto.
Defined.

(** X2.  With [onlyIntersecting] on, every record left by [mirrorMesh] is an
    intersected result for a face of the mirror mesh: its weights exceed
    [biasNeg] and sum to one, and with culling on its distance is not
    negative.  No vertex is mirrored along a face it does not lie over. *)
Theorem mirrorMesh_only_intersecting cfg vlength faces fuel st n st' i d md :
  onlyIntersecting cfg = true ->
  mirrorMesh cfg vlength faces fuel st = Ok (n, st') ->
  searchData st' !! i = Some d ->
  _mirrorData d = Some md ->
  _intersected md = true /\ _mirrorTri md ∈ faces /\
  biasNeg cfg < _u md /\ biasNeg cfg < _v md /\ biasNeg cfg < _w md /\
  _u md + _v md + _w md == 1 /\
  (cull cfg = true -> 0 <= _t md).
Proof.
  intros Honly Hrun Hd Hmd.
  pose proof (mirrorMesh_inv cfg vlength faces fuel st) as H.
  eapply wp_Ok in H; [|exact Hrun].
  destruct (mesh_inv_record _ _ _ _ _ _ _ H Hd Hmd) as (v & _ & _ & [Hin Hof] & _).
  destruct (_intersected md) eqn:Hi.
  2:{ destruct Hof as [Hoff _]. congruence. }
  destruct (triIntersection_t _ _ _ _ Hof) as [Ht _].
  destruct (triIntersection_Some _ _ _ _ Hof)
    as (_ & _ & _ & _ & Eu & Ev & Ew & Eint & Ecull).
  rewrite Hi in Eint. symmetry in Eint.
  unfold Qgtb in Eint. rewrite !andb_true_iff, !Qltb_lt in Eint.
  destruct Eint as [[Hu Hv'] Hw].
  split; [reflexivity|]. split; [exact Hin|].
  split; [exact Hu|]. split; [exact Hv'|]. split; [exact Hw|]. split.
  - rewrite Eu, Ev, Ew. apply bary_sum.
  - intros Hc. rewrite Hc in Ecull. cbn [andb] in Ecull.
    apply Qltb_ge in Ecull. now rewrite Ht.
Qed.

Lemma mirrorMesh_only_intersecting_witness :
  exists n st' d md,
    mirrorMesh statics_default vlength_model [tri_fan] 8 ring_state = Ok (n, st') /\
    searchData st' !! 0%nat = Some d /\ _mirrorData d = Some md /\
    _intersected md = true /\ biasNeg statics_default < _u md /\
    _u md + _v md + _w md == 1.
Proof.
  assert (E : exists n st' d md,
             mirrorMesh statics_default vlength_model [tri_fan] 8 ring_state
             = Ok (n, st') /\
             searchData st' !! 0%nat = Some d /\ _mirrorData d = Some md)
    by (vm_compute; eexists _, _, _, _; repeat split; reflexivity).
  destruct E as (n & st' & d & md & E & Hd & Hmd).
  destruct (mirrorMesh_only_intersecting statics_default vlength_model [tri_fan] 8
              ring_state n st' 0 d md eq_refl E Hd Hmd)
    as (Hi & _ & Hu & _ & _ & Hsum & _).
  exists n, st', d, md. auto 10.
Defined.

(** ** An empty mirror mesh *)

Lemma for_each_skip {A} (l : list A) (body : A -> M unit) st :
  (forall x, x ∈ l -> body x st = Ok (tt, st)) ->
  for_each l body st = Ok (tt, st).
Proof.
  induction l as [|x l IH]; intros H; [reflexivity|].
  cbn [for_each]. unfold bind. rewrite H by (apply elem_of_cons; now left).
  apply IH. intros y Hy. apply H. apply elem_of_cons. now right.
Qed.

Lemma get_sd_fresh n i vs tg lg :
  (i < n)%nat ->
  get_sd i (mkState vs (replicate n SearchData_init) tg lg)
  = Ok (SearchData_init, mkState vs (replicate n SearchData_init) tg lg).
Proof.
  intros Hi. unfold get_sd. cbn [searchData].
  now rewrite (lookup_replicate_2 _ _ _ Hi).
Qed.

Lemma count_notMirrored_fresh n :
  count_notMirrored (replicate n SearchData_init) = n.
Proof.
  unfold count_notMirrored. induction n as [|n IH]; [reflexivity|].
  cbn [replicate]. rewrite filter_cons. case_decide as Hd.
  - cbn [length]. now rewrite IH.
  - now destruct Hd.
Qed.

Lemma mirrorMesh_no_faces cfg vlength fuel st :
  mirrorMesh cfg vlength [] fuel st
  = Ok (length (verts st),
        mkState (verts st) (replicate (length (verts st)) SearchData_init)
                (tag st) (mirrorLog st)).
Proof.
  set (n := length (verts st)).
  set (st0 := mkState (verts st) (replicate n SearchData_init) (tag st) (mirrorLog st)).
  assert (Hlen : length (searchData st0) = n) by apply length_replicate.
  assert (Hseed : mirrorMesh_seed cfg vlength [] fuel st0 = Ok (tt, st0)).
  { unfold mirrorMesh_seed, bind at 1. rewrite Hlen.
    apply for_each_skip. intros i Hi. apply elem_of_seq in Hi.
    unfold bind at 1. unfold st0. rewrite get_sd_fresh by lia.
    cbn [notMirrored SearchData_init _mirrorData].
    unfold bind at 1. cbn [findClosestTri for_each ret].
    unfold bind at 1. rewrite get_sd_fresh by lia. reflexivity. }
  assert (Hsweep : mirrorNonIntersecting cfg vlength [] fuel n st0 = Ok (tt, st0)).
  { unfold mirrorNonIntersecting. destruct (0 <? n)%nat; [|reflexivity].
    unfold bind at 1. rewrite Hlen.
    apply for_each_skip. intros i Hi. apply elem_of_seq in Hi.
    unfold bind at 1. unfold st0. rewrite get_sd_fresh by lia. reflexivity. }
  unfold mirrorMesh. unfold bind at 1.
  change (init_searchData st) with (Ok (tt, st0)). cbv iota beta.
  unfold bind at 1. rewrite Hseed.
  unfold bind at 1. cbn [searchData st0]. rewrite count_notMirrored_fresh.
  unfold bind at 1. fold st0.
  destruct (closestOnly cfg && negb (onlyIntersecting cfg)).
  - now rewrite Hsweep.
  - reflexivity.
Qed.

(** X4.  With a mirror mesh that has no faces, [mirrorMesh] returns the number
    of vertices and moves none of them, whatever the fuel and the settings,
    and [execute] creates no object for the mesh and reports that it does
    not intersect the mirror. *)
Theorem mirror_without_faces cfg vlength fuel ob tags :
  mirrorMesh cfg vlength [] fuel (mkState (bm_verts ob) [] tags [])
  = Ok (length (bm_verts ob),
        mkState (bm_verts ob) (replicate (length (bm_verts ob)) SearchData_init)
                tags []) /\
  execute_object cfg vlength fuel [] ob tags
  = Ok (None, [WARNING_no_mirror_created (ob_name ob)], tags).
Proof.
  split; [apply mirrorMesh_no_faces|].
  unfold execute_object. rewrite mirrorMesh_no_faces. cbn [obind fst snd verts tag].
  now rewrite Nat.ltb_irrefl.
Qed.

(** ** The operator *)

Lemma execute_loop_cons cfg vlength fuel ob_act ob rest tags :
  Forall (fun b => b = false) tags ->
  execute_loop cfg vlength fuel ob_act (ob :: rest) tags
  = if eligible ob_act ob then
      let? r := execute_object cfg vlength fuel (mirror_faces ob_act) ob tags in
      let? r' := execute_loop cfg vlength fuel ob_act rest tags in
      Ok (match fst (fst r) with
          | Some o => o :: fst r'
          | None => fst r'
          end, snd (fst r) ++ snd r')
    else execute_loop cfg vlength fuel ob_act rest tags.
Proof.
  intros Htags. cbn [execute_loop]. unfold eligible.
  destruct (ob_is_mesh ob && negb (ob_id ob =? ob_id ob_act)%nat); [|reflexivity].
  destruct (execute_object cfg vlength fuel (mirror_faces ob_act) ob tags)
    as [r| |] eqn:E; try reflexivity.
  cbn [obind]. now rewrite (execute_object_tags _ _ _ _ _ _ _ Htags E).
Qed.

Lemma execute_loop_split cfg vlength fuel ob_act selected tags :
  Forall (fun b => b = false) tags ->
  forall obs reports,
    execute_loop cfg vlength fuel ob_act selected tags = Ok (obs, reports) ->
    exists rs : list (option MirrorOb * list Report),
      Forall2 (fun ob r =>
                 execute_object cfg vlength fuel (mirror_faces ob_act) ob tags
                 = Ok (r, tags))
              (filter (fun ob => eligible ob_act ob = true) selected) rs /\
      obs = omap fst rs /\ reports = concat (snd <$> rs).
Proof.
  intros Htags. induction selected as [|ob rest IH]; intros obs reports Hrun.
  - cbn [execute_loop] in Hrun. apply Ok_inj in Hrun.
    exists []. split; [constructor|]. now inversion Hrun.
  - rewrite execute_loop_cons in Hrun by assumption. rewrite filter_cons.
    destruct (eligible ob_act ob) eqn:El.
    + destruct (execute_object _ _ _ _ _ _) as [[[res rep] tags']| |] eqn:E;
        try discriminate.
      pose proof (execute_object_tags _ _ _ _ _ _ _ Htags E) as Ht.
      cbn [snd] in Ht. subst tags'. cbn [obind] in Hrun.
      destruct (execute_loop _ _ _ _ rest tags) as [[obs' reports']| |] eqn:E';
        try discriminate.
      cbn [obind fst snd] in Hrun. apply Ok_inj in Hrun.
      destruct (IH _ _ eq_refl) as (rs & Hall & -> & ->).
      exists ((res, rep) :: rs). case_decide as Hd; [|congruence].
      split; [constructor; assumption|].
      cbn [omap list_omap fst fmap list_fmap snd concat].
      inversion Hrun; subst. split; [|reflexivity]. now destruct res.
    + case_decide as Hd; [congruence|]. now apply IH.
Qed.

Lemma execute_loop_fuel cfg vlength fuel ob_act selected tags :
  Forall (fun b => b = false) tags ->
  Forall (fun ob =>
            eligible ob_act ob = true ->
            (sum_list ((fun v => length (link_edges v)) <$> bm_verts ob)
             + length tags < fuel)%nat) selected ->
  execute_loop cfg vlength fuel ob_act selected tags <> OutOfFuel.
Proof.
  intros Htags Hall. induction Hall as [|ob rest Hob Hrest IH]; [discriminate|].
  rewrite execute_loop_cons by assumption.
  destruct (eligible ob_act ob) eqn:El; [|exact IH].
  pose proof (execute_object_fuel cfg vlength fuel (mirror_faces ob_act) ob tags
                Htags (Hob eq_refl)) as Hf.
  destruct (execute_object _ _ _ _ _ _) as [r| |]; [|discriminate|contradiction].
  cbn [obind].
  destruct (execute_loop _ _ _ _ rest tags) as [r'| |]; [discriminate|discriminate|].
  contradiction.
Qed.



(** X9.  [execute] terminates: with more fuel than the number of edge ends of
    every mesh it mirrors plus the number of faces of the mirror mesh, no
    loop of the run is cut short, so the call returns or raises. *)
Theorem execute_terminates vlength fuel self old active selected :
  (forall ob_act,
     active = Some ob_act ->
     Forall (fun ob =>
               eligible ob_act ob = true ->
               (sum_list ((fun v => length (link_edges v)) <$> bm_verts ob)
                + length (mirror_faces ob_act) < fuel)%nat) selected) ->
  execute vlength fuel self old active selected <> OutOfFuel.
Proof.
  intros Hfuel. unfold execute. destruct active as [ob_act|]; [|discriminate].
  destruct (negb (ob_is_mesh ob_act)); [discriminate|].
  specialize (Hfuel ob_act eq_refl).
  pose proof (execute_loop_fuel (set_statics self old) vlength fuel ob_act selected
                (replicate (length (mirror_faces ob_act)) false)) as H.
  rewrite length_replicate in H.
  specialize (H (Forall_replicate _ _ _ eq_refl) Hfuel).
  destruct (execute_loop _ _ _ _ _ _) as [r| |]; [discriminate|discriminate|].
  contradiction.
Qed.

Lemma execute_terminates_witness :
  match execute vlength_model 8 props_default statics_class (Some mirror_object)
                [mirror_object; pair_object] with
  | OutOfFuel => False
  | _ => True
  end.
Proof.
  assert (H : execute vlength_model 8 props_default statics_class (Some mirror_object)
                      [mirror_object; pair_object] <> OutOfFuel).
  { apply execute_terminates. intros ob_act Hact.
    apply Some_inj in Hact. subst ob_act.
    repeat constructor; intros _; vm_compute; lia. }
  destruct (execute _ _ _ _ _ _); [exact I|exact I|exact (H eq_refl)].
Defined.


(** ** queueConnectedVerts *)

Lemma closer_twice i distance data :
  closer i distance (closer i distance data) = closer i distance data.
Proof.
  unfold closer. destruct (notMirrored data && Qltb distance (_closeDistance data)) eqn:E;
    [|now rewrite E].
  cbn [_closeDistance notMirrored _mirrorData].
  replace (Qltb distance distance) with false; [now rewrite andb_false_r|].
  symmetry. apply Qltb_ge. apply Qle_refl.
Qed.

Lemma closer_record i distance data :
  _mirrorData (closer i distance data) = _mirrorData data.
Proof. unfold closer. now destruct (_ && _). Qed.

Lemma unmirrored_closer st i distance c data c' :
  searchData st !! c = Some data ->
  unmirrored (mkState (verts st) (<[c:=closer i distance data]> (searchData st))
                      (tag st) (mirrorLog st)) c'
  = unmirrored st c'.
Proof.
  intros Hd. unfold unmirrored. cbn [searchData].
  destruct (decide (c = c')) as [<-|Hne].
  - rewrite list_lookup_insert_eq by (now apply lookup_lt_Some in Hd).
    rewrite Hd. unfold notMirrored. now rewrite closer_record.
  - now rewrite list_lookup_insert_ne.
Qed.

Lemma closer_mirrored i distance data :
  notMirrored data = false -> closer i distance data = data.
Proof. intros H. unfold closer. now rewrite H. Qed.

(** One pass over the edges of a vertex at [c0]: the queue receives the
    unmirrored neighbours in edge order, and the data of every neighbour
    is updated by [closer]. *)
Lemma queueConnectedVerts_edges_closer vlength i c0 edges :
  forall queue st queue' st',
    verts st !! i = Some c0 ->
    queueConnectedVerts_edges vlength i edges queue st = Ok (queue', st') ->
    verts st' = verts st /\ tag st' = tag st /\ mirrorLog st' = mirrorLog st /\
    length (searchData st') = length (searchData st) /\
    queue' = queue ++ filter (fun c => unmirrored st c = true) edges /\
    forall c data,
      searchData st !! c = Some data ->
      searchData st' !! c
      = Some (if bool_decide (c ∈ edges)
              then match verts st !! c with
                   | Some other =>
                       closer i (vlength (vsub (co c0) (co other))) data
                   | None => data
                   end
              else data).
Proof.
  induction edges as [|c rest IH]; intros queue st queue' st' Hi Hrun.
  - cbn [queueConnectedVerts_edges] in Hrun. minv.
    rewrite filter_nil, app_nil_r. repeat split; try reflexivity.
    intros c data Hd. rewrite bool_decide_eq_false_2; [exact Hd|].
    intros Hin. now apply elem_of_nil in Hin.
  - cbn [queueConnectedVerts_edges] in Hrun. minv.
    match goal with Hd : searchData _ !! c = Some ?d |- _ =>
      rename Hd into Hdata; rename d into data0 end.
    assert (Hu : unmirrored st c = notMirrored data0)
      by (unfold unmirrored; now rewrite Hdata).
    rewrite filter_cons, Hu.
    destruct (notMirrored data0) eqn:Enm.
    + minv. same_lookup.
      match goal with Ho : verts _ !! c = Some ?o |- _ =>
        rename Ho into Hother; rename o into other end.
      set (dist := vlength (vsub (co c0) (co other))) in *.
      set (st1 := mkState (verts st) (<[c:=closer i dist data0]> (searchData st))
                          (tag st) (mirrorLog st)).
      assert (Hrun1 : queueConnectedVerts_edges vlength i rest (queue ++ [c]) st1
                      = Ok (queue', st')).
      { unfold st1, closer. rewrite Enm. cbn [andb].
        destruct (Qltb dist (_closeDistance data0)).
        - minv. exact Hrun.
        - minv. rewrite list_insert_id by exact Hdata.
          now destruct st. }
      clear Hrun. apply IH in Hrun1; [|exact Hi].
      destruct Hrun1 as (Hv & Ht & Hl & Hlen & Hq & Hsd).
      unfold st1 in Hv, Ht, Hl, Hlen.
      cbn [verts tag mirrorLog searchData] in Hv, Ht, Hl, Hlen.
      rewrite length_insert in Hlen.
      assert (Hlt : (c < length (searchData st))%nat)
        by now apply lookup_lt_Some in Hdata.
      split; [exact Hv|]. split; [exact Ht|]. split; [exact Hl|].
      split; [exact Hlen|]. split.
      * case_decide as Hd; [|congruence]. rewrite Hq, <- app_assoc. cbn [app].
        f_equal. f_equal. apply list_filter_iff. intros c'.
        unfold st1. now rewrite (unmirrored_closer st i dist c data0 c' Hdata).
      * intros c' data Hd'. destruct (decide (c' = c)) as [->|Hne].
        -- same_lookup.
           rewrite (Hsd c (closer i dist data0))
             by (unfold st1; cbn [searchData]; now apply list_lookup_insert_eq).
           unfold st1. cbn [verts]. rewrite Hother. fold dist.
           rewrite closer_twice.
           rewrite (bool_decide_eq_true_2 (c ∈ c :: rest))
             by (apply elem_of_cons; now left).
           now destruct (bool_decide (c ∈ rest)).
        -- rewrite (Hsd c' data)
             by (unfold st1; cbn [searchData]; now rewrite list_lookup_insert_ne).
           unfold st1. cbn [verts]. f_equal.
           rewrite (bool_decide_ext (c' ∈ c :: rest) (c' ∈ rest)); [reflexivity|].
           rewrite elem_of_cons. tauto.
    + apply IH in Hrun; [|exact Hi].
      destruct Hrun as (Hv & Ht & Hl & Hlen & Hq & Hsd).
      split; [exact Hv|]. split; [exact Ht|]. split; [exact Hl|].
      split; [exact Hlen|]. split.
      * case_decide as Hd; [congruence|exact Hq].
      * intros c' data Hd'. rewrite (Hsd c' data Hd').
        destruct (decide (c' = c)) as [->|Hne].
        -- same_lookup.
           rewrite (bool_decide_eq_true_2 (c ∈ c :: rest))
             by (apply elem_of_cons; now left).
           f_equal. destruct (verts st !! c) as [other|].
           ++ rewrite closer_mirrored by exact Enm.
              now destruct (bool_decide (c ∈ rest)).
           ++ now destruct (bool_decide (c ∈ rest)).
        -- f_equal.
           rewrite (bool_decide_ext (c' ∈ c :: rest) (c' ∈ rest)); [reflexivity|].
           rewrite elem_of_cons. tauto.
Qed.

(** X18.  [queueConnectedVerts] as a function of the state: the queue receives
    the unmirrored neighbours of the vertex in edge order (a neighbour
    reached by two edges twice); a neighbour without a record whose edge is
    shorter than its recorded distance takes that length as [_closeDistance]
    and the vertex as [_closeVert]; nothing else changes. *)
Theorem queueConnectedVerts_neighbours vlength i queue st queue' st' :
  queueConnectedVerts vlength i queue st = Ok (queue', st') ->
  exists v,
    verts st !! i = Some v /\
    verts st' = verts st /\ tag st' = tag st /\ mirrorLog st' = mirrorLog st /\
    queue' = queue ++ filter (fun c => unmirrored st c = true) (link_edges v) /\
    forall c data,
      searchData st !! c = Some data ->
      searchData st' !! c
      = Some (if bool_decide (c ∈ link_edges v)
              then match verts st !! c with
                   | Some other => closer i (vlength (vsub (co v) (co other))) data
                   | None => data
                   end
              else data).
Proof.
  unfold queueConnectedVerts. intros H. minv.
  match goal with Hv : verts _ !! i = Some ?v |- _ => exists v; split; [exact Hv|] end.
  eapply queueConnectedVerts_edges_closer in H; [|eassumption].
  destruct H as (Hv & Ht & Hl & _ & Hq & Hsd). auto 10.
Qed.

Lemma queueConnectedVerts_neighbours_witness :
  exists queue' st' data,
    queueConnectedVerts vlength_model 0 []
      (mkState pair_verts [SearchData_init; SearchData_init] [false] [])
    = Ok (queue', st') /\
    queue' = [1%nat] /\
    searchData st' !! 1%nat = Some data /\ _closeVert data = Some 0%nat.
Proof.
  assert (E : exists queue' st',
             queueConnectedVerts vlength_model 0 []
               (mkState pair_verts [SearchData_init; SearchData_init] [false] [])
             = Ok (queue', st'))
    by (vm_compute; eexists _, _; reflexivity).
  destruct E as (queue' & st' & E).
  destruct (queueConnectedVerts_neighbours _ _ _ _ _ _ E)
    as (v & Hv & _ & _ & _ & Hq & Hsd).
  apply Some_inj in Hv. subst v.
  specialize (Hsd 1%nat SearchData_init eq_refl).
  eexists queue', st', _. split; [exact E|]. split; [exact Hq|].
  split; [exact Hsd|]. vm_compute. reflexivity.
Defined.

(** ** Propagation along the edges *)

Lemma unmirrored_flags st c :
  unmirrored st c = true <-> flags st !! c = Some false.
Proof.
  unfold unmirrored, flags. rewrite list_lookup_fmap.
  destruct (searchData st !! c) as [d|]; cbn; [|split; discriminate].
  rewrite mirrored_notMirrored. destruct (mirrored d); cbn; split; congruence.
Qed.

Lemma edges_mirrorVert cfg i md force st u st' :
  mirrorVert cfg i md force st = Ok (u, st') ->
  edges st' = edges st /\ flags st' = flags st.
Proof.
  intros H. apply mirrorVert_spec in H.
  destruct H as (v & c & Hv & Hv' & Hsd & _). split.
  - unfold edges. rewrite Hv', list_fmap_insert. cbn [link_edges].
    apply list_insert_id. now rewrite list_lookup_fmap, Hv.
  - unfold flags. now rewrite Hsd.
Qed.

Lemma findFirstTri_flags cfg faces fuel i lastMFace st st' :
  findFirstTri cfg faces fuel i lastMFace st = Ok (tt, st') ->
  verts st' = verts st /\
  (flags st' = flags st \/ flags st' = <[i:=true]> (flags st)).
Proof.
  intros Hrun. unfold findFirstTri in Hrun.
  apply bind_Ok in Hrun. destruct Hrun as (u & st1 & Hset & Hrun).
  apply bind_Ok in Hrun. destruct Hrun as (tl & st2 & Hloop & Hreset).
  apply set_tag_Ok in Hset. destruct Hset as [Hidx ->].
  apply findFirstTri_loop_spec in Hloop.
  cbn [verts searchData tag mirrorLog] in Hloop.
  destruct Hloop as (Hv2 & _ & _ & _ & Hsd2).
  apply reset_tags_spec in Hreset. destruct Hreset as (Hv3 & Hs3 & _).
  split; [congruence|]. unfold flags. rewrite Hs3.
  destruct Hsd2 as [->|(d & md & Hd & Hi & ->)]; [now left|].
  right. now rewrite list_fmap_insert.
Qed.

Lemma queueConnectedVerts_queue vlength i queue st queue' st' :
  queueConnectedVerts vlength i queue st = Ok (queue', st') ->
  exists v, verts st !! i = Some v /\
            queue' = queue ++ filter (fun c => unmirrored st c = true) (link_edges v).
Proof.
  unfold queueConnectedVerts. intros H. minv.
  match goal with Hv : verts _ !! i = Some ?v |- _ => exists v; split; [exact Hv|] end.
  eapply queueConnectedVerts_edges_closer in H; [|eassumption].
  now destruct H as (_ & _ & _ & _ & Hq & _).
Qed.

Lemma closed_weaken (E E' : nat -> Prop) q q' st :
  (forall a, flags st !! a = Some true -> E a -> E' a) ->
  (forall b, flags st !! b = Some false -> b ∈ q -> b ∈ q') ->
  closed E q st -> closed E' q' st.
Proof.
  intros HE Hq H a es b Ha HnE Hes Hb Hfb.
  apply Hq; [exact Hfb|]. eapply H; eauto.
Qed.

Lemma closed_same (E : nat -> Prop) q st st' :
  edges st' = edges st -> flags st' = flags st ->
  closed E q st -> closed E q st'.
Proof. unfold closed. intros -> ->. auto. Qed.

(** Vertex [i] receives a record and its unmirrored neighbours join the
    queue. *)
Lemma closed_step (E : nat -> Prop) i q q' st st' es :
  closed E (i :: q) st ->
  flags st !! i = Some false ->
  edges st' = edges st ->
  flags st' = <[i:=true]> (flags st) ->
  edges st !! i = Some es ->
  (forall b, b ∈ q -> b ∈ q') ->
  (forall b, b ∈ es -> flags st' !! b = Some false -> b ∈ q') ->
  closed E q' st'.
Proof.
  intros Hc Hi He Hf Hes Hsub Hnew a es' b Ha HnE Hes' Hb Hfb.
  rewrite He in Hes'.
  assert (Hb' : flags st !! b = Some false /\ b <> i).
  { rewrite Hf in Hfb. destruct (decide (b = i)) as [->|Hne].
    - rewrite list_lookup_insert_eq in Hfb by (now apply lookup_lt_Some in Hi).
      discriminate.
    - now rewrite list_lookup_insert_ne in Hfb by auto. }
  destruct Hb' as [Hfb0 Hbi].
  destruct (decide (a = i)) as [->|Hne].
  - rewrite Hes in Hes'. apply Some_inj in Hes'. subst es'. now apply Hnew.
  - rewrite Hf, list_lookup_insert_ne in Ha by auto.
    specialize (Hc a es' b Ha HnE Hes' Hb Hfb0).
    apply elem_of_cons in Hc. destruct Hc as [->|Hc]; [contradiction|auto].
Qed.

Lemma flags_records st :
  flags st = (fun r : option MirrorData => match r with Some _ => true | None => false end)
             <$> records st.
Proof.
  unfold flags, records. rewrite <- list_fmap_compose. apply list_fmap_ext.
  intros k d _. reflexivity.
Qed.

Lemma found_at_flags cfg faces i st st' :
  found_at cfg faces i st st' ->
  verts st' = verts st /\
  ((records st' = records st /\ flags st' = flags st) \/
   exists md, records st' = <[i:=Some md]> (records st) /\ _intersected md = true /\
              flags st' = <[i:=true]> (flags st)).
Proof.
  intros [Hv [Hr|(v & md & _ & Hr & Hi & _)]]; (split; [exact Hv|]).
  - left. split; [exact Hr|]. now rewrite !flags_records, Hr.
  - right. exists md. split; [exact Hr|]. split; [exact Hi|].
    now rewrite !flags_records, Hr, list_fmap_insert.
Qed.

Lemma closed_exempt (E : nat -> Prop) i st st' :
  closed E [] st ->
  flags st !! i = Some false ->
  edges st' = edges st ->
  flags st' = <[i:=true]> (flags st) ->
  closed (fun a => E a \/ a = i) [] st'.
Proof.
  intros Hc Hi He Hf a es b Ha HnE Hes Hb Hfb. rewrite He in Hes.
  assert (Hai : a <> i) by (intros ->; apply HnE; now right).
  rewrite Hf, list_lookup_insert_ne in Ha by auto.
  assert (Hfb0 : flags st !! b = Some false).
  { rewrite Hf in Hfb. destruct (decide (b = i)) as [->|Hne].
    - rewrite list_lookup_insert_eq in Hfb by (now apply lookup_lt_Some in Hi).
      discriminate.
    - now rewrite list_lookup_insert_ne in Hfb by auto. }
  apply (Hc a es b); auto.
Qed.

Lemma wp_for_each_seq total (body : nat -> M unit) (I : nat -> State -> Prop) n :
  forall s,
    (forall k st, (s <= k < s + n)%nat -> I k st ->
                  wp total (body k) (fun _ => I (S k)) st) ->
    forall st, I s st -> wp total (for_each (seq s n) body) (fun _ => I (s + n)%nat) st.
Proof.
  induction n as [|n IH]; intros s Hbody st HI.
  - cbn [seq for_each]. apply wp_ret. now rewrite Nat.add_0_r.
  - cbn [seq for_each]. eapply wp_bind.
    + apply Hbody; [lia|exact HI].
    + intros u st1 HI1. cbv beta in HI1.
      replace (s + S n)%nat with (S s + n)%nat by lia.
      apply IH; [|exact HI1]. intros k st2 Hk. apply Hbody. lia.
Qed.

Lemma count_false_zero (f : list bool) b :
  count_false f = 0%nat -> f !! b <> Some false.
Proof.
  revert b. induction f as [|x f IH]; intros b H; [discriminate|].
  cbn [count_false] in H. destruct x; [|discriminate].
  destruct b as [|b]; [discriminate|]. cbn. apply IH. exact H.
Qed.

Section Propagation.
Variable cfg : MirrorStatics.
Variable vlength : Vector -> Q.
Variable faces : list BMFace.
Hypothesis Honly : onlyIntersecting cfg = false.

Local Abbreviation loop := (mirrorConnected_loop cfg vlength faces).

Lemma mirror_and_queue_closed fuel (E : nat -> Prop) :
  (forall q it st, closed E q st -> wp false (loop fuel q it) (fun _ => closed E []) st) ->
  forall i md force q it st st1,
    closed E (i :: q) st ->
    flags st !! i = Some false ->
    verts st1 = verts st ->
    flags st1 = <[i:=true]> (flags st) ->
    wp false (mirrorVert cfg i md force ;;;
              q' <~ queueConnectedVerts vlength i q ;;
              loop fuel q' it)
       (fun _ => closed E []) st1.
Proof.
  intros IHloop i md force q it st st1 Hc Hi Hv1 Hf1.
  eapply wp_bind with
    (R := fun _ st2 => edges st2 = edges st /\ flags st2 = <[i:=true]> (flags st)).
  { apply wp_spec; [discriminate|]. intros u st2 Hrun.
    apply edges_mirrorVert in Hrun. destruct Hrun as [He Hf].
    split; [rewrite He; unfold edges; now rewrite Hv1|congruence]. }
  intros u st2 [He2 Hf2].
  eapply wp_bind with (R := fun q' st3 => closed E q' st3).
  { apply wp_spec; [discriminate|]. intros q' st3 Hrun.
    pose proof (queueConnectedVerts_spec _ _ _ _ _ _ Hrun) as (Hv3 & _ & _ & Hf3 & _).
    apply queueConnectedVerts_queue in Hrun.
    destruct Hrun as (v & Hv & Hq).
    assert (He3 : edges st3 = edges st) by (unfold edges; rewrite Hv3; exact He2).
    apply (closed_step E i q q' st st3 (link_edges v)); auto.
    - congruence.
    - rewrite <- He2. unfold edges. now rewrite list_lookup_fmap, Hv.
    - intros b Hb. rewrite Hq. apply elem_of_app. now left.
    - intros b Hb Hfb. rewrite Hq. apply elem_of_app. right.
      apply list_elem_of_filter. split; [|exact Hb].
      apply unmirrored_flags. now rewrite <- Hf3. }
  intros q' st3 Hc3. now apply IHloop.
Qed.

Lemma mirrorConnected_loop_closed fuel (E : nat -> Prop) :
  forall q it st, closed E q st -> wp false (loop fuel q it) (fun _ => closed E []) st.
Proof.
  induction fuel as [|fuel IH]; intros q it st Hc; [reflexivity|].
  cbn [mirrorConnected_loop]. destruct q as [|i q]; [now apply wp_ret|].
  apply wp_bind_get_sd. intros data Hdata.
  rewrite mirrored_notMirrored. destruct (mirrored data) eqn:Emir; cbn [negb].
  { apply IH. eapply closed_weaken; [| |exact Hc]; [auto|].
    intros b Hfb Hb. apply elem_of_cons in Hb. destruct Hb as [->|Hb]; [|exact Hb].
    rewrite (flags_lookup _ _ _ Hdata), Emir in Hfb. discriminate. }
  assert (Hfalse : flags st !! i = Some false).
  { rewrite <- Emir. now apply flags_lookup. }
  apply wp_bind_attr. intros closeVert _.
  apply wp_bind_get_sd. intros cdata _.
  eapply wp_bind with
    (R := fun mData st1 =>
            verts st1 = verts st /\
            (flags st1 = flags st \/ flags st1 = <[i:=true]> (flags st)) /\
            (forall md, mData = Some md -> flags st1 !! i = Some true)).
  { destruct it.
    - apply wp_bind_attr. intros last _.
      eapply wp_bind with
        (R := fun _ st1 =>
                verts st1 = verts st /\
                (flags st1 = flags st \/ flags st1 = <[i:=true]> (flags st))).
      + apply wp_spec; [discriminate|]. intros [] st1 Hrun.
        now apply findFirstTri_flags in Hrun.
      + intros u st1 [Hv1 Hf1]. apply wp_bind_get_sd. intros data' Hdata'.
        apply wp_ret. split; [exact Hv1|]. split; [exact Hf1|]. intros md Hmd.
        rewrite (flags_lookup _ _ _ Hdata'). unfold mirrored. now rewrite Hmd.
    - apply wp_ret. split; [reflexivity|]. split; [now left|discriminate]. }
  intros mData st1 (Hv1 & Hf1 & Hsome).
  match goal with
  | |- wp _ (match mData with Some _ => _ | None => ?fb end) _ _ =>
      assert (Hfallback : wp false fb (fun _ => closed E []) st1)
  end.
  { rewrite Honly. cbn [negb].
    apply wp_bind_attr. intros last _.
    eapply wp_bind with
      (R := fun _ st2 => verts st2 = verts st /\ flags st2 = <[i:=true]> (flags st)).
    + apply wp_spec; [discriminate|]. intros u st2 Hrun.
      apply findDistance_spec in Hrun.
      destruct Hrun as (Hv2 & _ & _ & Hf2 & _).
      split; [congruence|]. rewrite Hf2.
      destruct Hf1 as [->| ->]; [reflexivity|apply list_insert_insert_eq].
    + intros u st2 [Hv2 Hf2].
      apply wp_bind_get_sd. intros data' _.
      apply wp_bind_attr. intros md' _.
      now apply (mirror_and_queue_closed fuel E (IH) i md' true q it st st2). }
  destruct mData as [md|]; [|exact Hfallback].
  destruct (_intersected md); [|exact Hfallback].
  apply (mirror_and_queue_closed fuel E (IH) i md false q it st st1); auto.
  destruct Hf1 as [Hf1|Hf1]; [|exact Hf1].
  specialize (Hsome md eq_refl). rewrite Hf1 in Hsome. congruence.
Qed.

Lemma mirrorConnected_closed fuel (E : nat -> Prop) i it st :
  closed (fun a => E a \/ a = i) [] st ->
  wp false (mirrorConnected cfg vlength faces fuel i it) (fun _ => closed E []) st.
Proof.
  intros Hc. unfold mirrorConnected.
  eapply wp_bind with (R := fun q st1 => closed E q st1).
  { apply wp_spec; [discriminate|]. intros q st1 Hrun.
    pose proof (queueConnectedVerts_spec _ _ _ _ _ _ Hrun) as (Hv1 & _ & _ & Hf1 & _).
    apply queueConnectedVerts_queue in Hrun. destruct Hrun as (v & Hv & Hq).
    cbn [app] in Hq.
    intros a es b Ha HnE Hes Hb Hfb.
    rewrite Hf1 in Ha, Hfb. unfold edges in Hes. rewrite Hv1 in Hes.
    destruct (decide (a = i)) as [->|Hne].
    - rewrite list_lookup_fmap, Hv in Hes. apply Some_inj in Hes. subst es.
      rewrite Hq. apply list_elem_of_filter. split; [|exact Hb].
      now apply unmirrored_flags.
    - exfalso. assert (Hin : b ∈ @nil nat); [|now apply elem_of_nil in Hin].
      apply (Hc a es b); auto. intros [HE|Hai]; auto. }
  intros q st1 Hc1. now apply mirrorConnected_loop_closed.
Qed.

Lemma mirrorMesh_seed_closed fuel st :
  closestOnly cfg = false ->
  closed (fun _ => False) [] st ->
  wp false (mirrorMesh_seed cfg vlength faces fuel)
     (fun _ => closed (fun _ => False) []) st.
Proof.
  intros Hprop Hc. unfold mirrorMesh_seed. apply wp_bind_read.
  apply (wp_for_each false _ _ (closed (fun _ => False) [])); [|exact Hc].
  intros i st1 _ Hc1.
  apply wp_bind_get_sd. intros data Hdata.
  destruct (notMirrored data) eqn:Enm; [|now apply wp_ret].
  assert (Hnone : records st1 !! i = Some None).
  { rewrite (records_lookup _ _ _ Hdata). unfold notMirrored in Enm.
    now destruct (_mirrorData data). }
  assert (Hfalse : flags st1 !! i = Some false).
  { rewrite (flags_lookup _ _ _ Hdata).
    rewrite mirrored_notMirrored in Enm. now destruct (mirrored data). }
  eapply wp_bind with (R := fun _ st2 => found_at cfg faces i st1 st2).
  { apply wp_spec; [discriminate|]. intros [] st2 Hrun.
    now apply findClosestTri_records. }
  intros u st2 Hf. apply wp_bind_get_sd. intros data' Hdata'.
  apply records_lookup in Hdata'.
  destruct (found_at_flags _ _ _ _ _ Hf) as [Hv2 [[Hr Hfl]|(md & Hr & Hi & Hfl)]].
  - rewrite Hr, Hnone in Hdata'. apply Some_inj in Hdata'. rewrite <- Hdata'.
    apply wp_ret. apply (closed_same _ _ st1); auto. unfold edges. now rewrite Hv2.
  - rewrite Hr, list_lookup_insert_eq in Hdata'
      by (now apply lookup_lt_Some in Hnone).
    apply Some_inj in Hdata'. rewrite <- Hdata', Hi.
    eapply wp_bind with (R := fun _ st3 => closed (fun a => False \/ a = i) [] st3).
    { apply wp_spec; [discriminate|]. intros u' st3 Hrun.
      apply edges_mirrorVert in Hrun. destruct Hrun as [He3 Hf3].
      apply (closed_exempt _ i st1); auto.
      - rewrite He3. unfold edges. now rewrite Hv2.
      - congruence. }
    intros u' st3 Hc3. rewrite Hprop. cbn [negb].
    now apply mirrorConnected_closed.
Qed.

Lemma mirrorNonIntersecting_closed fuel st :
  wp false (mirrorNonIntersecting cfg vlength faces fuel
              (count_notMirrored (searchData st)))
     (fun _ => closed (fun _ => False) []) st.
Proof.
  unfold mirrorNonIntersecting.
  destruct (0 <? count_notMirrored (searchData st))%nat eqn:En.
  2:{ apply wp_ret. apply Nat.ltb_ge in En.
      intros a es b _ _ _ _ Hfb. exfalso.
      apply (count_false_zero (flags st) b); [|exact Hfb].
      unfold flags. rewrite <- count_notMirrored_flags. lia. }
  apply wp_bind_read.
  set (S0 := fun a => flags st !! a = Some true).
  set (n := length (searchData st)).
  eapply wp_mono.
  - apply (wp_for_each_seq false _
             (fun k st1 => closed (fun a => S0 a /\ (k <= a)%nat) [] st1) n 0%nat).
    + intros k st1 _ Hc1.
      apply wp_bind_get_sd. intros data Hdata.
      destruct (mirrored data) eqn:Emir.
      * eapply wp_mono; [apply (mirrorConnected_closed fuel
                                 (fun a => S0 a /\ (S k <= a)%nat))|auto].
        eapply closed_weaken; [| |exact Hc1]; [|auto].
        intros a _ [HS Hle]. destruct (decide (a = k)) as [->|Hne]; [now right|].
        left. split; [exact HS|lia].
      * apply wp_ret. eapply closed_weaken; [| |exact Hc1]; [|auto].
        intros a Ha [HS Hle]. split; [exact HS|].
        destruct (decide (a = k)) as [->|Hne]; [|lia].
        rewrite (flags_lookup _ _ _ Hdata), Emir in Ha. discriminate.
    + intros a es b Ha HnE _ _ _. exfalso. apply HnE. split; [exact Ha|lia].
  - intros u st' Hc'. cbv beta in Hc'.
    eapply closed_weaken; [| |exact Hc']; [|auto].
    intros a _ [HS Hle]. unfold S0 in HS. apply lookup_lt_Some in HS.
    unfold flags in HS. rewrite length_fmap in HS. fold n in HS. lia.
Qed.
End Propagation.

Lemma mirrorMesh_closed cfg vlength faces fuel st :
  onlyIntersecting cfg = false ->
  wp false (mirrorMesh cfg vlength faces fuel)
     (fun _ => closed (fun _ => False) []) st.
Proof.
  intros Honly. unfold mirrorMesh.
  eapply wp_bind with (R := fun _ => closed (fun _ => False) []).
  { unfold wp, init_searchData. intros a es b Ha _ _ _ _. exfalso.
    unfold flags in Ha. cbn [searchData] in Ha.
    rewrite fmap_replicate in Ha. apply lookup_replicate in Ha.
    destruct Ha as [Ha _]. discriminate Ha. }
  intros u st0 Hc0.
  eapply wp_bind with
    (R := fun _ st1 => closestOnly cfg = false -> closed (fun _ => False) [] st1).
  { destruct (closestOnly cfg) eqn:Ec.
    - unfold wp. destruct (mirrorMesh_seed _ _ _ _ _) as [[? ?]| |];
        [discriminate|exact I|reflexivity].
    - eapply wp_mono; [apply mirrorMesh_seed_closed; auto|auto]. }
  intros u1 st1 Hc1. apply wp_bind_read. rewrite Honly, andb_true_r.
  eapply wp_bind with (R := fun _ => closed (fun _ => False) []).
  - destruct (closestOnly cfg).
    + now apply mirrorNonIntersecting_closed.
    + apply wp_ret. auto.
  - intros u' st' Hc'. now apply wp_ret.
Qed.

(** X17.  With [onlyIntersecting] off the mirroring spreads along every edge:
    when [mirrorMesh] returns, every neighbour of a vertex with a record
    has a record too, so that a connected mesh is mirrored entirely or not
    at all. *)
Theorem mirrorMesh_spreads cfg vlength faces fuel st n st' a v b da db :
  onlyIntersecting cfg = false ->
  mirrorMesh cfg vlength faces fuel st = Ok (n, st') ->
  searchData st' !! a = Some da -> mirrored da = true ->
  verts st' !! a = Some v -> b ∈ link_edges v ->
  searchData st' !! b = Some db ->
  mirrored db = true.
Proof.
  intros Honly Hrun Ha Hma Hv Hb Hdb.
  pose proof (mirrorMesh_closed cfg vlength faces fuel st Honly) as H.
  eapply wp_Ok in H; [|exact Hrun].
  destruct (mirrored db) eqn:Emb; [reflexivity|]. exfalso.
  assert (Hin : b ∈ @nil nat); [|now apply elem_of_nil in Hin].
  apply (H a (link_edges v) b).
  - rewrite (flags_lookup _ _ _ Ha). now rewrite Hma.
  - auto.
  - unfold edges. now rewrite list_lookup_fmap, Hv.
  - exact Hb.
  - rewrite (flags_lookup _ _ _ Hdb). now rewrite Emb.
Qed.

(** The pair of vertices under the sweep setting: the second vertex lies
    outside the mirror triangle and is mirrored as the neighbour of the
    first. *)
Lemma mirrorMesh_spreads_witness :
  exists n st' db,
    mirrorMesh statics_sweep vlength_model [tri_a] 8 pair_state = Ok (n, st') /\
    searchData st' !! 1%nat = Some db /\ mirrored db = true.
Proof.
  assert (E : exists n st' da v db,
             mirrorMesh statics_sweep vlength_model [tri_a] 8 pair_state
             = Ok (n, st') /\
             searchData st' !! 0%nat = Some da /\ mirrored da = true /\
             verts st' !! 0%nat = Some v /\ link_edges v = [1%nat] /\
             searchData st' !! 1%nat = Some db)
    by (vm_compute; eexists _, _, _, _, _; repeat split; reflexivity).
  destruct E as (n & st' & da & v & db & E & Ha & Hma & Hv & Hl & Hdb).
  exists n, st', db. split; [exact E|]. split; [exact Hdb|].
  apply (mirrorMesh_spreads statics_sweep vlength_model [tri_a] 8 pair_state
           n st' 0 v 1 da db eq_refl E Ha Hma Hv); [|exact Hdb].
  rewrite Hl. apply list_elem_of_singleton. reflexivity.
Defined.

(** ** What the engine can raise *)

Lemma safe_spec {A} (m : M A) (Q : A -> State -> Prop) st :
  (forall e, m st = Raise e -> e = ZeroDivisionError) ->
  (forall a st', m st = Ok (a, st') -> Q a st') ->
  safe m Q st.
Proof.
  intros Hr Hs. unfold safe. destruct (m st) as [[a st']| |]; auto.
Qed.

Lemma safe_Raise {A} (m : M A) Q st e :
  safe m Q st -> m st = Raise e -> e = ZeroDivisionError.
Proof. intros H E. unfold safe in H. now rewrite E in H. Qed.

Lemma safe_bind {A B} (m : M A) (k : A -> M B) R Q st :
  safe m R st ->
  (forall a st1, R a st1 -> safe (k a) Q st1) ->
  safe (bind m k) Q st.
Proof.
  unfold safe, bind. intros Hm Hk.
  destruct (m st) as [[a st1]| |]; [|exact Hm|exact I]. now apply Hk.
Qed.

Lemma safe_ret {A} (a : A) (Q : A -> State -> Prop) st : Q a st -> safe (ret a) Q st.
Proof. auto. Qed.

Lemma safe_mono {A} (m : M A) (R Q : A -> State -> Prop) st :
  safe m R st -> (forall a st', R a st' -> Q a st') -> safe m Q st.
Proof.
  unfold safe. intros Hm HQ. destruct (m st) as [[a st']| |]; auto.
Qed.

Lemma safe_bind_get_sd {B} i (k : SearchData -> M B) Q st :
  (i < length (searchData st))%nat ->
  (forall d, searchData st !! i = Some d -> safe (k d) Q st) ->
  safe (bind (get_sd i) k) Q st.
Proof.
  intros Hi H. unfold safe, bind, get_sd.
  destruct (lookup_lt_is_Some_2 _ _ Hi) as [d Hd]. rewrite Hd. now apply H.
Qed.

Lemma safe_bind_get_vert {B} i (k : BMVert -> M B) Q st :
  (i < length (verts st))%nat ->
  (forall v, verts st !! i = Some v -> safe (k v) Q st) ->
  safe (bind (get_vert i) k) Q st.
Proof.
  intros Hi H. unfold safe, bind, get_vert.
  destruct (lookup_lt_is_Some_2 _ _ Hi) as [v Hv]. rewrite Hv. now apply H.
Qed.

Lemma safe_bind_get_tag {B} i (k : bool -> M B) Q st :
  (i < length (tag st))%nat ->
  (forall b, tag st !! i = Some b -> safe (k b) Q st) ->
  safe (bind (get_tag i) k) Q st.
Proof.
  intros Hi H. unfold safe, bind, get_tag.
  destruct (lookup_lt_is_Some_2 _ _ Hi) as [b Hb]. rewrite Hb. now apply H.
Qed.

Lemma safe_bind_set_tag {B} i b (k : unit -> M B) Q st :
  (i < length (tag st))%nat ->
  safe (k tt) Q (mkState (verts st) (searchData st) (<[i:=b]> (tag st)) (mirrorLog st)) ->
  safe (bind (set_tag i b) k) Q st.
Proof.
  intros Hi H. unfold safe, bind, set_tag.
  destruct (lookup_lt_is_Some_2 _ _ Hi) as [b0 Hb]. rewrite Hb. exact H.
Qed.

Lemma safe_bind_set_sd {B} i d (k : unit -> M B) Q st :
  safe (k tt) Q (mkState (verts st) (<[i:=d]> (searchData st)) (tag st) (mirrorLog st)) ->
  safe (bind (set_sd i d) k) Q st.
Proof. auto. Qed.

Lemma safe_bind_attr {A B} (o : option A) (k : A -> M B) Q st :
  o <> None ->
  (forall a, o = Some a -> safe (k a) Q st) ->
  safe (bind (attr o) k) Q st.
Proof. intros Ho H. destruct o as [a|]; [now apply H|contradiction]. Qed.

Lemma safe_bind_lift {A B} (o : outcome A) (k : A -> M B) Q st :
  (forall e, o = Raise e -> e = ZeroDivisionError) ->
  (forall a, o = Ok a -> safe (k a) Q st) ->
  safe (bind (lift o) k) Q st.
Proof.
  intros Ho H. unfold safe, bind, lift. destruct o as [a|e|]; [|auto|exact I].
  now apply H.
Qed.

Lemma safe_bind_read {A B} (f : State -> A) (k : A -> M B) Q st :
  safe (k (f st)) Q st ->
  safe (bind (fun st => Ok (f st, st)) k) Q st.
Proof. auto. Qed.

Lemma safe_for_each {A} (l : list A) (body : A -> M unit) (I : State -> Prop) :
  (forall x st, x ∈ l -> I st -> safe (body x) (fun _ => I) st) ->
  forall st, I st -> safe (for_each l body) (fun _ => I) st.
Proof.
  induction l as [|x l IH]; intros Hbody st HI.
  - now apply safe_ret.
  - cbn [for_each]. eapply safe_bind.
    + apply Hbody; [apply elem_of_cons; now left|exact HI].
    + intros u st1 HI1. apply IH; [|exact HI1].
      intros y st2 Hy. apply Hbody. apply elem_of_cons. now right.
Qed.

Lemma Raise_inj {A} (e e' : exn) : @Raise A e = Raise e' -> e = e'.
Proof. intros H. now inversion H. Qed.

Lemma fdiv_raise a b e : fdiv a b = Raise e -> e = ZeroDivisionError.
Proof.
  unfold fdiv. destruct (Qeq_bool b 0); [|discriminate].
  intros H. apply Raise_inj in H. now symmetry.
Qed.

Lemma triIntersection_raise cfg vertCo mTri e :
  triIntersection cfg vertCo mTri = Raise e -> e = ZeroDivisionError.
Proof.
  rewrite triIntersection_unfold. cbv zeta.
  destruct (cull cfg && Qltb _ 0); [discriminate|].
  destruct (fdiv _ (corner_dot mTri (fv0 mTri))) eqn:E0;
    [|cbn [obind]; intros H; apply Raise_inj in H; subst; now apply fdiv_raise in E0
     |discriminate].
  destruct (fdiv _ (corner_dot mTri (fv1 mTri))) eqn:E1;
    [|cbn [obind]; intros H; apply Raise_inj in H; subst; now apply fdiv_raise in E1
     |discriminate].
  destruct (fdiv _ (corner_dot mTri (fv2 mTri))) eqn:E2;
    [|cbn [obind]; intros H; apply Raise_inj in H; subst; now apply fdiv_raise in E2
     |discriminate].
  cbn [obind]. destruct (fdiv 1 _) eqn:E3;
    [discriminate
    |cbn [obind]; intros H; apply Raise_inj in H; subst; now apply fdiv_raise in E3
    |discriminate].
Qed.

Lemma calcSmoothMirrorVector_raise md e :
  calcSmoothMirrorVector md = Raise e -> e = ZeroDivisionError.
Proof.
  unfold calcSmoothMirrorVector. destruct (fdiv _ _) eqn:E; [discriminate| |discriminate].
  cbn [obind]. intros H. apply Raise_inj in H. subst. now apply fdiv_raise in E.
Qed.

Lemma faces_wf_tag faces ntags f :
  faces_wf faces ntags -> f ∈ faces -> (findex f < ntags)%nat.
Proof.
  intros H Hf. unfold faces_wf in H. rewrite Forall_forall in H.
  now destruct (H f Hf).
Qed.

Lemma faces_wf_links faces ntags f :
  faces_wf faces ntags -> f ∈ faces ->
  Forall (Forall (fun j => (j < length faces)%nat)) (fedges f).
Proof.
  intros H Hf. unfold faces_wf in H. rewrite Forall_forall in H.
  now destruct (H f Hf).
Qed.

Lemma queueConnectedFaces_link_tagged faces link_faces :
  forall queue tagList st queue' tagList' st',
    queueConnectedFaces_link faces link_faces queue tagList st
    = Ok ((queue', tagList'), st') ->
    Forall (fun f => f ∈ faces) tagList -> Forall (fun f => f ∈ faces) tagList'.
Proof.
  induction link_faces as [|j rest IH]; intros queue tagList st queue' tagList' st' Hrun Hq.
  - cbn [queueConnectedFaces_link] in Hrun. apply ret_Ok in Hrun.
    destruct Hrun as [Hp _]. now inversion Hp; subst.
  - cbn [queueConnectedFaces_link] in Hrun. minv.
    match goal with Hl : match faces !! j with _ => _ end = Ok ?f |- _ =>
      rename Hl into Hface; rename f into otherFace end.
    assert (Hin : otherFace ∈ faces).
    { destruct (faces !! j) as [f|] eqn:Ej; [|discriminate].
      apply Ok_inj in Hface. subst f. now apply list_elem_of_lookup_2 in Ej. }
    match goal with Ht : tag _ !! _ = Some ?t |- _ => destruct t end;
      cbn [negb] in Hrun.
    + eapply IH; eassumption.
    + minv. eapply IH; [exact Hrun|]. apply Forall_app. split; [exact Hq|].
      now apply Forall_singleton.
Qed.

Lemma queueConnectedFaces_tagged faces face queue tagList st queue' tagList' st' :
  queueConnectedFaces faces face queue tagList st = Ok ((queue', tagList'), st') ->
  Forall (fun f => f ∈ faces) tagList -> Forall (fun f => f ∈ faces) tagList'.
Proof.
  unfold queueConnectedFaces. generalize (fedges face) as edges.
  intros edges. revert queue tagList st.
  induction edges as [|edge rest IH]; intros queue tagList st Hrun Hq.
  - cbn [queueConnectedFaces_edges] in Hrun. apply ret_Ok in Hrun.
    destruct Hrun as [Hp _]. now inversion Hp; subst.
  - cbn [queueConnectedFaces_edges] in Hrun. apply bind_Ok in Hrun.
    destruct Hrun as ([q1 tl1] & st1 & H1 & Hrun). cbn [fst snd] in Hrun.
    eapply IH; [exact Hrun|]. eapply queueConnectedFaces_link_tagged; eassumption.
Qed.

(** ** Steps that keep the data of the vertices sound *)

Lemma edges_length st : length (edges st) = length (verts st).
Proof. unfold edges. apply length_fmap. Qed.

Lemma record_step_refl faces st : record_step faces st st.
Proof.
  split; [reflexivity|]. split; [reflexivity|]. split; [reflexivity|].
  intros c d Hd. exists d. auto.
Qed.

Lemma record_step_trans faces st1 st2 st3 :
  record_step faces st1 st2 -> record_step faces st2 st3 ->
  record_step faces st1 st3.
Proof.
  intros (He1 & Ht1 & Hl1 & H1) (He2 & Ht2 & Hl2 & H2).
  split; [congruence|]. split; [congruence|]. split; [congruence|].
  intros c d3 Hd3. destruct (H2 c d3 Hd3) as (d2 & Hd2 & Hv2 & Hc2 & Hr2).
  destruct (H1 c d2 Hd2) as (d1 & Hd1 & Hv1 & Hc1 & Hr1).
  exists d1. split; [exact Hd1|]. split; [congruence|]. split; [congruence|].
  destruct Hr2 as [Hr2|Hr2]; [|now right].
  destruct Hr1 as [Hr1|Hr1]; [left; congruence|right]. now rewrite Hr2.
Qed.

Lemma record_step_tags faces st st' :
  verts st' = verts st -> searchData st' = searchData st ->
  length (tag st') = length (tag st) -> record_step faces st st'.
Proof.
  intros Hv Hs Ht. split; [unfold edges; now rewrite Hv|]. split; [exact Ht|].
  split; [now rewrite Hs|]. intros c d Hd. rewrite Hs in Hd. exists d. auto.
Qed.

Lemma record_step_set faces i d d' st :
  searchData st !! i = Some d ->
  _closeVert d' = _closeVert d -> _closeDistance d' = _closeDistance d ->
  (_mirrorData d' = _mirrorData d \/
   exists md, _mirrorData d' = Some md /\ _mirrorTri md ∈ faces) ->
  record_step faces st
    (mkState (verts st) (<[i:=d']> (searchData st)) (tag st) (mirrorLog st)).
Proof.
  intros Hd Hcv Hcd Hr. split; [reflexivity|]. split; [reflexivity|].
  split; [cbn [searchData]; apply length_insert|].
  intros c d1 Hd1. cbn [searchData] in Hd1.
  destruct (decide (i = c)) as [<-|Hne].
  - rewrite list_lookup_insert_eq in Hd1 by (now apply lookup_lt_Some in Hd).
    apply Some_inj in Hd1. subst d1. exists d. auto.
  - rewrite list_lookup_insert_ne in Hd1 by exact Hne. exists d1. auto.
Qed.

Lemma record_step_move faces i v c st :
  verts st !! i = Some v ->
  record_step faces st
    (mkState (<[i:=mkVert c (link_edges v)]> (verts st)) (searchData st) (tag st)
             (i :: mirrorLog st)).
Proof.
  intros Hv. split; [|split; [reflexivity|split; [reflexivity|]]].
  - unfold edges. cbn [verts]. rewrite list_fmap_insert. cbn [link_edges].
    apply list_insert_id. now rewrite list_lookup_fmap, Hv.
  - intros k d Hd. exists d. auto.
Qed.

Lemma record_step_verts faces st st' :
  record_step faces st st' -> length (verts st') = length (verts st).
Proof. intros (He & _). now rewrite <- !edges_length, He. Qed.

Lemma record_step_flags faces st st' k :
  record_step faces st st' -> flags st !! k = Some true -> flags st' !! k = Some true.
Proof.
  intros (_ & _ & Hl & H) Hk. apply flags_lookup_inv in Hk.
  destruct Hk as (d & Hd & Hm).
  destruct (lookup_lt_is_Some_2 (searchData st') k) as [d' Hd'].
  { rewrite Hl. now apply lookup_lt_Some in Hd. }
  rewrite (flags_lookup _ _ _ Hd'). f_equal.
  destruct (H k d' Hd') as (d0 & Hd0 & _ & _ & Hr).
  rewrite Hd in Hd0. apply Some_inj in Hd0. subst d0.
  unfold mirrored in *. destruct Hr as [Hr|(md & Hr & _)]; rewrite Hr;
    [exact Hm|reflexivity].
Qed.

Lemma sound_verts faces n ntags st :
  sound faces n ntags st -> length (verts st) = n.
Proof. intros (_ & _ & [He _] & _). now rewrite <- edges_length. Qed.

Lemma sound_step faces n ntags st st' :
  sound faces n ntags st -> record_step faces st st' -> sound faces n ntags st'.
Proof.
  intros (Hn & Ht & He & Hf & Hc) Hstep.
  pose proof Hstep as (He' & Ht' & Hl' & H).
  split; [congruence|]. split; [congruence|]. split; [now rewrite He'|].
  split.
  - intros c d' md Hd' Hmd. destruct (H c d' Hd') as (d & Hd & _ & _ & Hr).
    destruct Hr as [Hr|(md' & Hr & Hin)].
    + eapply Hf; [exact Hd|]. now rewrite <- Hr.
    + rewrite Hr in Hmd. apply Some_inj in Hmd. now subst md'.
  - intros c d' Hd'. destruct (H c d' Hd') as (d & Hd & Hcv & Hcd & _).
    rewrite Hcv, Hcd. specialize (Hc c d Hd).
    destruct (_closeVert d) as [k|]; [|exact Hc].
    eapply record_step_flags; eassumption.
Qed.

Lemma queue_ok_step faces n queue st st' :
  queue_ok n queue st -> record_step faces st st' -> queue_ok n queue st'.
Proof.
  intros Hq (_ & _ & _ & H). unfold queue_ok in *.
  eapply Forall_impl; [exact Hq|]. intros c [Hc Hcv]. cbv beta. split; [exact Hc|].
  intros d' Hd' Hnm. destruct (H c d' Hd') as (d & Hd & Hv & _ & Hr).
  rewrite Hv. apply (Hcv d Hd).
  unfold notMirrored in *. destruct Hr as [Hr|(md & Hr & _)]; rewrite Hr in Hnm;
    [exact Hnm|discriminate].
Qed.

Lemma setClosestMirror_cases d md :
  setClosestMirror d md = d \/ setClosestMirror d md = setMirror d md.
Proof.
  unfold setClosestMirror. destruct (_mirrorData d); [|now right].
  destruct (Qltb _ _); auto.
Qed.

Section EngineSafety.
Variable cfg : MirrorStatics.
Variable vlength : Vector -> Q.
Variable faces : list BMFace.
Variable ntags n : nat.
Hypothesis Hfaces : faces_wf faces ntags.
Hypothesis Hshort : forall x, vlength x < largeFloat.

Lemma queueConnectedFaces_link_safe link_faces :
  forall queue tagList st,
    Forall (fun j => (j < length faces)%nat) link_faces ->
    length (tag st) = ntags ->
    safe (queueConnectedFaces_link faces link_faces queue tagList)
         (fun _ st' => length (tag st') = ntags) st.
Proof.
  induction link_faces as [|j rest IH]; intros queue tagList st Hl Ht.
  - now apply safe_ret.
  - cbn [queueConnectedFaces_link].
    apply Forall_cons in Hl. destruct Hl as [Hj Hl].
    destruct (lookup_lt_is_Some_2 _ _ Hj) as [f Hf]. rewrite Hf.
    apply safe_bind_lift; [discriminate|]. intros f' Hf'.
    apply Ok_inj in Hf'. subst f'.
    assert (Hin : f ∈ faces) by now apply list_elem_of_lookup_2 in Hf.
    assert (Hidx : (findex f < length (tag st))%nat).
    { rewrite Ht. eapply faces_wf_tag; eassumption. }
    apply safe_bind_get_tag; [exact Hidx|]. intros t _.
    destruct (negb t); [|now apply IH].
    apply safe_bind_set_tag; [exact Hidx|].
    apply IH; [exact Hl|]. cbn [tag]. now rewrite length_insert.
Qed.

Lemma queueConnectedFaces_safe face queue tagList st :
  face ∈ faces ->
  length (tag st) = ntags ->
  safe (queueConnectedFaces faces face queue tagList)
       (fun _ st' => length (tag st') = ntags) st.
Proof.
  intros Hin. pose proof (faces_wf_links _ _ _ Hfaces Hin) as Hl.
  unfold queueConnectedFaces. revert Hl. generalize (fedges face) as edges.
  intros edges Hl. revert queue tagList st.
  induction edges as [|edge rest IH]; intros queue tagList st Ht.
  - now apply safe_ret.
  - cbn [queueConnectedFaces_edges].
    apply Forall_cons in Hl. destruct Hl as [He Hl].
    eapply safe_bind.
    + now apply queueConnectedFaces_link_safe.
    + intros qt st1 Ht1. cbv beta in Ht1. now apply IH.
Qed.

Lemma findFirstTri_loop_safe fuel i :
  forall queue tagList st,
    (i < length (verts st))%nat -> (i < length (searchData st))%nat ->
    Forall (fun f => f ∈ faces) queue -> Forall (fun f => f ∈ faces) tagList ->
    length (tag st) = ntags ->
    safe (findFirstTri_loop cfg faces fuel i queue tagList)
         (fun tl st' => Forall (fun f => f ∈ faces) tl /\ record_step faces st st') st.
Proof.
  induction fuel as [|fuel IH]; intros queue tagList st Hiv His Hq Htl Ht;
    [exact I|].
  cbn [findFirstTri_loop]. destruct queue as [|face queue].
  { apply safe_ret. split; [exact Htl|apply record_step_refl]. }
  apply Forall_cons in Hq. destruct Hq as [Hface Hq].
  assert (Hcont : safe (qt <~ queueConnectedFaces faces face queue tagList ;;
                        findFirstTri_loop cfg faces fuel i (fst qt) (snd qt))
                    (fun tl st' => Forall (fun f => f ∈ faces) tl /\
                                   record_step faces st st') st).
  { eapply safe_bind with
      (R := fun qt st1 =>
              length (tag st1) = ntags /\ verts st1 = verts st /\
              searchData st1 = searchData st /\
              Forall (fun f => f ∈ faces) (fst qt) /\
              Forall (fun f => f ∈ faces) (snd qt)).
    - pose proof (queueConnectedFaces_safe face queue tagList st Hface Ht) as Hs.
      unfold safe in *.
      destruct (queueConnectedFaces faces face queue tagList st)
        as [[[q1 tl1] st1]|e|] eqn:E; [|exact Hs|exact I].
      pose proof (queueConnectedFaces_spec _ _ _ _ _ _ _ _ E) as (Hv1 & Hs1 & _).
      cbn [fst snd]. split; [exact Hs|]. split; [exact Hv1|]. split; [exact Hs1|].
      split; [eapply queueConnectedFaces_faces; eassumption
             |eapply queueConnectedFaces_tagged; eassumption].
    - intros [q1 tl1] st1 (Ht1 & Hv1 & Hs1 & Hq1 & Htl1). cbn [fst snd] in *.
      eapply safe_mono;
        [apply IH; [congruence|congruence|exact Hq1|exact Htl1|exact Ht1]|].
      intros tl st' [Htl' Hs']. split; [exact Htl'|].
      eapply record_step_trans; [|exact Hs'].
      apply record_step_tags; congruence. }
  apply safe_bind_get_vert; [exact Hiv|]. intros vert _.
  apply safe_bind_lift; [apply triIntersection_raise|]. intros mDat Hm.
  destruct mDat as [md|]; [|exact Hcont].
  destruct (_intersected md); [|exact Hcont].
  apply safe_bind_get_sd; [exact His|]. intros data Hdata.
  apply safe_bind_set_sd. apply safe_ret. split; [exact Htl|].
  apply record_step_set with (d := data); [exact Hdata|reflexivity|reflexivity|].
  right. exists md. split; [reflexivity|].
  apply triIntersection_t in Hm. destruct Hm as [_ Hm]. now rewrite Hm.
Qed.

Lemma reset_tags_safe (tagList : list BMFace) :
  forall st,
    Forall (fun f => f ∈ faces) tagList ->
    length (tag st) = ntags ->
    safe (for_each tagList (fun f => set_tag (findex f) false))
         (fun _ st' => record_step faces st st') st.
Proof.
  induction tagList as [|f rest IH]; intros st Htl Ht.
  { apply safe_ret, record_step_refl. }
  apply Forall_cons in Htl. destruct Htl as [Hf Htl].
  cbn [for_each]. apply safe_bind_set_tag.
  - rewrite Ht. eapply faces_wf_tag; eassumption.
  - eapply safe_mono;
      [apply IH; [exact Htl|cbn [tag]; now rewrite length_insert]|].
    intros u st' Hs. eapply record_step_trans; [|exact Hs].
    apply record_step_tags; [reflexivity|reflexivity|].
    cbn [tag]. apply length_insert.
Qed.

Lemma findFirstTri_safe fuel i lastMFace st :
  lastMFace ∈ faces ->
  (i < length (verts st))%nat -> (i < length (searchData st))%nat ->
  length (tag st) = ntags ->
  safe (findFirstTri cfg faces fuel i lastMFace)
       (fun _ st' => record_step faces st st') st.
Proof.
  intros Hin Hiv His Ht. unfold findFirstTri.
  apply safe_bind_set_tag.
  { rewrite Ht. eapply faces_wf_tag; eassumption. }
  set (st1 := mkState _ _ _ _).
  assert (Hs1 : record_step faces st st1).
  { apply record_step_tags; [reflexivity|reflexivity|]. apply length_insert. }
  eapply safe_bind with
    (R := fun tl st2 => Forall (fun f => f ∈ faces) tl /\ record_step faces st1 st2).
  - apply findFirstTri_loop_safe;
      [exact Hiv|exact His|apply Forall_singleton; exact Hin
      |apply Forall_singleton; exact Hin|].
    unfold st1. cbn [tag]. now rewrite length_insert.
  - intros tl st2 [Htl Hs2]. eapply safe_mono.
    + apply reset_tags_safe; [exact Htl|].
      destruct Hs2 as (_ & Ht2 & _). rewrite Ht2. unfold st1. cbn [tag].
      now rewrite length_insert.
    + intros u st3 Hs3. cbv beta in Hs3.
      eapply record_step_trans; [exact Hs1|].
      eapply record_step_trans; [exact Hs2|exact Hs3].
Qed.

Lemma findClosestTri_safe i st :
  (i < length (verts st))%nat -> (i < length (searchData st))%nat ->
  safe (findClosestTri cfg faces i) (fun _ st' => record_step faces st st') st.
Proof.
  intros Hiv His. unfold findClosestTri.
  apply (safe_for_each _ _ (fun st1 => record_step faces st st1));
    [|apply record_step_refl].
  intros tri st1 Htri Hs1.
  pose proof (record_step_verts _ _ _ Hs1) as Hv1.
  pose proof Hs1 as (_ & _ & Hl1 & _).
  apply safe_bind_get_vert; [now rewrite Hv1|]. intros vert _.
  apply safe_bind_lift; [apply triIntersection_raise|]. intros mDat Hm.
  destruct mDat as [md|]; [|now apply safe_ret].
  destruct (_intersected md); [|now apply safe_ret].
  apply safe_bind_get_sd; [now rewrite Hl1|]. intros data Hdata.
  unfold safe, set_sd. eapply record_step_trans; [exact Hs1|].
  apply triIntersection_t in Hm. destruct Hm as [_ Hm].
  destruct (setClosestMirror_cases data md) as [-> | ->].
  - apply record_step_set with (d := data); auto.
  - apply record_step_set with (d := data); [exact Hdata|reflexivity|reflexivity|].
    right. exists md. split; [reflexivity|]. now rewrite Hm.
Qed.

Lemma findDistance_safe i mTri st :
  mTri ∈ faces ->
  (i < length (verts st))%nat -> (i < length (searchData st))%nat ->
  safe (findDistance i mTri)
       (fun _ st' => record_step faces st st' /\ flags st' !! i = Some true) st.
Proof.
  intros Hin Hiv His. unfold findDistance.
  apply safe_bind_get_vert; [exact Hiv|]. intros vert _.
  apply safe_bind_get_sd; [exact His|]. intros data Hdata.
  unfold safe, set_sd. split.
  - apply record_step_set with (d := data); [exact Hdata|reflexivity|reflexivity|].
    right. eexists. split; [reflexivity|]. exact Hin.
  - unfold flags. cbn [searchData].
    rewrite list_lookup_fmap, list_lookup_insert_eq by exact His. reflexivity.
Qed.

Lemma mirrorVert_safe i md force st :
  (i < length (verts st))%nat ->
  safe (mirrorVert cfg i md force) (fun _ st' => record_step faces st st') st.
Proof.
  intros Hiv. unfold mirrorVert.
  apply safe_bind_lift.
  { destruct (negb (smoothed cfg) || force); [discriminate|].
    apply calcSmoothMirrorVector_raise. }
  intros mVec _. apply safe_bind_get_vert; [exact Hiv|]. intros vert Hv.
  unfold safe, set_co. rewrite Hv. now apply record_step_move.
Qed.

Lemma queueConnectedVerts_edges_safe i edges :
  forall queue st,
    (i < length (verts st))%nat ->
    Forall (fun c => (c < length (verts st))%nat /\ (c < length (searchData st))%nat)
           edges ->
    safe (queueConnectedVerts_edges vlength i edges queue) (fun _ _ => True) st.
Proof.
  induction edges as [|c rest IH]; intros queue st Hiv He; [exact I|].
  apply Forall_cons in He. destruct He as [[Hcv Hcs] He].
  cbn [queueConnectedVerts_edges].
  apply safe_bind_get_sd; [exact Hcs|]. intros data _.
  destruct (notMirrored data); [|now apply IH].
  apply safe_bind_get_vert; [exact Hiv|]. intros vert _.
  apply safe_bind_get_vert; [exact Hcv|]. intros other _.
  destruct (Qltb _ _).
  - apply safe_bind_set_sd. apply IH; cbn [verts searchData]; [exact Hiv|].
    now rewrite length_insert.
  - apply safe_bind with (R := fun _ st1 => st1 = st); [now apply safe_ret|].
    intros _ st1 ->. now apply IH.
Qed.

(** The neighbours of a vertex with a record are queued with a closest
    vertex: a neighbour that keeps no closest vertex would be at a distance
    of at least [largeFloat]. *)
Lemma queueConnectedVerts_sound i queue st :
  sound faces n ntags st -> queue_ok n queue st -> flags st !! i = Some true ->
  safe (queueConnectedVerts vlength i queue)
       (fun q st' => sound faces n ntags st' /\ queue_ok n q st') st.
Proof.
  intros Hs Hq Hi.
  pose proof (sound_verts _ _ _ _ Hs) as Hnv.
  pose proof Hs as (Hn & Ht & [Hel He] & Hf & Hc).
  assert (Hiv : (i < length (verts st))%nat).
  { apply flags_lookup_inv in Hi. destruct Hi as (d & Hd & _).
    apply lookup_lt_Some in Hd. lia. }
  destruct (lookup_lt_is_Some_2 _ _ Hiv) as [v Hv].
  assert (Hedges : Forall (fun c => (c < n)%nat) (link_edges v)).
  { rewrite Forall_forall in He. apply He.
    apply list_elem_of_lookup. exists i. unfold edges.
    now rewrite list_lookup_fmap, Hv. }
  unfold queueConnectedVerts. apply safe_bind_get_vert; [exact Hiv|].
  intros v' Hv'. rewrite Hv in Hv'. apply Some_inj in Hv'. subst v'.
  apply safe_spec.
  - intros e Hrun. eapply safe_Raise; [|exact Hrun].
    apply queueConnectedVerts_edges_safe; [exact Hiv|].
    eapply Forall_impl; [exact Hedges|]. intros c Hc'. cbv beta in Hc' |- *. lia.
  - intros q st' Hrun.
    pose proof (queueConnectedVerts_edges_spec _ _ _ _ _ _ _ Hrun)
      as (_ & _ & _ & Hfl & _).
    apply (queueConnectedVerts_edges_closer _ _ v) in Hrun; [|exact Hv].
    destruct Hrun as (Hv1 & Ht1 & _ & Hl1 & -> & Hsd).
    assert (Hent : forall c d', searchData st' !! c = Some d' ->
                     exists d, searchData st !! c = Some d /\
                               (d' = d \/ exists dist, d' = closer i dist d)).
    { intros c d' Hd'.
      destruct (lookup_lt_is_Some_2 (searchData st) c) as [d Hd].
      { rewrite <- Hl1. now apply lookup_lt_Some in Hd'. }
      exists d. split; [exact Hd|]. rewrite (Hsd c d Hd) in Hd'.
      apply Some_inj in Hd'. subst d'.
      destruct (bool_decide _); [|now left].
      destruct (verts st !! c); [right; eauto|now left]. }
    split.
    + split; [congruence|]. split; [congruence|].
      split; [unfold edges; rewrite Hv1; now split|]. split.
      * intros c d' md Hd' Hmd. destruct (Hent c d' Hd') as (d & Hd & Hcase).
        apply (Hf c d md Hd).
        destruct Hcase as [->|[dist ->]]; [exact Hmd|].
        now rewrite closer_record in Hmd.
      * intros c d' Hd'. destruct (Hent c d' Hd') as (d & Hd & Hcase).
        specialize (Hc c d Hd). rewrite Hfl.
        destruct Hcase as [->|[dist ->]]; [exact Hc|].
        unfold closer. destruct (_ && _); [exact Hi|exact Hc].
    + unfold queue_ok. apply Forall_app. split.
      * eapply Forall_impl; [exact Hq|]. intros c [Hcn Hcv]. cbv beta.
        split; [exact Hcn|]. intros d' Hd' Hnm.
        destruct (Hent c d' Hd') as (d & Hd & Hcase).
        destruct Hcase as [->|[dist ->]]; [now apply (Hcv d)|].
        revert Hnm. unfold closer. destruct (_ && _); [discriminate|].
        now apply Hcv.
      * apply Forall_forall. intros c Hin.
        apply list_elem_of_filter in Hin. destruct Hin as [Hu Hin].
        rewrite Forall_forall in Hedges. pose proof (Hedges c Hin) as Hcn.
        split; [exact Hcn|]. intros d' Hd' Hnm.
        unfold unmirrored in Hu.
        destruct (searchData st !! c) as [d|] eqn:Hd; [|discriminate].
        rewrite (Hsd c d Hd) in Hd'.
        rewrite bool_decide_eq_true_2 in Hd' by exact Hin.
        destruct (lookup_lt_is_Some_2 (verts st) c) as [other Ho]; [lia|].
        rewrite Ho in Hd'. apply Some_inj in Hd'. subst d'.
        unfold closer. rewrite Hu. cbn [andb].
        destruct (Qltb _ _) eqn:Elt; [discriminate|].
        specialize (Hc c d Hd).
        destruct (_closeVert d) as [k|]; [discriminate|].
        apply Qltb_ge in Elt. intros _.
        specialize (Hshort (vsub (co v) (co other))). lra.
Qed.

Lemma mirrorConnected_loop_safe test :
  forall fuel queue st,
    sound faces n ntags st -> queue_ok n queue st ->
    safe (mirrorConnected_loop cfg vlength faces fuel queue test)
         (fun _ st' => sound faces n ntags st') st.
Proof.
  induction fuel as [|fuel IH]; intros queue st Hs Hq; [exact I|].
  cbn [mirrorConnected_loop]. destruct queue as [|i queue]; [now apply safe_ret|].
  apply Forall_cons in Hq. destruct Hq as [[Hi Hcv] Hq].
  fold (queue_ok n queue st) in Hq.
  pose proof (sound_verts _ _ _ _ Hs) as Hnv.
  pose proof Hs as (Hn & Ht & _ & Hf & Hc).
  apply safe_bind_get_sd; [now rewrite Hn|]. intros data Hdata.
  destruct (notMirrored data) eqn:Enm; [|now apply IH].
  apply safe_bind_attr; [now apply Hcv|]. intros k Hk.
  pose proof (Hc i data Hdata) as Hflag. rewrite Hk in Hflag.
  destruct (flags_lookup_inv _ _ _ Hflag) as (cdata & Hcd & Hcm).
  apply safe_bind_get_sd; [now apply lookup_lt_Some in Hcd|]. intros cdata' Hcd'.
  rewrite Hcd in Hcd'. apply Some_inj in Hcd'. subst cdata'.
  cbv zeta. unfold mirrored in Hcm.
  destruct (_mirrorData cdata) as [last|] eqn:Elast; [clear Hcm|discriminate].
  assert (Hlast : _mirrorTri last ∈ faces) by (eapply Hf; eassumption).
  (* mirrorVert, queueConnectedVerts and the rest of the queue *)
  assert (Hmove : forall md force st2,
             sound faces n ntags st2 -> queue_ok n queue st2 ->
             flags st2 !! i = Some true ->
             safe (mirrorVert cfg i md force ;;;
                   q <~ queueConnectedVerts vlength i queue ;;
                   mirrorConnected_loop cfg vlength faces fuel q test)
                  (fun _ st' => sound faces n ntags st') st2).
  { intros md force st2 Hs2 Hq2 Hi2.
    apply safe_bind with (R := fun _ st3 => record_step faces st2 st3).
    - apply mirrorVert_safe. now rewrite (sound_verts _ _ _ _ Hs2).
    - intros u st3 Hs3.
      apply safe_bind with
        (R := fun q st4 => sound faces n ntags st4 /\ queue_ok n q st4).
      + apply queueConnectedVerts_sound;
          [eapply sound_step; eassumption|eapply queue_ok_step; eassumption
          |eapply record_step_flags; eassumption].
      + intros q st4 [Hs4 Hq4]. now apply IH. }
  apply safe_bind with
    (R := fun mData st1 =>
            record_step faces st st1 /\
            forall md, mData = Some md -> flags st1 !! i = Some true).
  - destruct test.
    + apply safe_bind_attr; [discriminate|]. intros last' Hl.
      apply Some_inj in Hl. subst last'.
      apply safe_bind with (R := fun _ st1 => record_step faces st st1).
      * apply findFirstTri_safe; [exact Hlast|now rewrite Hnv|now rewrite Hn|exact Ht].
      * intros u st1 Hs1. pose proof Hs1 as (_ & _ & Hl1 & _).
        apply safe_bind_get_sd; [now rewrite Hl1, Hn|]. intros data' Hd'.
        apply safe_ret. split; [exact Hs1|]. intros md Hmd.
        rewrite (flags_lookup _ _ _ Hd'). unfold mirrored. now rewrite Hmd.
    + apply safe_ret. split; [apply record_step_refl|discriminate].
  - intros mData st1 [Hs1 Hmd]. cbv beta.
    assert (Hsound1 : sound faces n ntags st1) by (eapply sound_step; eassumption).
    assert (Hq1 : queue_ok n queue st1) by (eapply queue_ok_step; eassumption).
    pose proof (sound_verts _ _ _ _ Hsound1) as Hnv1.
    pose proof Hsound1 as (Hn1 & _).
    set (fallback := if negb (onlyIntersecting cfg) then _ else _).
    assert (Hfb : safe fallback (fun _ st' => sound faces n ntags st') st1).
    { unfold fallback. destruct (negb (onlyIntersecting cfg)); [|now apply IH].
      apply safe_bind_attr; [discriminate|]. intros last' Hl.
      apply Some_inj in Hl. subst last'.
      apply safe_bind with
        (R := fun _ st2 => record_step faces st1 st2 /\ flags st2 !! i = Some true).
      - apply findDistance_safe; [exact Hlast|now rewrite Hnv1|now rewrite Hn1].
      - intros u st2 [Hs2 Hfl2].
        destruct (flags_lookup_inv _ _ _ Hfl2) as (d2 & Hd2 & Hm2).
        apply safe_bind_get_sd; [now apply lookup_lt_Some in Hd2|].
        intros data2 Hdata2. rewrite Hd2 in Hdata2. apply Some_inj in Hdata2.
        subst data2. unfold mirrored in Hm2.
        apply safe_bind_attr; [now destruct (_mirrorData d2)|]. intros md' _.
        apply Hmove; [eapply sound_step; eassumption
                     |eapply queue_ok_step; eassumption|exact Hfl2]. }
    destruct mData as [md|]; [|exact Hfb].
    destruct (_intersected md); [|exact Hfb].
    apply Hmove; [exact Hsound1|exact Hq1|now apply (Hmd md)].
Qed.

Lemma mirrorConnected_safe fuel i test st :
  sound faces n ntags st -> flags st !! i = Some true ->
  safe (mirrorConnected cfg vlength faces fuel i test)
       (fun _ st' => sound faces n ntags st') st.
Proof.
  intros Hs Hi. unfold mirrorConnected.
  apply safe_bind with
    (R := fun q st1 => sound faces n ntags st1 /\ queue_ok n q st1).
  - apply queueConnectedVerts_sound; [exact Hs|apply Forall_nil_2|exact Hi].
  - intros q st1 [Hs1 Hq1]. now apply mirrorConnected_loop_safe.
Qed.

Lemma mirrorMesh_seed_safe fuel st :
  sound faces n ntags st ->
  safe (mirrorMesh_seed cfg vlength faces fuel)
       (fun _ st' => sound faces n ntags st') st.
Proof.
  intros Hs. unfold mirrorMesh_seed. apply safe_bind_read.
  apply safe_for_each with (I := sound faces n ntags); [|exact Hs].
  intros i st1 Hin Hs1. apply elem_of_seq in Hin.
  pose proof Hs as (Hn & _). pose proof Hs1 as (Hn1 & _).
  pose proof (sound_verts _ _ _ _ Hs1) as Hnv1.
  apply safe_bind_get_sd; [lia|]. intros data _.
  destruct (notMirrored data); [|now apply safe_ret].
  apply safe_bind with (R := fun _ st2 => record_step faces st1 st2).
  { apply findClosestTri_safe; lia. }
  intros u st2 Hs2. pose proof Hs2 as (_ & _ & Hl2 & _).
  apply safe_bind_get_sd; [lia|]. intros data' Hd'.
  destruct (_mirrorData data') as [mData|] eqn:Emd; [|eapply sound_step; eassumption].
  destruct (_intersected mData); [|eapply sound_step; eassumption].
  apply safe_bind with (R := fun _ st3 => record_step faces st2 st3).
  { apply mirrorVert_safe. rewrite (record_step_verts _ _ _ Hs2). lia. }
  intros u' st3 Hs3.
  assert (Hsound3 : sound faces n ntags st3).
  { eapply sound_step; [|exact Hs3]. eapply sound_step; eassumption. }
  destruct (negb (closestOnly cfg)); [|exact Hsound3].
  apply mirrorConnected_safe; [exact Hsound3|].
  eapply record_step_flags; [exact Hs3|].
  rewrite (flags_lookup _ _ _ Hd'). unfold mirrored. now rewrite Emd.
Qed.

Lemma mirrorNonIntersecting_safe fuel count st :
  sound faces n ntags st ->
  safe (mirrorNonIntersecting cfg vlength faces fuel count)
       (fun _ st' => sound faces n ntags st') st.
Proof.
  intros Hs. unfold mirrorNonIntersecting.
  destruct (0 <? count)%nat; [|exact Hs]. apply safe_bind_read.
  apply safe_for_each with (I := sound faces n ntags); [|exact Hs].
  intros i st1 Hin Hs1. apply elem_of_seq in Hin.
  pose proof Hs as (Hn & _). pose proof Hs1 as (Hn1 & _).
  apply safe_bind_get_sd; [lia|]. intros data Hd.
  destruct (mirrored data) eqn:Em; [|exact Hs1].
  apply mirrorConnected_safe; [exact Hs1|].
  now rewrite (flags_lookup _ _ _ Hd), Em.
Qed.
End EngineSafety.



(** * Further properties of the projection *)

(** ** projectMeshData *)

Lemma count_if_cons {A} (f : A -> bool) x l :
  count_if f (x :: l) = ((if f x then 1 else 0) + count_if f l)%nat.
Proof.
  unfold count_if. rewrite filter_cons. destruct (f x); case_decide; try congruence;
    reflexivity.
Qed.

Lemma count_if_le {A} (f : A -> bool) l : (count_if f l <= length l)%nat.
Proof. unfold count_if. apply length_filter. Qed.

Lemma count_if_negb {A} (f : A -> bool) l :
  (count_if (fun x => negb (f x)) l + count_if f l = length l)%nat.
Proof.
  induction l as [|x l IH]; [reflexivity|].
  rewrite !count_if_cons. cbn [length]. destruct (f x); cbn [negb]; lia.
Qed.

Lemma count_if_impl {A} (f g : A -> bool) l :
  (forall x, f x = true -> g x = true) -> (count_if f l <= count_if g l)%nat.
Proof.
  intros H. induction l as [|x l IH]; [reflexivity|].
  rewrite !count_if_cons. specialize (H x).
  destruct (f x), (g x); lia.
Qed.

Section ProjectMeshFacts.
Variable cfg : Setting.t.
Variable Bounds : Type.
Variable calcUVPoint : Bounds -> Vector -> Vector.
Variable trace_point_uv : Vector2 -> option (Vector * BMFace).
Variable trace_close_uv : Vector2 -> Q * option BMFace * Vector.
Variable averageCo : BMFace -> Vector -> Vector.
Variable averageNorm : BMFace -> Vector -> Vector.
Variable ensureMeshRatio : Bounds -> Bounds.
Variable bmove : Bounds -> Vector2 -> Bounds.
Variable brotate : Bounds -> Q -> Bounds.
Variable bscale : Bounds -> Vector2 -> Bounds.

Local Abbreviation pvert :=
  (projectVert cfg Bounds calcUVPoint trace_point_uv trace_close_uv averageCo averageNorm).
Local Abbreviation update :=
  (projectVert_update cfg Bounds calcUVPoint trace_point_uv trace_close_uv
                      averageCo averageNorm).
Local Abbreviation success :=
  (vert_success cfg Bounds calcUVPoint trace_point_uv trace_close_uv averageCo averageNorm).
Local Abbreviation partial :=
  (vert_partial cfg Bounds calcUVPoint trace_point_uv trace_close_uv averageCo averageNorm).
Local Abbreviation target :=
  (vert_target cfg Bounds calcUVPoint trace_point_uv trace_close_uv averageCo averageNorm).
Local Abbreviation projected :=
  (projected_verts cfg Bounds calcUVPoint trace_point_uv trace_close_uv
                   averageCo averageNorm).
Local Abbreviation verts_loop :=
  (project_verts cfg Bounds calcUVPoint trace_point_uv trace_close_uv
                 averageCo averageNorm).
Local Abbreviation tbounds :=
  (transformed_bounds cfg Bounds ensureMeshRatio bmove brotate bscale).
Local Abbreviation pmesh :=
  (project_mesh cfg Bounds calcUVPoint trace_point_uv trace_close_uv
                averageCo averageNorm ensureMeshRatio bmove brotate bscale).
Local Abbreviation pdata :=
  (projectMeshData cfg Bounds calcUVPoint trace_point_uv trace_close_uv
                   averageCo averageNorm ensureMeshRatio bmove brotate bscale).

(** The three outcomes of [projectVert]. *)
Lemma projectVert_cases (s : Vector) (bounds : Bounds) :
  (exists c, pvert s bounds = (Some c, false, (true, true))) \/
  (exists c, pvert s bounds = (Some c, true, (true, false))) \/
  pvert s bounds = (None, true, (false, false)).
Proof.
  unfold projectVert.
  destruct (trace_point_uv _) as [[uvw face]|]; [left; eauto|].
  destruct (trace_close_uv _) as [[dist [face|]] uvw]; [right; left; eauto|].
  right; right; reflexivity.
Qed.

Lemma update_projected (v : PVert) (s : Vector) (bounds : Bounds) :
  update v s bounds
  = (projected_vert cfg Bounds calcUVPoint trace_point_uv trace_close_uv
                    averageCo averageNorm bounds v s,
     (success bounds s, partial bounds s)).
Proof.
  unfold projectVert_update, projected_vert, vert_target, vert_success, vert_partial.
  destruct (projectVert_cases s bounds) as [[c H]|[[c H]|H]]; rewrite H; reflexivity.
Qed.

Lemma partial_success (bounds : Bounds) (s : Vector) :
  partial bounds s = true -> success bounds s = true.
Proof.
  unfold vert_success, vert_partial.
  destruct (projectVert_cases s bounds) as [[c H]|[[c H]|H]]; rewrite H; cbn; auto.
Qed.

Lemma success_target (bounds : Bounds) (s : Vector) :
  success bounds s = true <-> exists c, target bounds s = Some c.
Proof.
  unfold vert_success, vert_target.
  destruct (projectVert_cases s bounds) as [[c H]|[[c H]|H]]; rewrite H; cbn.
  - split; eauto.
  - split; eauto.
  - split; [discriminate|]. intros [c Hc]. discriminate.
Qed.

Lemma project_verts_Ok (bounds : Bounds) (source : list Vector) :
  forall pvs i cs cp verts' cs' cp',
    verts_loop bounds pvs source i cs cp = Ok (verts', cs', cp') ->
    let ss := take (length pvs) (drop i source) in
    length ss = length pvs /\
    verts' = projected bounds pvs ss /\
    cs' = (cs + Z.of_nat (count_if (success bounds) ss))%Z /\
    cp' = (cp + Z.of_nat (count_if (partial bounds) ss))%Z.
Proof.
  induction pvs as [|v rest IH]; intros i cs cp verts' cs' cp' Hrun.
  - cbn [project_verts] in Hrun. apply Ok_inj in Hrun.
    assert (verts' = [] /\ cs' = cs /\ cp' = cp) as (-> & -> & ->)
      by now inversion Hrun.
    cbv zeta. cbn [length]. rewrite take_0. unfold count_if.
    rewrite !filter_nil. cbn [length Z.of_nat]. repeat split; try reflexivity; lia.
  - cbn [project_verts] in Hrun.
    destruct (source !! i) as [s|] eqn:Hs; [|discriminate].
    rewrite update_projected in Hrun.
    destruct (verts_loop bounds rest source (S i) _ _) as [[[vs1 cs1] cp1]| |] eqn:E;
      try discriminate.
    cbn [obind fst snd] in Hrun. apply Ok_inj in Hrun.
    assert (Hv : verts' = projected_vert cfg Bounds calcUVPoint trace_point_uv
                            trace_close_uv averageCo averageNorm bounds v s :: vs1
                 /\ cs' = cs1 /\ cp' = cp1) by now inversion Hrun.
    destruct Hv as (-> & -> & ->).
    apply IH in E. cbv zeta in E. destruct E as (Hlen & Hvs & Hcs & Hcp).
    assert (Hdrop : drop i source = s :: drop (S i) source).
    { now apply drop_S. }
    cbv zeta. cbn [length]. rewrite Hdrop. cbn [take].
    split; [cbn [length]; now rewrite Hlen|].
    split; [unfold projected_verts; cbn [zip_with]; now rewrite Hvs|].
    rewrite !count_if_cons, Hcs, Hcp.
    destruct (success bounds s), (partial bounds s); cbn [Z.b2z]; lia.
Qed.

Lemma project_verts_run (bounds : Bounds) (source : list Vector) :
  forall pvs i cs cp,
    (i + length pvs <= length source)%nat ->
    exists r, verts_loop bounds pvs source i cs cp = Ok r.
Proof.
  induction pvs as [|v rest IH]; intros i cs cp Hlen.
  - eexists. reflexivity.
  - cbn [project_verts]. cbn [length] in Hlen.
    destruct (lookup_lt_is_Some_2 source i) as [s Hs]; [lia|]. rewrite Hs.
    rewrite update_projected.
    destruct (IH (S i) (cs + Z.b2z (success bounds s))%Z
                 (cp + Z.b2z (partial bounds s))%Z) as [r Hr]; [lia|].
    rewrite Hr. cbn [obind]. eexists. reflexivity.
Qed.

Lemma projected_length (bounds : Bounds) (pvs : list PVert) (ss : list Vector) :
  length ss = length pvs -> length (projected bounds pvs ss) = length pvs.
Proof.
  intros H. unfold projected_verts. rewrite length_zip_with. lia.
Qed.

Lemma projected_selected (bounds : Bounds) :
  forall (pvs : list PVert) (ss : list Vector),
    length ss = length pvs ->
    count_selected (projected bounds pvs ss)
    = count_if (fun s => negb (partial bounds s)) ss.
Proof.
  unfold count_selected, projected_verts.
  induction pvs as [|v rest IH]; intros [|s ss] Hlen; try discriminate.
  - reflexivity.
  - cbn [zip_with]. rewrite !count_if_cons. cbn [projected_vert pselect].
    rewrite IH by (cbn [length] in Hlen; lia). reflexivity.
Qed.

Lemma projected_twice (bounds : Bounds) :
  forall (pvs : list PVert) (ss : list Vector),
    projected bounds (projected bounds pvs ss) ss = projected bounds pvs ss.
Proof.
  unfold projected_verts.
  induction pvs as [|v rest IH]; intros [|s ss]; try reflexivity.
  cbn [zip_with]. rewrite IH. f_equal.
  unfold projected_vert. cbn [pco]. now destruct (target bounds s).
Qed.

Lemma count_success_failed (bounds : Bounds) (ss : list Vector) :
  (count_if (fun s => negb (success bounds s)) ss + count_if (success bounds) ss
   = length ss)%nat.
Proof. apply count_if_negb. Qed.

(** The loop over the vertices of one mesh, as a function of the source. *)
Lemma project_verts_total (bounds : Bounds) (pvs : list PVert) (source : list Vector) :
  (length pvs <= length source)%nat ->
  let ss := take (length pvs) source in
  verts_loop bounds pvs source 0 0 0
  = Ok (projected bounds pvs ss,
        Z.of_nat (count_if (success bounds) ss),
        Z.of_nat (count_if (partial bounds) ss)).
Proof.
  intros Hlen ss.
  destruct (project_verts_run bounds source pvs 0 0%Z 0%Z) as [[[vs cs] cp] Hr];
    [lia|].
  rewrite Hr. apply project_verts_Ok in Hr. cbv zeta in Hr. rewrite drop_0 in Hr.
  destruct Hr as (_ & -> & -> & ->). reflexivity.
Qed.

Lemma project_mesh_eq (meshData : MeshData Bounds) (b : Bounds) :
  (length (work_verts Bounds meshData) <= length (source_cos Bounds meshData))%nat ->
  let name := md_ob_name Bounds meshData in
  let ss := take (length (work_verts Bounds meshData)) (source_cos Bounds meshData) in
  let verts' := projected (tbounds b) (work_verts Bounds meshData) ss in
  let blen := length (work_verts Bounds meshData) in
  let failed := count_if (fun s => negb (success (tbounds b) s)) ss in
  let selected := count_selected verts' in
  pmesh meshData b
  = Ok (mkMeshData Bounds (source_cos Bounds meshData) verts'
                   (md_bounds Bounds meshData) name,
        if (failed <? blen)%nat then [(name, verts')] else [],
        if (failed <? blen)%nat then
          (if (selected =? 0)%nat then []
           else [WARNING_selected name (Z.of_nat selected)]) ++
          (if (failed =? 0)%nat then []
           else [WARNING_failed name (Z.of_nat failed)])
        else [WARNING_not_projected name]).
Proof.
  intros Hlen name ss verts' blen failed selected.
  assert (Hss : length ss = blen).
  { unfold ss, blen. rewrite length_take. lia. }
  unfold project_mesh. rewrite (project_verts_total _ _ _ Hlen).
  cbn [obind fst snd]. fold ss. fold verts'. fold name.
  assert (Hvl : length verts' = blen) by now apply projected_length.
  pose proof (count_success_failed (tbounds b) ss) as Hsf. fold failed in Hsf.
  pose proof (count_if_negb (partial (tbounds b)) ss) as Hps.
  assert (Hsel : selected = count_if (fun s => negb (partial (tbounds b) s)) ss)
    by now apply projected_selected.
  rewrite <- Hsel in Hps. rewrite Hss in Hsf, Hps. rewrite Hvl.
  destruct (failed <? blen)%nat eqn:Ef.
  - apply Nat.ltb_lt in Ef.
    replace (0 <? Z.of_nat (count_if (success (tbounds b)) ss))%Z with true
      by (symmetry; apply Z.ltb_lt; lia).
    replace (Z.of_nat blen - Z.of_nat (count_if (partial (tbounds b)) ss))%Z
      with (Z.of_nat selected) by lia.
    replace (Z.of_nat blen - Z.of_nat (count_if (success (tbounds b)) ss))%Z
      with (Z.of_nat failed) by lia.
    replace (Z.of_nat selected =? 0)%Z with (selected =? 0)%nat
      by (destruct selected; reflexivity).
    replace (Z.of_nat failed =? 0)%Z with (failed =? 0)%nat
      by (destruct failed; reflexivity).
    now destruct (selected =? 0)%nat, (failed =? 0)%nat.
  - apply Nat.ltb_ge in Ef.
    replace (0 <? Z.of_nat (count_if (success (tbounds b)) ss))%Z with false
      by (symmetry; apply Z.ltb_ge; lia).
    reflexivity.
Qed.

Lemma project_mesh_Ok_length (meshData : MeshData Bounds) (b : Bounds) r :
  pmesh meshData b = Ok r ->
  (length (work_verts Bounds meshData) <= length (source_cos Bounds meshData))%nat.
Proof.
  unfold project_mesh. intros H.
  destruct (verts_loop _ _ _ _ _ _) as [[[vs cs] cp]| |] eqn:E; try discriminate.
  apply project_verts_Ok in E. cbv zeta in E. destruct E as (Hlen & _).
  rewrite drop_0, length_take in Hlen. lia.
Qed.

(** X11.  The warnings of [projectMeshData] for one mesh are exact.  For a mesh
    with bounds whose source has a position for every vertex, every vertex
    with a target is moved there and every other vertex stays; a vertex
    ends selected unless it was projected directly.  When some vertex has
    a target the mesh is assigned to its object, with a warning that
    counts the selected vertices when there are any and a warning that
    counts the vertices without a target when there are any; when none has
    a target (also when the mesh has no vertex) nothing is assigned and the
    mesh is reported as not projected. *)
Theorem project_mesh_warnings (meshData : MeshData Bounds) (b : Bounds) :
  (length (work_verts Bounds meshData) <= length (source_cos Bounds meshData))%nat ->
  exists verts' obs reps,
    pmesh meshData b
    = Ok (mkMeshData Bounds (source_cos Bounds meshData) verts'
                     (md_bounds Bounds meshData) (md_ob_name Bounds meshData),
          obs, reps) /\
    let name := md_ob_name Bounds meshData in
    let blen := length (work_verts Bounds meshData) in
    let ss := take blen (source_cos Bounds meshData) in
    let failed := count_if (fun s => negb (success (tbounds b) s)) ss in
    let selected := count_selected verts' in
    verts' = projected (tbounds b) (work_verts Bounds meshData) ss /\
    (failed <= selected <= blen)%nat /\
    ((failed < blen)%nat ->
     obs = [(name, verts')] /\
     reps = (if (selected =? 0)%nat then []
             else [WARNING_selected name (Z.of_nat selected)]) ++
            (if (failed =? 0)%nat then []
             else [WARNING_failed name (Z.of_nat failed)])) /\
    (failed = blen -> obs = [] /\ reps = [WARNING_not_projected name]).
Proof.
  intros Hlen. pose proof (project_mesh_eq meshData b Hlen) as H. cbv zeta in H.
  eexists _, _, _. split; [exact H|]. cbv zeta.
  set (blen := length (work_verts Bounds meshData)) in *.
  set (ss := take blen (source_cos Bounds meshData)) in *.
  assert (Hss : length ss = blen).
  { unfold ss, blen. rewrite length_take. lia. }
  split; [reflexivity|]. split; [|split].
  - rewrite projected_selected by exact Hss. split.
    + apply count_if_impl. intros s Hs. apply negb_true_iff in Hs.
      apply negb_true_iff. destruct (partial (tbounds b) s) eqn:Ep; [|reflexivity].
      apply partial_success in Ep. congruence.
    + rewrite <- Hss. apply count_if_le.
  - intros Hlt. apply Nat.ltb_lt in Hlt. rewrite Hlt. auto.
  - intros Heq. rewrite Heq, Nat.ltb_irrefl. auto.
Qed.

Lemma project_mesh_again (meshData : MeshData Bounds) (b : Bounds) r :
  pmesh meshData b = Ok r -> pmesh (fst (fst r)) b = Ok r.
Proof.
  intros Hrun. pose proof (project_mesh_Ok_length _ _ _ Hrun) as Hlen.
  pose proof (project_mesh_eq meshData b Hlen) as H. cbv zeta in H.
  rewrite H in Hrun. apply Ok_inj in Hrun. subst r. cbn [fst].
  set (blen := length (work_verts Bounds meshData)) in *.
  set (ss := take blen (source_cos Bounds meshData)) in *.
  assert (Hss : length ss = blen).
  { unfold ss, blen. rewrite length_take. lia. }
  assert (Hvl : length (projected (tbounds b) (work_verts Bounds meshData) ss) = blen)
    by now apply projected_length.
  rewrite project_mesh_eq by (cbn [work_verts source_cos]; now rewrite Hvl).
  cbv zeta. cbn [work_verts source_cos md_bounds md_ob_name].
  rewrite Hvl. fold ss. rewrite !projected_twice. reflexivity.
Qed.

Lemma projectMeshData_split (meshList : list (MeshData Bounds)) :
  forall ret obs reps meshList',
    pdata meshList = Ok (ret, obs, reps, meshList') ->
    exists pre post rs,
      meshList = pre ++ post /\
      Forall2 (fun md r => exists b, md_bounds Bounds md = Some b /\ pmesh md b = Ok r)
              pre rs /\
      match post with
      | [] => ret = None
      | md :: _ => md_bounds Bounds md = None /\ ret = Some 0%Z
      end /\
      obs = concat ((fun r => snd (fst r)) <$> rs) /\
      reps = concat (snd <$> rs) /\
      meshList' = ((fun r => fst (fst r)) <$> rs) ++ post.
Proof.
  induction meshList as [|md rest IH]; intros ret obs reps ml' Hrun.
  - cbn [projectMeshData] in Hrun. apply Ok_inj in Hrun.
    exists [], [], []. inversion Hrun; subst. repeat split; constructor.
  - cbn [projectMeshData] in Hrun.
    destruct (md_bounds Bounds md) as [b|] eqn:Eb.
    + destruct (pmesh md b) as [r| |] eqn:Er; try discriminate.
      cbn [obind] in Hrun.
      destruct (pdata rest) as [[[[ret1 obs1] reps1] ml1]| |] eqn:E1;
        try discriminate.
      cbn [obind fst snd] in Hrun. apply Ok_inj in Hrun.
      destruct (IH _ _ _ _ eq_refl) as (pre & post & rs & -> & Hall & Hpost & -> & -> & ->).
      exists (md :: pre), post, (r :: rs).
      inversion Hrun; subst.
      split; [reflexivity|]. split; [constructor; eauto|].
      split; [exact Hpost|]. repeat split; reflexivity.
    + apply Ok_inj in Hrun. exists [], (md :: rest), [].
      inversion Hrun; subst. repeat split; auto; constructor.
Qed.

(** X12.  [projectMeshData] projects the meshes of [meshList] one by one, each
    from its own source and bounds, up to the first mesh without bounds,
    where it stops and returns [0] without a warning; when every mesh has
    bounds it returns [None].  The assigned meshes and the warnings are
    those of the single meshes, in order. *)
Theorem projectMeshData_meshes (meshList : list (MeshData Bounds))
        ret obs reps meshList' :
  pdata meshList = Ok (ret, obs, reps, meshList') ->
  exists pre post rs,
    meshList = pre ++ post /\
    Forall2 (fun md r => exists b, md_bounds Bounds md = Some b /\ pmesh md b = Ok r)
            pre rs /\
    match post with
    | [] => ret = None
    | md :: _ => md_bounds Bounds md = None /\ ret = Some 0%Z
    end /\
    obs = concat ((fun r => snd (fst r)) <$> rs) /\
    reps = concat (snd <$> rs) /\
    meshList' = ((fun r => fst (fst r)) <$> rs) ++ post /\
    length meshList' = length meshList.
Proof.
  intros Hrun.
  destruct (projectMeshData_split _ _ _ _ _ Hrun)
    as (pre & post & rs & Hml & Hall & Hpost & Hobs & Hreps & Hml').
  exists pre, post, rs. repeat split; try assumption.
  rewrite Hml', Hml, !length_app, length_fmap.
  now rewrite (Forall2_length _ _ _ Hall).
Qed.

(** X13.  Projecting again changes nothing: the working meshes are computed from
    the sources and the bounds, not from the previous result, so a second
    [projectMeshData] with the same settings returns the same value,
    assigns the same meshes, gives the same warnings and leaves the working
    meshes as they are. *)
Theorem projectMeshData_idempotent (meshList : list (MeshData Bounds))
        ret obs reps meshList' :
  pdata meshList = Ok (ret, obs, reps, meshList') ->
  pdata meshList' = Ok (ret, obs, reps, meshList').
Proof.
  revert ret obs reps meshList'.
  induction meshList as [|md rest IH]; intros ret obs reps ml' Hrun.
  - cbn [projectMeshData] in Hrun. apply Ok_inj in Hrun.
    inversion Hrun; subst. reflexivity.
  - cbn [projectMeshData] in Hrun.
    destruct (md_bounds Bounds md) as [b|] eqn:Eb.
    + destruct (pmesh md b) as [r| |] eqn:Er; try discriminate.
      cbn [obind] in Hrun.
      destruct (pdata rest) as [[[[ret1 obs1] reps1] ml1]| |] eqn:E1;
        try discriminate.
      cbn [obind fst snd] in Hrun. apply Ok_inj in Hrun.
      specialize (IH _ _ _ _ eq_refl).
      inversion Hrun; subst. cbn [projectMeshData].
      assert (Hb : md_bounds Bounds (fst (fst r)) = Some b).
      { pose proof (project_mesh_Ok_length _ _ _ Er) as Hlen.
        pose proof (project_mesh_eq md b Hlen) as H. cbv zeta in H.
        rewrite H in Er. apply Ok_inj in Er. subst r. exact Eb. }
      rewrite Hb, (project_mesh_again _ _ _ Er). cbn [obind].
      rewrite IH. reflexivity.
    + apply Ok_inj in Hrun. inversion Hrun; subst.
      cbn [projectMeshData]. now rewrite Eb.
Qed.
End ProjectMeshFacts.

(** ** calculateBounds, generateSourceData and traceUVTarget *)

Section ProjectionAccounting.
Variable cfg : Setting.t.
Variable self : ProjectionData.
Variable BMesh : Type.
Variable Bounds : Type.
Variable bvh_ray_cast : Vector -> Vector -> Q -> option (Vector * Vector * BMFace * Q).
Variable pointInTriangle : Vector -> Vector -> Vector -> Vector -> bool * Q * Q * Q.
Variable normalized : Vector -> Vector.
Variable uv_Area : BMFace -> Q.
Variable averageTexCoord : BMFace -> Vector -> Vector2.
Variable findMinMax : BMesh -> Vector * Vector.
Variable From_Corners :
  Vector2 -> Vector2 -> Vector2 -> Vector2 -> Vector2 -> Vector -> Vector -> option Bounds.
Variable sign : Q -> Q.
Variable axisAlignRotationMatrix : Matrix -> Matrix.
Variable createBmesh : ProjObject -> Matrix -> Vector -> BMesh.

Local Abbreviation rct := (ray_cast_target self bvh_ray_cast pointInTriangle normalized).
Local Abbreviation attempt :=
  (trace_attempt self bvh_ray_cast pointInTriangle normalized uv_Area averageTexCoord).
Local Abbreviation trace :=
  (traceUVTarget self bvh_ray_cast pointInTriangle normalized uv_Area averageTexCoord).
Local Abbreviation corners_loop :=
  (trace_corners self bvh_ray_cast pointInTriangle normalized uv_Area averageTexCoord).
Local Abbreviation bounds_of :=
  (calculateBounds self BMesh Bounds bvh_ray_cast pointInTriangle normalized uv_Area
                   averageTexCoord findMinMax From_Corners).
Local Abbreviation source_of :=
  (createSourceBmesh cfg self BMesh Bounds bvh_ray_cast pointInTriangle normalized
                     uv_Area averageTexCoord findMinMax From_Corners sign
                     axisAlignRotationMatrix createBmesh).
Local Abbreviation sources_of :=
  (generateSourceData cfg self BMesh Bounds bvh_ray_cast pointInTriangle normalized
                      uv_Area averageTexCoord findMinMax From_Corners sign
                      axisAlignRotationMatrix createBmesh).

Lemma trace_corners_Some corners meshPos centerTex uvs :
  corners_loop corners meshPos centerTex = Some uvs ->
  Forall2 (fun c uv => trace c meshPos centerTex = Some uv) corners uvs.
Proof.
  revert uvs. induction corners as [|c rest IH]; intros uvs H.
  - cbn [trace_corners] in H. apply Some_inj in H. subst uvs. constructor.
  - cbn [trace_corners] in H.
    destruct (trace c meshPos centerTex) as [uv|] eqn:E; [|discriminate].
    destruct (corners_loop rest meshPos centerTex) as [uvs'|]; [|discriminate].
    apply Some_inj in H. subst uvs. constructor; auto.
Qed.

Lemma calculateBounds_report_count mesh alignedAxis meshPos meshName :
  match bounds_of mesh alignedAxis meshPos meshName with
  | (Some bound, reports) => reports = []
  | (None, reports) => length reports = 1%nat
  end.
Proof.
  unfold calculateBounds. destruct (findMinMax mesh) as [vMin vMax].
  destruct (rct meshPos) as [[[cFace dist] uvw]|]; [|reflexivity].
  destruct (corners_loop _ meshPos (averageTexCoord cFace uvw)) as [uvs|] eqn:E;
    [|reflexivity].
  apply trace_corners_Some, Forall2_length in E. cbn [mesh_corners length] in E.
  destruct uvs as [|c0 [|c1 [|c2 [|c3 [|c4 uvs]]]]]; try discriminate E.
  now destruct (From_Corners c0 c1 c2 c3 _ vMin vMax).
Qed.


Lemma createSourceBmesh_reports ob :
  match source_of ob with
  | (Some data, reports) => reports = [] /\ smd_ob_name BMesh Bounds data = po_name ob
  | (None, reports) => length reports = 1%nat
  end.
Proof.
  unfold createSourceBmesh. cbv zeta.
  match goal with |- context [calculateBounds ?a ?b ?c ?d ?e ?f ?g ?h ?i ?j ?m ?ax ?p ?n] =>
    pose proof (calculateBounds_report_count m ax p n) as H;
      destruct (calculateBounds a b c d e f g h i j m ax p n) as [[bound|] reports]
  end; auto.
Qed.

Lemma is_source_name ob :
  is_source self ob = true -> po_name ob <> target_ob self.
Proof.
  unfold is_source. intros H. apply andb_true_iff in H. destruct H as [_ H].
  apply negb_true_iff in H. now apply String.eqb_neq in H.
Qed.

(** X15.  [generateSourceData] accounts for every mesh other than the target:
    each gives either an entry of [meshList] or exactly one warning, so
    that entries and warnings together number the meshes other than the
    target; the entries are named after such meshes, in the order of the
    list, and none is the target. *)
Theorem generateSourceData_accounting ob_list :
  let meshList := fst (sources_of ob_list) in
  let reports := snd (sources_of ob_list) in
  (length meshList + length reports = count_if (is_source self) ob_list)%nat /\
  smd_ob_name BMesh Bounds <$> meshList
    `sublist_of` po_name <$> filter (fun ob => is_source self ob = true) ob_list /\
  Forall (fun data => smd_ob_name BMesh Bounds data <> target_ob self) meshList.
Proof.
  cbv zeta. induction ob_list as [|ob rest IH].
  - cbn. repeat split; constructor.
  - destruct IH as (Hcount & Hsub & Hall).
    cbn [generateSourceData]. rewrite count_if_cons, filter_cons.
    destruct (sources_of rest) as [meshList reports]. cbn [fst snd] in *.
    fold (is_source self ob).
    destruct (is_source self ob) eqn:Es.
    + case_decide as Hd; [|congruence].
      pose proof (createSourceBmesh_reports ob) as Hr.
      destruct (source_of ob) as [[data|] r]; cbn [fst snd].
      * destruct Hr as [-> Hname]. cbn [app length fmap list_fmap].
        split; [lia|]. split.
        -- rewrite Hname. now constructor.
        -- constructor; [|exact Hall]. rewrite Hname. now apply is_source_name.
      * rewrite length_app, Hr. split; [lia|]. split; [|exact Hall].
        cbn [fmap list_fmap]. now constructor.
    + case_decide as Hd; [congruence|]. cbn [fst snd]. auto.
Qed.

Lemma half_pow_nonzero k : ~ half_pow k == 0.
Proof. unfold half_pow. apply Qpower_not_0. discriminate. Qed.

Lemma rescale_affine (tex centerTex T : Vector2) (m : Q) :
  ~ m == 0 ->
  v2eq tex (v2add (v2scale m (v2sub T centerTex)) centerTex) ->
  v2eq (v2add (v2div (v2sub tex centerTex) m) centerTex) T.
Proof.
  intros Hm [Hx Hy]. unfold v2eq, v2add, v2div, v2sub, v2scale in *.
  cbn [ux uy] in *. rewrite Hx, Hy. split; field; exact Hm.
Qed.

(** X16.  The rescaling of [traceUVTarget] is exact for an affine UV map: when
    the texture coordinate found at each traced position is the center's
    coordinate plus [0.5^k] times the offset of some coordinate [T], the
    result is [T], whichever attempt is accepted. *)
Theorem traceUVTarget_affine corner centerPos centerTex T r :
  (forall k face dist uvw,
     (k < 5)%nat ->
     rct (trace_pos corner centerPos k) = Some (face, dist, uvw) ->
     v2eq (averageTexCoord face uvw)
          (v2add (v2scale (half_pow k) (v2sub T centerTex)) centerTex)) ->
  trace corner centerPos centerTex = Some r ->
  v2eq r T.
Proof.
  intros Haff Hr.
  pose proof (traceUVTarget_first self bvh_ray_cast pointInTriangle normalized
                uv_Area averageTexCoord corner centerPos centerTex) as H.
  rewrite Hr in H. destruct H as (k & Hk & _ & Hatt).
  pose proof (trace_attempt_cases self bvh_ray_cast pointInTriangle normalized
                uv_Area averageTexCoord corner centerPos centerTex k) as Hc.
  rewrite Hatt in Hc. destruct Hc as (face & dist & uvw & Hray & _ & ->).
  apply rescale_affine; [apply half_pow_nonzero|]. eapply Haff; eassumption.
Qed.
End ProjectionAccounting.

(** The demonstration mesh: one vertex projected directly, one to the
    closest face, one not at all. *)
Lemma project_mesh_warnings_witness :
  exists verts' obs reps,
    demo_project_mesh demo_mesh 0
    = Ok (mkMeshData Q (source_cos Q demo_mesh) verts' (Some 0) "mesh", obs, reps) /\
    count_selected verts' = 2%nat /\
    obs = [("mesh"%string, verts')] /\
    reps = [WARNING_selected "mesh" 2; WARNING_failed "mesh" 1].
Proof.
  destruct (project_mesh_warnings (setting_with true) Q demo_calcUVPoint
              demo_trace_point demo_trace_close averageCo_spec averageNorm_spec
              (fun b => b) demo_bmove (fun b _ => b) (fun b _ => b) demo_mesh 0)
    as (verts' & obs & reps & Hrun & H); [vm_compute; lia|].
  cbv zeta in H. destruct H as (Hv & _ & Hsome & _).
  assert (Hsel : count_selected verts' = 2%nat) by (rewrite Hv; vm_compute; reflexivity).
  destruct Hsome as [Hobs Hreps]; [vm_compute; lia|].
  exists verts', obs, reps. split; [exact Hrun|]. split; [exact Hsel|].
  split; [exact Hobs|]. rewrite Hreps, Hsel. vm_compute. reflexivity.
Defined.

Lemma projectMeshData_meshes_witness :
  exists ret obs reps meshList',
    demo_projectMeshData [demo_mesh; demo_mesh] = Ok (ret, obs, reps, meshList') /\
    length meshList' = 2%nat.
Proof.
  assert (E : exists ret obs reps meshList',
             demo_projectMeshData [demo_mesh; demo_mesh]
             = Ok (ret, obs, reps, meshList'))
    by (vm_compute; eexists _, _, _, _; reflexivity).
  destruct E as (ret & obs & reps & ml' & E).
  destruct (projectMeshData_meshes _ _ _ _ _ _ _ _ _ _ _ _ _ _ _ _ E)
    as (pre & post & rs & _ & _ & _ & _ & _ & _ & Hlen).
  exists ret, obs, reps, ml'. split; [exact E|exact Hlen].
Defined.

Lemma projectMeshData_idempotent_witness :
  exists ret obs reps meshList',
    demo_projectMeshData [demo_mesh; demo_mesh] = Ok (ret, obs, reps, meshList') /\
    demo_projectMeshData meshList' = Ok (ret, obs, reps, meshList').
Proof.
  assert (E : exists ret obs reps meshList',
             demo_projectMeshData [demo_mesh; demo_mesh]
             = Ok (ret, obs, reps, meshList'))
    by (vm_compute; eexists _, _, _, _; reflexivity).
  destruct E as (ret & obs & reps & ml' & E).
  exists ret, obs, reps, ml'. split; [exact E|].
  exact (projectMeshData_idempotent _ _ _ _ _ _ _ _ _ _ _ _ _ _ _ _ E).
Defined.

(** The host of [demo_trace] reports the position of the origin as the
    texture coordinate, an affine map: the corner (4,0,0), accepted at the
    third attempt, is traced to (4,0). *)
Lemma traceUVTarget_affine_witness :
  exists r, demo_trace (mkVector 4 0 0) = Some r /\ v2eq r (mkVector2 4 0).
Proof.
  assert (E : exists r, demo_trace (mkVector 4 0 0) = Some r)
    by (vm_compute; eexists; reflexivity).
  destruct E as [r E]. exists r. split; [exact E|].
  refine (traceUVTarget_affine demo_self demo_ray_cast demo_pointInTriangle
            (fun v => v) demo_uv_Area demo_averageTexCoord
            (mkVector 4 0 0) (mkVector 0 0 0) (mkVector2 0 0) (mkVector2 4 0) r _ E).
  intros k face dist uvw Hk Hray.
  destruct k as [|[|[|[|[|k]]]]]; try lia; vm_compute in Hray; try discriminate Hray;
    apply Some_inj in Hray;
    assert (Hu : uvw = snd (face, dist, uvw)) by reflexivity;
    rewrite <- Hray in Hu; subst uvw; vm_compute; split; reflexivity.
Defined.
